(** * obsidian-ai-tagger: the tag merger, the suggestion client and the batch driver

    A shallow embedding of [src/main.ts].  JavaScript strings are sequences of
    UTF-16 code units; the regular expressions of the source are kept as
    syntax trees and run by a backtracking matcher that follows the
    ECMAScript semantics (continuation passing, leftmost start, greedy and
    lazy stars); the host vault is a finite map from paths to note texts. *)

From Stdlib Require Import NArith Ascii String Lia.
From stdpp Require Import base option list strings gmap.

Set Warnings "-register-all,-clear-no-such-hyp".

Local Open Scope N_scope.
Local Open Scope nat_scope.
Local Open Scope list_scope.

(** ** JavaScript strings *)

(** A code unit is a natural number below 2^16; nothing below relies on the
    bound. *)
Definition jsstring := list N.

Fixpoint u (s : string) : jsstring :=
  match s with
  | EmptyString => []
  | String a r => N_of_ascii a :: u r
  end.

Definition LF : N := 10%N.
Definition DQUOTE : N := 34%N.
Definition SQUOTE : N := 39%N.
Definition DOLLAR : N := 36%N.
Definition COMMA : N := 44%N.
Definition LBRACKET : N := 91%N.
Definition RBRACKET : N := 93%N.

Definition inRange (lo hi c : N) : bool := (lo <=? c)%N && (c <=? hi)%N.

(** LineTerminator: LF, CR, LS, PS. *)
Definition isLineTerminator (c : N) : bool :=
  (c =? 10)%N || (c =? 13)%N || (c =? 8232)%N || (c =? 8233)%N.

(** WhiteSpace and LineTerminator together: what [\s] matches and what
    [trim] strips. *)
Definition isSpace (c : N) : bool :=
  (c =? 9)%N || (c =? 11)%N || (c =? 12)%N || (c =? 32)%N || (c =? 160)%N
  || (c =? 5760)%N || inRange 8192 8202 c || (c =? 8239)%N || (c =? 8287)%N
  || (c =? 12288)%N || (c =? 65279)%N || isLineTerminator c.

Definition isDigit (c : N) : bool := inRange 48 57 c.

Definition eqs (a b : jsstring) : bool := bool_decide (a = b).

Module JsString.

(** [s.startsWith(p)], returning what follows the prefix. *)
Fixpoint stripPrefix (p s : jsstring) : option jsstring :=
  match p, s with
  | [], _ => Some s
  | a :: p', b :: s' => if (a =? b)%N then stripPrefix p' s' else None
  | _ :: _, [] => None
  end.

(** The leftmost position from which [f] accepts the text: the text
    before that position, and what [f] returns there. *)
Fixpoint scan {A : Type} (f : jsstring -> option A) (s : jsstring)
    : option (jsstring * A) :=
  match f s with
  | Some r => Some ([], r)
  | None =>
      match s with
      | [] => None
      | a :: s' =>
          match scan f s' with
          | Some (before, r) => Some (a :: before, r)
          | None => None
          end
      end
  end.

(** The first occurrence of [pat] in [s], as the text before it and the
    text after it ([s.indexOf(pat)] is the length of the first part). *)
Definition cut (pat s : jsstring) : option (jsstring * jsstring) :=
  scan (stripPrefix pat) s.

(** [s.split(sep)] for a non-empty separator; fuel bounds the number of
    pieces, and a text of length n has at most n + 1 of them. *)
Fixpoint splitFuel (n : nat) (sep s : jsstring) : list jsstring :=
  match n with
  | O => [s]
  | S n' =>
      match cut sep s with
      | Some (before, after) => before :: splitFuel n' sep after
      | None => [s]
      end
  end.

Definition split (sep s : jsstring) : list jsstring :=
  splitFuel (length s) sep s.

(** [xs.join(sep)] *)
Fixpoint join (sep : jsstring) (xs : list jsstring) : jsstring :=
  match xs with
  | [] => []
  | [x] => x
  | x :: rest => x ++ sep ++ join sep rest
  end.

Fixpoint trimStart (s : jsstring) : jsstring :=
  match s with
  | c :: s' => if isSpace c then trimStart s' else s
  | [] => []
  end.

Definition trimEnd (s : jsstring) : jsstring := rev (trimStart (rev s)).

Definition trim (s : jsstring) : jsstring := trimEnd (trimStart s).

(** [s.slice(0, n)] for 0 <= n *)
Definition slice0 (n : nat) (s : jsstring) : jsstring := take n s.

(** GetSubstitution (ECMA-262, 22.1.3.19.1) without named captures: the
    expansion of a replacement template.  [matched] was found at
    [position] in [str]; [captures] are the numbered groups. *)
Definition digitVal (c : N) : nat := N.to_nat (c - 48)%N.

Definition capture (captures : list (option jsstring)) (i : nat) : jsstring :=
  default [] (mjoin (captures !! (i - 1))).

Fixpoint GetSubstitution (matched str : jsstring) (position : nat)
    (captures : list (option jsstring)) (template : jsstring) : jsstring :=
  match template with
  | [] => []
  | c :: t =>
      if negb (c =? DOLLAR)%N then
        c :: GetSubstitution matched str position captures t
      else
        match t with
        | d :: t' =>
            if (d =? DOLLAR)%N then
              DOLLAR :: GetSubstitution matched str position captures t'
            else if (d =? 38)%N then
              matched ++ GetSubstitution matched str position captures t'
            else if (d =? 96)%N then
              take position str ++ GetSubstitution matched str position captures t'
            else if (d =? 39)%N then
              drop (position + length matched) str
                ++ GetSubstitution matched str position captures t'
            else if isDigit d then
              let one := digitVal d in
              match t' with
              | e :: t'' =>
                  let two := 10 * one + digitVal e in
                  if isDigit e && bool_decide (1 <= two <= length captures) then
                    capture captures two
                      ++ GetSubstitution matched str position captures t''
                  else if bool_decide (1 <= one <= length captures) then
                    capture captures one
                      ++ GetSubstitution matched str position captures t'
                  else
                    DOLLAR :: GetSubstitution matched str position captures t
              | [] =>
                  if bool_decide (1 <= one <= length captures) then
                    capture captures one
                  else [DOLLAR; d]
              end
            else
              DOLLAR :: GetSubstitution matched str position captures t
        | [] => [DOLLAR]
        end
  end.

(** [s.replace(pattern, replacement)] with a string pattern: the first
    occurrence only, the replacement expanded as a template. *)
Definition replace (pattern replacement s : jsstring) : jsstring :=
  match cut pattern s with
  | Some (before, after) =>
      before
        ++ GetSubstitution pattern s (length before) [] replacement
        ++ after
  | None => s
  end.

End JsString.

(** ** Regular expressions *)

Module RegExp.

Inductive regex : Type :=
| Empty                                (* the empty pattern *)
| Chr (c : N)                          (* one literal code unit *)
| Class (p : N -> bool)                (* a class escape, a bracket class or the dot *)
| Seq (r1 r2 : regex)
| Star (r : regex)                     (* r*, greedy *)
| LazyStar (r : regex)                 (* r*?, lazy *)
| Group (i : nat) (r : regex)          (* the i-th capturing parentheses, i >= 1 *)
| Bos.                                 (* ^ without the m flag *)

(** A literal run of code units. *)
Fixpoint lit (s : jsstring) : regex :=
  match s with
  | [] => Empty
  | c :: s' => Seq (Chr c) (lit s')
  end.

(** The matcher state: [endIndex] code units of the input are behind,
    [rest] lies ahead. *)
Record mstate : Type := MState {
  endIndex : nat;
  rest : jsstring;
  captures : list (option jsstring)
}.

Definition cont := mstate -> option mstate.

Definition step (x : mstate) (t : jsstring) : mstate :=
  MState (S (endIndex x)) t (captures x).

(** What was consumed between two states of one attempt. *)
Definition consumed (x y : mstate) : jsstring :=
  take (endIndex y - endIndex x) (rest x).

Definition setCapture (i : nat) (x y : mstate) : mstate :=
  MState (endIndex y) (rest y) (<[i - 1 := Some (consumed x y)]> (captures y)).

(** The rounds of a star over the matcher [body] of its operand.  A
    round that consumes nothing is rejected, so [length (rest x)] rounds
    are all there can be. *)
Fixpoint greedyLoop (body : cont -> mstate -> option mstate) (k : cont)
    (n : nat) (x : mstate) {struct n} : option mstate :=
  match n with
  | O => k x
  | S n' =>
      match body (fun y =>
                    if bool_decide (endIndex y = endIndex x) then None
                    else greedyLoop body k n' y) x with
      | Some z => Some z
      | None => k x
      end
  end.

Fixpoint lazyLoop (body : cont -> mstate -> option mstate) (k : cont)
    (n : nat) (x : mstate) {struct n} : option mstate :=
  match n with
  | O => k x
  | S n' =>
      match k x with
      | Some z => Some z
      | None =>
          body (fun y =>
                  if bool_decide (endIndex y = endIndex x) then None
                  else lazyLoop body k n' y) x
      end
  end.

(** The matcher of a pattern, given what must match after it. *)
Fixpoint m (r : regex) (k : cont) (x : mstate) {struct r} : option mstate :=
  match r with
  | Empty => k x
  | Chr c =>
      match rest x with
      | a :: t => if (a =? c)%N then k (step x t) else None
      | [] => None
      end
  | Class p =>
      match rest x with
      | a :: t => if p a then k (step x t) else None
      | [] => None
      end
  | Seq r1 r2 => m r1 (m r2 k) x
  | Star r' => greedyLoop (m r') k (length (rest x)) x
  | LazyStar r' => lazyLoop (m r') k (length (rest x)) x
  | Group i r' => m r' (fun y => k (setCapture i x y)) x
  | Bos => if bool_decide (endIndex x = 0) then k x else None
  end.

Fixpoint groups (r : regex) : nat :=
  match r with
  | Seq r1 r2 => groups r1 `max` groups r2
  | Star r' | LazyStar r' => groups r'
  | Group i r' => i `max` groups r'
  | _ => 0
  end.

(** The result of a successful match: where it starts, the matched text
    (element 0 of the JavaScript array) and the groups (elements 1..). *)
Record result : Type := Result {
  index : nat;
  matched : jsstring;
  group : list (option jsstring)
}.

(** One attempt at the start position [i], the input from there on
    being [s]. *)
Definition attempt (re : regex) (i : nat) (s : jsstring) : option result :=
  let x := MState i s (replicate (groups re) None) in
  match m re Some x with
  | Some z => Some (Result i (consumed x z) (captures z))
  | None => None
  end.

(** The leftmost start position at which the pattern matches. *)
Fixpoint execFrom (re : regex) (i : nat) (s : jsstring) : option result :=
  match attempt re i s with
  | Some r => Some r
  | None =>
      match s with
      | [] => None
      | _ :: t => execFrom re (S i) t
      end
  end.

(** [re.exec(s)], and [s.match(re)], for a pattern without the g and y
    flags. *)
Definition exec (re : regex) (s : jsstring) : option result := execFrom re 0 s.

(** [s.replace(re, replacement)] for a pattern without the g flag. *)
Definition replace (re : regex) (replacement s : jsstring) : jsstring :=
  match exec re s with
  | Some r =>
      take (index r) s
        ++ JsString.GetSubstitution (matched r) s (index r) (group r) replacement
        ++ drop (index r + length (matched r)) s
  | None => s
  end.

(** [s.replace(re, replacement)] for a pattern with the g flag: every
    match from left to right, an empty match advancing by one code unit.
    [i] code units are behind, [s] lies ahead, [whole] is the subject. *)
Fixpoint replaceFrom (n : nat) (re : regex) (replacement whole : jsstring)
    (i : nat) (s : jsstring) : jsstring :=
  match n with
  | O => s
  | S n' =>
      match execFrom re i s with
      | None => s
      | Some r =>
          let skipped := index r - i in
          let len := length (matched r) in
          take skipped s
            ++ JsString.GetSubstitution (matched r) whole (index r) (group r) replacement
            ++ (if bool_decide (len = 0) then
                  take 1 (drop skipped s)
                    ++ replaceFrom n' re replacement whole
                         (S (index r)) (drop (S skipped) s)
                else
                  replaceFrom n' re replacement whole
                    (index r + len) (drop (skipped + len) s))
      end
  end.

Definition replaceAll (re : regex) (replacement s : jsstring) : jsstring :=
  replaceFrom (S (length s)) re replacement s 0 s.

End RegExp.

Import RegExp.

(** The patterns of [main.ts]. *)

(** The pattern "/^---\n([\s\S]*?)\n---/". *)
Definition frontmatterRegex : regex :=
  Seq Bos
    (Seq (lit (u "---" ++ [LF]))
       (Seq (Group 1 (LazyStar (Class (fun c => isSpace c || negb (isSpace c)))))
          (lit (LF :: u "---")))).

(** The dot without the s flag. *)
Definition dot : regex := Class (fun c => negb (isLineTerminator c)).

(** The pattern of [existingTags]: "tags:", "\s*", "\[", a capturing group
    around ".*", and "\]". *)
Definition tagsGroupRegex : regex :=
  Seq (lit (u "tags:"))
    (Seq (Star (Class isSpace))
       (Seq (Chr LBRACKET) (Seq (Group 1 (Star dot)) (Chr RBRACKET)))).

(** The pattern "/tags:\s*\[.*\]/". *)
Definition tagsRegex : regex :=
  Seq (lit (u "tags:"))
    (Seq (Star (Class isSpace))
       (Seq (Chr LBRACKET) (Seq (Star dot) (Chr RBRACKET)))).

(** The class of the single and the double quote, used with the g flag. *)
Definition quoteRegex : regex :=
  Class (fun c => (c =? SQUOTE)%N || (c =? DQUOTE)%N).

(** The pattern "/\[.*\]/s": with the s flag the dot matches every code unit. *)
Definition arrayRegex : regex :=
  Seq (Chr LBRACKET) (Seq (Star (Class (fun _ => true))) (Chr RBRACKET)).

(** ** JSON.parse *)

Module JSON.

(** A parsed value.  A number keeps its source text: its floating-point
    value plays no part below.  An object keeps its members in source
    order, a repeated key with each of its values, where [JSON.parse]
    keeps the last one: only arrays and the strings in them are looked
    into below. *)
Inductive value : Type :=
| JNull
| JBool (b : bool)
| JNumber (lexeme : jsstring)
| JString (s : jsstring)
| JArray (items : list value)
| JObject (members : list (jsstring * value)).

(** The outcome of a parsing function: a value and the remaining input,
    a syntax error, or recursion allowance used up. *)
Inductive presult (A : Type) : Type :=
| POk (a : A) (remaining : jsstring)
| PErr
| PFuel.
Arguments POk {A} a remaining.
Arguments PErr {A}.
Arguments PFuel {A}.

Definition isJsonSpace (c : N) : bool :=
  (c =? 32)%N || (c =? 9)%N || (c =? 10)%N || (c =? 13)%N.

Fixpoint skipWs (s : jsstring) : jsstring :=
  match s with
  | c :: t => if isJsonSpace c then skipWs t else s
  | [] => []
  end.

Definition hexVal (c : N) : option N :=
  if inRange 48 57 c then Some (c - 48)%N
  else if inRange 97 102 c then Some (c - 87)%N
  else if inRange 65 70 c then Some (c - 55)%N
  else None.

Definition escape (c : N) : option N :=
  if (c =? 34)%N then Some 34%N          (* quote *)
  else if (c =? 92)%N then Some 92%N     (* backslash *)
  else if (c =? 47)%N then Some 47%N     (* slash *)
  else if (c =? 98)%N then Some 8%N      (* b *)
  else if (c =? 102)%N then Some 12%N    (* f *)
  else if (c =? 110)%N then Some 10%N    (* n *)
  else if (c =? 114)%N then Some 13%N    (* r *)
  else if (c =? 116)%N then Some 9%N     (* t *)
  else None.

(** The characters of a string after its opening quote, up to and
    including the closing quote. *)
Fixpoint stringBody (s acc : jsstring) : option (jsstring * jsstring) :=
  match s with
  | [] => None
  | c :: t =>
      if (c =? 34)%N then Some (rev acc, t)
      else if (c =? 92)%N then
        match t with
        | e :: t' =>
            if (e =? 117)%N then
              match t' with
              | h1 :: h2 :: h3 :: h4 :: t'' =>
                  match hexVal h1, hexVal h2, hexVal h3, hexVal h4 with
                  | Some a, Some b, Some c', Some d =>
                      stringBody t'' ((4096 * a + 256 * b + 16 * c' + d)%N :: acc)
                  | _, _, _, _ => None
                  end
              | _ => None
              end
            else
              match escape e with
              | Some d => stringBody t' (d :: acc)
              | None => None
              end
        | [] => None
        end
      else if (c <? 32)%N then None
      else stringBody t (c :: acc)
  end.

Fixpoint spanDigits (s : jsstring) : jsstring * jsstring :=
  match s with
  | c :: t =>
      if isDigit c then let '(ds, r) := spanDigits t in (c :: ds, r)
      else ([], s)
  | [] => ([], [])
  end.

(** A number token: sign, integer part, fraction, exponent. *)
Definition number (s : jsstring) : option (jsstring * jsstring) :=
  let '(sign, s1) :=
    match s with
    | c :: t => if (c =? 45)%N then ([c], t) else ([], s)
    | [] => ([], s)
    end in
  match s1 with
  | [] => None
  | d :: t =>
      let int :=
        if (d =? 48)%N then Some ([d], t)
        else if isDigit d then let '(ds, r) := spanDigits t in Some (d :: ds, r)
        else None in
      match int with
      | None => None
      | Some (ip, s2) =>
          let frac :=
            match s2 with
            | c :: t2 =>
                if (c =? 46)%N then
                  match spanDigits t2 with
                  | ([], _) => None
                  | (ds, r) => Some (c :: ds, r)
                  end
                else Some ([], s2)
            | [] => Some ([], s2)
            end in
          match frac with
          | None => None
          | Some (fp, s3) =>
              let exp :=
                match s3 with
                | c :: t3 =>
                    if (c =? 101)%N || (c =? 69)%N then
                      let '(sg, t4) :=
                        match t3 with
                        | g :: t5 =>
                            if (g =? 43)%N || (g =? 45)%N then ([g], t5)
                            else ([], t3)
                        | [] => ([], t3)
                        end in
                      match spanDigits t4 with
                      | ([], _) => None
                      | (ds, r) => Some (c :: sg ++ ds, r)
                      end
                    else Some ([], s3)
                | [] => Some ([], s3)
                end in
              match exp with
              | None => None
              | Some (ep, s4) => Some (sign ++ ip ++ fp ++ ep, s4)
              end
          end
      end
  end.

Definition literal (word : jsstring) (v : value) (s : jsstring) : presult value :=
  match JsString.stripPrefix word s with
  | Some r => POk v r
  | None => PErr
  end.

(** Recursive descent; [n] bounds the depth of the calls. *)
Fixpoint parseValue (n : nat) (s : jsstring) {struct n} : presult value :=
  match n with
  | O => PFuel
  | S n' =>
      match skipWs s with
      | [] => PErr
      | c :: t =>
          if (c =? 91)%N then                         (* an array *)
            match skipWs t with
            | d :: t' =>
                if (d =? 93)%N then POk (JArray []) t'
                else parseElements n' (d :: t') []
            | [] => PErr
            end
          else if (c =? 123)%N then                   (* an object *)
            match skipWs t with
            | d :: t' =>
                if (d =? 125)%N then POk (JObject []) t'
                else parseMembers n' (d :: t') []
            | [] => PErr
            end
          else if (c =? 34)%N then
            match stringBody t [] with
            | Some (str, r) => POk (JString str) r
            | None => PErr
            end
          else if (c =? 116)%N then literal (u "true") (JBool true) (c :: t)
          else if (c =? 102)%N then literal (u "false") (JBool false) (c :: t)
          else if (c =? 110)%N then literal (u "null") JNull (c :: t)
          else
            match number (c :: t) with
            | Some (lexeme, r) => POk (JNumber lexeme) r
            | None => PErr
            end
      end
  end
with parseElements (n : nat) (s : jsstring) (acc : list value) {struct n}
    : presult value :=
  match n with
  | O => PFuel
  | S n' =>
      match parseValue n' s with
      | POk v r =>
          match skipWs r with
          | c :: t =>
              if (c =? 44)%N then parseElements n' t (v :: acc)
              else if (c =? 93)%N then POk (JArray (rev (v :: acc))) t
              else PErr
          | [] => PErr
          end
      | PErr => PErr
      | PFuel => PFuel
      end
  end
with parseMembers (n : nat) (s : jsstring) (acc : list (jsstring * value))
    {struct n} : presult value :=
  match n with
  | O => PFuel
  | S n' =>
      match skipWs s with
      | q :: t =>
          if (q =? 34)%N then
            match stringBody t [] with
            | Some (key, r) =>
                match skipWs r with
                | c :: r' =>
                    if (c =? 58)%N then
                      match parseValue n' r' with
                      | POk v r'' =>
                          match skipWs r'' with
                          | e :: t' =>
                              if (e =? 44)%N then
                                parseMembers n' t' ((key, v) :: acc)
                              else if (e =? 125)%N then
                                POk (JObject (rev ((key, v) :: acc))) t'
                              else PErr
                          | [] => PErr
                          end
                      | PErr => PErr
                      | PFuel => PFuel
                      end
                    else PErr
                | [] => PErr
                end
            | None => PErr
            end
          else PErr
      | [] => PErr
      end
  end.

(** [JSON.parse(s)]: one value, then only white space.  [None] is the
    SyntaxError. *)
Definition parse (s : jsstring) : option value :=
  match parseValue (2 * length s + 1) s with
  | POk v r => match skipWs r with [] => Some v | _ :: _ => None end
  | _ => None
  end.

End JSON.

(** ** The frontmatter merger: the text computed by [applyTags] *)

Definition NL : jsstring := [LF].

(** The i-th element of a match array, i >= 1. *)
Definition groupText (r : result) (i : nat) : jsstring :=
  JsString.capture (group r) i.

(** The template literal that wraps a tag in double quotes. *)
Definition quoted (t : jsstring) : jsstring := DQUOTE :: t ++ [DQUOTE].

(** The tag field written by all three branches. *)
Definition tagField (tags : list jsstring) : jsstring :=
  u "tags: [" ++ JsString.join (u ", ") (map quoted tags) ++ u "]".

(** The spread of [new Set(xs)]: the elements in insertion order, an
    element already present being skipped. *)
Definition setOf (xs : list jsstring) : list jsstring :=
  foldl (fun seen x => if bool_decide (x ∈ seen) then seen else seen ++ [x]) [] xs.

(** The tags read from the text between the brackets: split on commas,
    each piece trimmed, every quote character removed. *)
Definition currentTags (inner : jsstring) : list jsstring :=
  map (fun t => replaceAll quoteRegex [] (JsString.trim t))
      (JsString.split [COMMA] inner).

Definition fence (frontmatter : jsstring) : jsstring :=
  u "---" ++ NL ++ frontmatter ++ NL ++ u "---".

Definition applyTagsText (content : jsstring) (tags : list jsstring) : jsstring :=
  match exec frontmatterRegex content with
  | Some mt =>
      match exec tagsGroupRegex (groupText mt 1) with
      | Some existingTags =>
          let current := currentTags (groupText existingTags 1) in
          let merged := setOf (current ++ tags) in
          let newFrontmatter :=
            RegExp.replace tagsRegex (tagField merged) (groupText mt 1) in
          JsString.replace (matched mt) (fence newFrontmatter) content
      | None =>
          let newFrontmatter := groupText mt 1 ++ NL ++ tagField tags in
          JsString.replace (matched mt) (fence newFrontmatter) content
      end
  | None =>
      let frontmatter := fence (tagField tags) ++ NL ++ NL in
      frontmatter ++ content
  end.

(** ** The patterns read as functions

    What each pattern of the source finds, written by recursion on the
    text.  The matcher is proved to agree with these readings. *)

(** The longest run of code units in the class [p] that is followed by
    the code unit [c]: the run, and the text after [c]. *)
Fixpoint greedyTo (p : N -> bool) (c : N) (s : jsstring)
    : option (jsstring * jsstring) :=
  match s with
  | [] => None
  | a :: t =>
      match (if p a then greedyTo p c t else None) with
      | Some (run, r) => Some (a :: run, r)
      | None => if (a =? c)%N then Some ([], t) else None
      end
  end.

(** The header of a note: its body and the text after the closing fence. *)
Definition frontmatter (content : jsstring) : option (jsstring * jsstring) :=
  match JsString.stripPrefix (u "---" ++ NL) content with
  | Some r => JsString.cut (NL ++ u "---") r
  | None => None
  end.

(** A tag field at the start of [s]: the white space after the colon,
    the text between the brackets, and the text after the field. *)
Definition tagsAt (s : jsstring) : option (jsstring * jsstring * jsstring) :=
  match JsString.stripPrefix (u "tags:") s with
  | Some r =>
      match greedyTo isSpace LBRACKET r with
      | Some (ws, r1) =>
          match greedyTo (fun c => negb (isLineTerminator c)) RBRACKET r1 with
          | Some (inner, after) => Some (ws, inner, after)
          | None => None
          end
      | None => None
      end
  | None => None
  end.

(** The text of a tag field as it stands in a header. *)
Definition fieldText (ws inner : jsstring) : jsstring :=
  u "tags:" ++ ws ++ [LBRACKET] ++ inner ++ [RBRACKET].

(** The leftmost tag field of a header body. *)
Definition findTags (body : jsstring)
    : option (jsstring * (jsstring * jsstring * jsstring)) :=
  JsString.scan tagsAt body.

(** A bracketed array at the start of [s]: the text between the first
    bracket and the last closing bracket, and the text after it. *)
Definition arrayAt (s : jsstring) : option (jsstring * jsstring) :=
  match s with
  | a :: t => if (a =? LBRACKET)%N then greedyTo (fun _ => true) RBRACKET t else None
  | [] => None
  end.

Definition findArray (text : jsstring) : option (jsstring * (jsstring * jsstring)) :=
  JsString.scan arrayAt text.

Definition isQuote (c : N) : bool := (c =? SQUOTE)%N || (c =? DQUOTE)%N.

Definition notLT (c : N) : bool := negb (isLineTerminator c).

(** A greedy star over a class, by recursion on the text. *)
Fixpoint greedyClass (p : N -> bool) (k : cont) (i : nat) (s : jsstring)
    (caps : list (option jsstring)) : option mstate :=
  match s with
  | a :: t =>
      if p a then
        match greedyClass p k (S i) t caps with
        | Some z => Some z
        | None => k (MState i s caps)
        end
      else k (MState i s caps)
  | [] => k (MState i [] caps)
  end.

(** A lazy star over the class of all code units. *)
Fixpoint lazyAll (k : cont) (i : nat) (s : jsstring)
    (caps : list (option jsstring)) : option mstate :=
  match k (MState i s caps) with
  | Some z => Some z
  | None =>
      match s with
      | _ :: t => lazyAll k (S i) t caps
      | [] => None
      end
  end.

(** A continuation that first reads the code unit [c]. *)
Definition reads (c : N) (k : cont)
    (k1 : nat -> jsstring -> list (option jsstring) -> option mstate) : Prop :=
  forall i s caps,
    k (MState i s caps) =
      match s with
      | a :: t => if (a =? c)%N then k1 i t caps else None
      | [] => None
      end.

(** The expansion of the replacement templates, as the two [replace]
    calls of the header branch perform it. *)
Definition expandField (body before field : jsstring) (template : jsstring) : jsstring :=
  JsString.GetSubstitution field body (length before) [] template.

Definition expandFence (content body : jsstring) (template : jsstring) : jsstring :=
  JsString.GetSubstitution (fence body) content 0 [] template.

(** One insertion into the set of [setOf]. *)
Definition addTag (seen : list jsstring) (x : jsstring) : list jsstring :=
  if bool_decide (x ∈ seen) then seen else seen ++ [x].

Definition unquoted (t : jsstring) : Prop := forall c, c ∈ t -> isQuote c = false.

(** No closing fence begins inside [body] when [after] follows its fence. *)
Definition closes (body after : jsstring) : Prop :=
  forall b1 b2, body = b1 ++ b2 -> b2 <> [] ->
    JsString.stripPrefix (NL ++ u "---") (b2 ++ (NL ++ u "---") ++ after) = None.

(** ** The notions of the claims *)

(** A tag the field syntax can carry and give back: no comma, no quote
    character, no dollar sign, no line terminator. *)
Definition plainTag (t : jsstring) : bool :=
  forallb (fun c => negb ((c =? COMMA)%N || isQuote c || (c =? DOLLAR)%N
                          || isLineTerminator c)) t.

Definition dollarFree (s : jsstring) : bool :=
  forallb (fun c => negb (c =? DOLLAR)%N) s.

(** The text before a field is empty or ends a line. *)
Definition lineStart (before : jsstring) : bool :=
  match last before with
  | Some c => isLineTerminator c
  | None => true
  end.

(** The text between the brackets of the tag field of a note, as
    [applyTags] reads it: group 1 of [existingTags]. *)
Definition existingTags (content : jsstring) : option jsstring :=
  match exec frontmatterRegex content with
  | Some mt =>
      match exec tagsGroupRegex (groupText mt 1) with
      | Some existing => Some (groupText existing 1)
      | None => None
      end
  | None => None
  end.

(** The tags of the tag field of a note. *)
Definition tagsOf (content : jsstring) : option (list jsstring) :=
  currentTags <$> existingTags content.

(** The lines of a text. *)
Definition lines (s : jsstring) : list jsstring := JsString.split NL s.

(** Following the words of the specification: the text starts with a
    delimiter line, and a later line is a delimiter line as well. *)
Definition delimited (content : jsstring) : bool :=
  match lines content with
  | first :: others =>
      eqs first (u "---") && existsb (fun l => eqs l (u "---")) others
  | [] => false
  end.

(** ** The plugin *)

(** A note is known to the host by its path. *)
Definition TFile := jsstring.

Record AITaggerSettings : Type := Settings {
  apiKey : jsstring;
  model : jsstring;
  maxTags : nat;
  autoApply : bool;
  language : jsstring
}.

Definition DEFAULT_SETTINGS : AITaggerSettings :=
  Settings [] (u "claude-haiku-4-5-20251001") 5 false (u "auto").

(** What [loadData] returns: any field may be missing. *)
Record SavedData : Type := Saved {
  savedApiKey : option jsstring;
  savedModel : option jsstring;
  savedMaxTags : option nat;
  savedAutoApply : option bool;
  savedLanguage : option jsstring
}.

Definition noData : SavedData := Saved None None None None None.

(** [Object.assign({}, DEFAULT_SETTINGS, data)] *)
Definition assign (defaults : AITaggerSettings) (data : SavedData) : AITaggerSettings :=
  Settings (default (apiKey defaults) (savedApiKey data))
           (default (model defaults) (savedModel data))
           (default (maxTags defaults) (savedMaxTags data))
           (default (autoApply defaults) (savedAutoApply data))
           (default (language defaults) (savedLanguage data)).

Definition store (s : AITaggerSettings) : SavedData :=
  Saved (Some (apiKey s)) (Some (model s)) (Some (maxTags s))
        (Some (autoApply s)) (Some (language s)).

(** The client handle of the remote provider. *)
Record Anthropic : Type := Client { clientKey : jsstring }.

Inductive ContentBlock : Type :=
| TextBlock (text : jsstring)
| OtherBlock (type : jsstring).

Record MessageRequest : Type := Request {
  reqModel : jsstring;
  reqMaxTokens : nat;
  reqContent : jsstring
}.

Inductive exn : Type :=
| ApiError (message : jsstring)
| SyntaxError
| TypeError
| HostError.

Inductive Notice : Type :=
| NoticeSetKey
| NoticeNoActiveNote
| NoticeAnalyzing
| NoticeNoTags
| NoticeError (e : exn)
| NoticeTagging (total : nat)
| NoticeProgress (processed total : nat)
| NoticeDone (processed : nat).

(** The plugin object together with the part of the host it touches. *)
Record Plugin : Type := MkPlugin {
  settings : AITaggerSettings;
  client : option Anthropic;
  saved : SavedData;
  vault : gmap TFile jsstring;
  activeView : option (option TFile);
  notices : list Notice;
  console : list (TFile * exn);
  requests : list (Anthropic * MessageRequest);
  modal : option (TFile * list JSON.value)
}.

Definition withSettings (s : AITaggerSettings) (p : Plugin) : Plugin :=
  MkPlugin s (client p) (saved p) (vault p) (activeView p) (notices p)
           (console p) (requests p) (modal p).
Definition withClient (c : option Anthropic) (p : Plugin) : Plugin :=
  MkPlugin (settings p) c (saved p) (vault p) (activeView p) (notices p)
           (console p) (requests p) (modal p).
Definition withSaved (d : SavedData) (p : Plugin) : Plugin :=
  MkPlugin (settings p) (client p) d (vault p) (activeView p) (notices p)
           (console p) (requests p) (modal p).
Definition withVault (v : gmap TFile jsstring) (p : Plugin) : Plugin :=
  MkPlugin (settings p) (client p) (saved p) v (activeView p) (notices p)
           (console p) (requests p) (modal p).
Definition withNotice (n : Notice) (p : Plugin) : Plugin :=
  MkPlugin (settings p) (client p) (saved p) (vault p) (activeView p)
           (notices p ++ [n]) (console p) (requests p) (modal p).
Definition withError (f : TFile) (e : exn) (p : Plugin) : Plugin :=
  MkPlugin (settings p) (client p) (saved p) (vault p) (activeView p)
           (notices p) (console p ++ [(f, e)]) (requests p) (modal p).
Definition withRequest (c : Anthropic) (r : MessageRequest) (p : Plugin) : Plugin :=
  MkPlugin (settings p) (client p) (saved p) (vault p) (activeView p)
           (notices p) (console p) (requests p ++ [(c, r)]) (modal p).
Definition withModal (f : TFile) (tags : list JSON.value) (p : Plugin) : Plugin :=
  MkPlugin (settings p) (client p) (saved p) (vault p) (activeView p)
           (notices p) (console p) (requests p) (Some (f, tags)).

(** Computations: the state is threaded, an exception keeps the state
    reached when it was thrown. *)
Definition M (A : Type) : Type := Plugin -> (exn + A) * Plugin.

Definition ret {A} (a : A) : M A := fun p => (inr a, p).
Definition throw {A} (e : exn) : M A := fun p => (inl e, p).
Definition bind {A B} (c : M A) (k : A -> M B) : M B :=
  fun p =>
    match c p with
    | (inr a, p') => k a p'
    | (inl e, p') => (inl e, p')
    end.
Definition tryCatch {A} (c : M A) (handler : exn -> M A) : M A :=
  fun p =>
    match c p with
    | (inr a, p') => (inr a, p')
    | (inl e, p') => handler e p'
    end.
Definition gets {A} (f : Plugin -> A) : M A := fun p => (inr (f p), p).
Definition update (f : Plugin -> Plugin) : M unit := fun p => (inr tt, f p).

Notation "'await' x <- c ;; k" := (bind c (fun x => k))
  (at level 10, x name, c at level 99, k at level 200).

Definition notice (n : Notice) : M unit := update (withNotice n).

(** [this.app.vault.read(file)] and [this.app.vault.modify(file, text)] *)
Definition vaultRead (file : TFile) : M jsstring :=
  fun p =>
    match vault p !! file with
    | Some text => (inr text, p)
    | None => (inl HostError, p)
    end.

Definition vaultModify (file : TFile) (text : jsstring) : M unit :=
  fun p =>
    match vault p !! file with
    | Some _ => (inr tt, withVault (<[file := text]> (vault p)) p)
    | None => (inl HostError, p)
    end.

(** [this.app.vault.getMarkdownFiles()], in the order of the host. *)
Definition getMarkdownFiles (p : Plugin) : list TFile := (map_to_list (vault p)).*1.

(** The decimal text of a number in a template literal, for a whole
    number below 10^21; from there on the literal is written with an
    exponent. *)
Fixpoint decimalFuel (n : nat) (k : nat) (acc : jsstring) : jsstring :=
  match n with
  | O => acc
  | S n' =>
      let acc' := (48 + N.of_nat (k mod 10))%N :: acc in
      if k / 10 =? 0 then acc' else decimalFuel n' (k / 10) acc'
  end.

Definition decimal (k : nat) : jsstring := decimalFuel (S k) k [].

Definition langHint (s : AITaggerSettings) : jsstring :=
  if eqs (language s) (u "ko") then u "Respond with Korean tags."
  else if eqs (language s) (u "en") then u "Respond with English tags."
  else u "Detect the language of the content and use the same language for tags.".

Definition prompt (s : AITaggerSettings) (truncated : jsstring) : jsstring :=
  u "Analyze this note and suggest up to " ++ decimal (maxTags s)
    ++ u " relevant tags." ++ NL
    ++ langHint s ++ NL
    ++ u "Return ONLY a JSON array of tag strings, no # prefix, lowercase, use hyphens for spaces."
    ++ NL
    ++ u "Example: [" ++ quoted (u "project-management") ++ u ", "
    ++ quoted (u "productivity") ++ u ", " ++ quoted (u "goals") ++ u "]" ++ NL
    ++ NL
    ++ u "Note content:" ++ NL
    ++ truncated.

(** A parsed value taken as the array it is declared to be. *)
Definition items (v : JSON.value) : list JSON.value :=
  match v with
  | JSON.JArray l => l
  | _ => []
  end.

(** The tags of a suggestion when every one of them is a string, as the
    declared type says. *)
Fixpoint strings (tags : list JSON.value) : option (list jsstring) :=
  match tags with
  | [] => Some []
  | JSON.JString s :: r =>
      match strings r with
      | Some l => Some (s :: l)
      | None => None
      end
  | _ :: _ => None
  end.

(** The extraction of the suggestion from the reply. *)
Definition extractTags (content : list ContentBlock) : M (list JSON.value) :=
  await text <- match content with
          | TextBlock t :: _ => ret t
          | OtherBlock _ :: _ => ret []
          | [] => throw TypeError
          end ;;
  match exec arrayRegex text with
  | None => ret []
  | Some mt =>
      match JSON.parse (matched mt) with
      | Some v => ret (items v)
      | None => throw SyntaxError
      end
  end.

(** Following the words of the specification: the first block of the
    reply that is of the text kind. *)
Fixpoint firstTextBlock (content : list ContentBlock) : option jsstring :=
  match content with
  | [] => None
  | TextBlock t :: _ => Some t
  | OtherBlock _ :: r => firstTextBlock r
  end.

(** A reply text that holds an array of [n] tags. *)
Definition tagArray (n : nat) : jsstring :=
  [LBRACKET] ++ JsString.join [COMMA] (replicate n (quoted (u "t"))) ++ [RBRACKET].

Section Plugin.

(** The remote completion endpoint: its answer to a request, given the
    number of requests made before. *)
Variable remote : nat -> Anthropic -> MessageRequest -> exn + list ContentBlock.

(** What the merger writes for tags that are not all strings: the cast
    of the parsed reply is unchecked, and the text then depends on the
    string conversion of arbitrary values. *)
Variable mergeUntyped : jsstring -> list JSON.value -> exn + jsstring.

(** [this.client.messages.create(request)] *)
Definition create (c : Anthropic) (r : MessageRequest) : M (list ContentBlock) :=
  fun p =>
    (remote (length (requests p)) c r, withRequest c r p).

Definition initClient : M unit :=
  await s <- gets settings ;;
  if bool_decide (apiKey s = []) then ret tt
  else update (withClient (Some (Client (apiKey s)))).

Definition loadSettings : M unit :=
  await d <- gets saved ;;
  update (withSettings (assign DEFAULT_SETTINGS d)).

Definition saveSettings : M unit :=
  await s <- gets settings ;;
  await _ <- update (withSaved (store s)) ;;
  initClient.

Definition onload : M unit :=
  await _ <- loadSettings ;;
  initClient.

Definition suggestTags (content : jsstring) : M (list JSON.value) :=
  await c <- gets client ;;
  match c with
  | None => ret []
  | Some c =>
      let truncated := JsString.slice0 3000 content in
      await s <- gets settings ;;
      await response <- create c (Request (model s) 200 (prompt s truncated)) ;;
      extractTags response
  end.

Definition applyTags (file : TFile) (tags : list JSON.value) : M unit :=
  await content <- vaultRead file ;;
  match strings tags with
  | Some ts => vaultModify file (applyTagsText content ts)
  | None =>
      match mergeUntyped content tags with
      | inr text => vaultModify file text
      | inl e => throw e
      end
  end.

Definition tagCurrentNote : M unit :=
  await c <- gets client ;;
  match c with
  | None => notice NoticeSetKey
  | Some _ =>
      await view <- gets activeView ;;
      match view with
      | None => notice NoticeNoActiveNote
      | Some None => ret tt
      | Some (Some file) =>
          await _ <- notice NoticeAnalyzing ;;
          tryCatch
            (await content <- vaultRead file ;;
             await tags <- suggestTags content ;;
             if length tags =? 0 then notice NoticeNoTags
             else update (withModal file tags))
            (fun error => notice (NoticeError error))
      end
  end.

(** The body of the try block for one note; the result is the new
    value of [processed]. *)
Definition tagOne (total : nat) (file : TFile) (processed : nat) : M nat :=
  await content <- vaultRead file ;;
  if length (JsString.trim content) <? 50 then ret processed
  else
    await tags <- suggestTags content ;;
    await s <- gets settings ;;
    await _ <- (if (0 <? length tags) && autoApply s then applyTags file tags
                else ret tt) ;;
    let processed := S processed in
    await _ <- (if processed mod 10 =? 0 then notice (NoticeProgress processed total)
                else ret tt) ;;
    ret processed.

Definition iteration (total : nat) (file : TFile) (processed : nat) : M nat :=
  tryCatch (tagOne total file processed)
           (fun error => await _ <- update (withError file error) ;; ret processed).

Fixpoint forEach (total : nat) (files : list TFile) (processed : nat) : M nat :=
  match files with
  | [] => ret processed
  | file :: files' =>
      await processed' <- iteration total file processed ;;
      forEach total files' processed'
  end.

Definition tagAllNotes : M unit :=
  await c <- gets client ;;
  match c with
  | None => notice NoticeSetKey
  | Some _ =>
      await files <- gets getMarkdownFiles ;;
      await _ <- notice (NoticeTagging (length files)) ;;
      await processed <- forEach (length files) files 0 ;;
      notice (NoticeDone processed)
  end.

(** The handlers of the settings tab. *)
Definition setApiKey (value : jsstring) : M unit :=
  await s <- gets settings ;;
  await _ <- update (withSettings (Settings value (model s) (maxTags s) (autoApply s) (language s))) ;;
  saveSettings.

Definition setModel (value : jsstring) : M unit :=
  await s <- gets settings ;;
  await _ <- update (withSettings (Settings (apiKey s) value (maxTags s) (autoApply s) (language s))) ;;
  saveSettings.

Definition setMaxTags (value : nat) : M unit :=
  await s <- gets settings ;;
  await _ <- update (withSettings (Settings (apiKey s) (model s) value (autoApply s) (language s))) ;;
  saveSettings.

Definition setLanguage (value : jsstring) : M unit :=
  await s <- gets settings ;;
  await _ <- update (withSettings (Settings (apiKey s) (model s) (maxTags s) (autoApply s) value)) ;;
  saveSettings.

Definition setAutoApply (value : bool) : M unit :=
  await s <- gets settings ;;
  await _ <- update (withSettings (Settings (apiKey s) (model s) (maxTags s) value (language s))) ;;
  saveSettings.

(** What the user can do once the plugin is loaded. *)
Inductive command : Type :=
| SetApiKey (value : jsstring)
| SetModel (value : jsstring)
| SetMaxTags (value : nat)
| SetLanguage (value : jsstring)
| SetAutoApply (value : bool)
| TagCurrentNote
| TagAllNotes.

Definition run (c : command) : M unit :=
  match c with
  | SetApiKey v => setApiKey v
  | SetModel v => setModel v
  | SetMaxTags v => setMaxTags v
  | SetLanguage v => setLanguage v
  | SetAutoApply v => setAutoApply v
  | TagCurrentNote => tagCurrentNote
  | TagAllNotes => tagAllNotes
  end.

(** The plugin as the host creates it, before [onload]. *)
Definition created (data : SavedData) (notes : gmap TFile jsstring)
    (view : option (option TFile)) : Plugin :=
  MkPlugin DEFAULT_SETTINGS None data notes view [] [] [] None.

(** The states the plugin can be in: after [onload], then after any
    sequence of commands. *)
Inductive reachable : Plugin -> Prop :=
| reachable_onload data notes view :
    reachable (onload (created data notes view)).2
| reachable_run p c :
    reachable p -> reachable (run c p).2.

End Plugin.

(** ** Sample notes, tags and replies *)

(** A note with a header that holds a title and the tags a and b. *)
Definition taggedNote : jsstring :=
  u "---" ++ NL ++ u "title: t" ++ NL ++ u "tags: [a, b]" ++ NL ++ u "---" ++ NL
    ++ u "Body".

(** The note of the union example: the tags a and b, quoted. *)
Definition quotedNote : jsstring :=
  u "---" ++ NL ++ u "tags: [" ++ quoted (u "a") ++ u "," ++ quoted (u "b") ++ u "]"
    ++ NL ++ u "---" ++ NL ++ u "Body".

(** A note with the single tag a. *)
Definition oneTagNote : jsstring :=
  u "---" ++ NL ++ u "tags: [a]" ++ NL ++ u "---" ++ NL ++ u "Body".

(** A note whose header holds a formula between doubled dollar signs. *)
Definition mathNote : jsstring :=
  u "---" ++ NL ++ u "math: $$x$$" ++ NL ++ u "tags: [a]" ++ NL ++ u "---" ++ NL
    ++ u "Body".

(** A text whose last line only begins with the delimiter. *)
Definition halfOpenNote : jsstring :=
  u "---" ++ NL ++ u "foo" ++ NL ++ u "---bar".

(** A note with an empty header: two delimiter lines in a row. *)
Definition emptyHeaderNote : jsstring :=
  u "---" ++ NL ++ u "---" ++ NL ++ u "Body".

(** A text with an opening delimiter and nothing that closes it. *)
Definition unclosedNote : jsstring := u "---" ++ NL ++ u "only one fence".

(** The tag made of a, a double quote and b. *)
Definition quoteTag : jsstring := u "a" ++ [DQUOTE] ++ u "b".

(** A header in which the bracket of the tag field stands on the line
    after its name, behind a line that holds the name as well. *)
Definition splitFieldNote : jsstring :=
  u "---" ++ NL ++ u "tags: [x tags:" ++ NL ++ u "[a]" ++ NL ++ u "---" ++ NL
    ++ u "Body".

(** A header with four dollar signs in a row. *)
Definition dollarsNote : jsstring :=
  u "---" ++ NL ++ u "math: $$$$" ++ NL ++ u "tags: [a]" ++ NL ++ u "---" ++ NL
    ++ u "Body".

(** A reply text with six tags. *)
Definition sixTags : jsstring :=
  u "[" ++ quoted (u "a") ++ u "," ++ quoted (u "b") ++ u "," ++ quoted (u "c")
    ++ u "," ++ quoted (u "d") ++ u "," ++ quoted (u "e") ++ u ","
    ++ quoted (u "f") ++ u "]".

(** A remote that answers every request with one text block. *)
Definition replyText (text : jsstring)
    : nat -> Anthropic -> MessageRequest -> exn + list ContentBlock :=
  fun _ _ _ => inr [TextBlock text].

(** A remote that is down. *)
Definition remoteDown : nat -> Anthropic -> MessageRequest -> exn + list ContentBlock :=
  fun _ _ _ => inl (ApiError (u "Connection error.")).

(** A merger of untyped tags that throws. *)
Definition untypedThrows : jsstring -> list JSON.value -> exn + jsstring :=
  fun _ _ => inl TypeError.

(** A reply whose first block is not of the text kind. *)
Definition thinkingReply : list ContentBlock :=
  [OtherBlock (u "thinking"); TextBlock ([LBRACKET] ++ quoted (u "a") ++ [RBRACKET])].

Definition longNote : jsstring :=
  u "A note that is long enough to be sent to the remote model.".

(** A vault with one note. *)
Definition oneNote : gmap TFile jsstring := {[ u "a.md" := longNote ]}.

(** The plugin loaded without saved data, and with a saved key and the
    automatic application of tags. *)
Definition freshPlugin : Plugin := (onload (created noData oneNote None)).2.

Definition keyedPlugin : Plugin :=
  (onload (created (Saved (Some (u "k")) None None (Some true) None) oneNote None)).2.

(** The key set, then cleared. *)
Definition clearedPlugin : Plugin :=
  (run (replyText (u "[]")) untypedThrows (SetApiKey [])
     (run (replyText (u "[]")) untypedThrows (SetApiKey (u "k")) freshPlugin).2).2.

(** ** The suggestion modal *)

Module TagSuggestionModal.

(** The modal, with the fields of its declared types; of its content
    element, the tag buttons: whether each carries the class selected. *)
Record t : Type := Make {
  tags : list jsstring;
  file : TFile;
  selected : list jsstring;
  buttons : list bool
}.

(** [this.selected.delete(tag)] *)
Definition remove (tag : jsstring) (selected : list jsstring) : list jsstring :=
  List.filter (fun x => negb (eqs x tag)) selected.

Definition constructor (tags : list jsstring) (file : TFile) : t :=
  Make tags file (setOf tags) [].

(** One button for each tag, in the order of the tags, each selected. *)
Definition onOpen (m : t) : t :=
  Make (tags m) (file m) (selected m) (map (fun _ => true) (tags m)).

(** The click on the button of the i-th tag, when the modal shows one. *)
Definition onclick (i : nat) (m : t) : t :=
  match tags m !! i, buttons m !! i with
  | Some tag, Some _ =>
      if bool_decide (tag ∈ selected m) then
        Make (tags m) (file m) (remove tag (selected m)) (<[i := false]> (buttons m))
      else
        Make (tags m) (file m) (addTag (selected m) tag) (<[i := true]> (buttons m))
  | _, _ => m
  end.

Definition onClose (m : t) : t := Make (tags m) (file m) (selected m) [].

(** The modal after it was opened and its tag buttons were clicked in
    the order [clicks]. *)
Definition clicked (tags : list jsstring) (file : TFile) (clicks : list nat) : t :=
  foldl (fun m i => onclick i m) (onOpen (constructor tags file)) clicks.

End TagSuggestionModal.

(** The notice of the apply button. *)
Inductive ModalNotice : Type :=
| NoticeApplied (size : nat).

Section Modal.

Variable mergeUntyped : jsstring -> list JSON.value -> exn + jsstring.

(** The click on the apply button: the result is the notice shown and
    the modal, closed; when [applyTags] throws there is neither. *)
Definition applyClick (m : TagSuggestionModal.t)
    : M (ModalNotice * TagSuggestionModal.t) :=
  await _ <- applyTags mergeUntyped (TagSuggestionModal.file m)
               (JSON.JString <$> TagSuggestionModal.selected m) ;;
  ret (NoticeApplied (length (TagSuggestionModal.selected m)),
       TagSuggestionModal.onClose m).

End Modal.

(** The modal that [tagCurrentNote] opened last, when the suggestion is
    made of strings, as its declared type says. *)
Definition openedModal (p : Plugin) : option TagSuggestionModal.t :=
  match modal p with
  | Some (file, tags) =>
      (fun ts => TagSuggestionModal.onOpen (TagSuggestionModal.constructor ts file))
        <$> strings tags
  | None => None
  end.

(** ** Further notions *)

(** A tag that the field syntax gives back as it was written: no comma,
    no quote character, no line terminator. *)
Definition readable (t : jsstring) : bool :=
  forallb (fun c => negb ((c =? COMMA)%N || isQuote c || isLineTerminator c)) t.

(** A string that JSON writes as itself between double quotes: no
    double quote, no backslash, no control character. *)
Definition jsonSafe (t : jsstring) : bool :=
  forallb (fun c => negb ((c =? 34)%N || (c =? 92)%N || (c <? 32)%N)) t.

(** The text of an array of such strings, written as the example of the
    prompt is. *)
Definition jsonArray (ts : list jsstring) : jsstring :=
  [LBRACKET] ++ JsString.join (u ", ") (map quoted ts) ++ [RBRACKET].

(** A note that [tagAllNotes] sends: at least 50 code units once
    trimmed. *)
Definition longEnough (content : jsstring) : bool :=
  negb (length (JsString.trim content) <? 50).

(** How many of the notes [files] of a vault are sent. *)
Definition sent (v : gmap TFile jsstring) (files : list TFile) : nat :=
  length (List.filter (fun f => from_option longEnough false (v !! f)) files).

(** The request made for a note. *)
Definition requestFor (s : AITaggerSettings) (content : jsstring) : MessageRequest :=
  Request (model s) 200 (prompt s (JsString.slice0 3000 content)).

(** The progress notices shown while the count goes from [a] to [n]:
    one for each multiple of ten reached. *)
Definition progressNotices (total a n : nat) : list Notice :=
  map (fun k => NoticeProgress (10 * k) total) (seq (S (a / 10)) (n / 10 - a / 10)).

(** ** Further sample data *)

(** What the header pattern and the field pattern find in [taggedNote]. *)
Definition taggedHeader : result :=
  Result 0 (fence (u "title: t" ++ NL ++ u "tags: [a, b]"))
         [Some (u "title: t" ++ NL ++ u "tags: [a, b]")].

Definition taggedField : result := Result 9 (u "tags: [a, b]") [Some (u "a, b")].

(** A note whose header has a title and no tag field. *)
Definition titledNote : jsstring :=
  u "---" ++ NL ++ u "title: t" ++ NL ++ u "---" ++ NL ++ u "Body".

Definition titledHeader : result := Result 0 (fence (u "title: t")) [Some (u "title: t")].

(** A note whose tag field holds nothing between its brackets. *)
Definition emptyFieldNote : jsstring :=
  u "---" ++ NL ++ u "tags: []" ++ NL ++ u "---" ++ NL ++ u "Body".

Definition emptyFieldHeader : result := Result 0 (fence (u "tags: []")) [Some (u "tags: []")].

Definition emptyField : result := Result 0 (u "tags: []") [Some []].

(** A note with a header, written with carriage return and line feed. *)
Definition crlfNote : jsstring :=
  u "---" ++ [13%N; LF] ++ u "tags: [a]" ++ [13%N; LF] ++ u "---" ++ [13%N; LF]
    ++ u "Body".

(** The plugin loaded with a saved key and the automatic application
    switched off. *)
Definition dryPlugin : Plugin :=
  (onload (created (Saved (Some (u "k")) None None None None) oneNote None)).2.

(** A reply text with an array in a sentence; the array holds a tag
    twice. *)
Definition sentenceReply : jsstring :=
  u "Here are the tags: " ++ jsonArray [u "a"; u "a"; u "b"] ++ u " (three)".

(** A reply text with two arrays. *)
Definition twoArraysReply : jsstring :=
  u "Either " ++ jsonArray [u "a"] ++ (u " or [" ++ quoted (u "b")) ++ [RBRACKET]
    ++ u ", as you like".

(** The plugin with the modal open on a suggestion that holds a tag
    twice. *)
Definition reviewingPlugin : Plugin :=
  withModal (u "a.md") (JSON.JString <$> [u "a"; u "a"; u "b"]) keyedPlugin.

(** ** The synthesized header and the batch, in the words of the specification *)

(** Following the words of the specification: the value of the tag
    field, each element double-quoted and comma-space-joined. *)
Fixpoint listed (tags : list jsstring) : jsstring :=
  match tags with
  | [] => []
  | [t] => [DQUOTE] ++ t ++ [DQUOTE]
  | t :: rest => [DQUOTE] ++ t ++ [DQUOTE] ++ u ", " ++ listed rest
  end.

(** Following the words of the specification: a header consisting
    solely of the tag field, followed by a blank line. *)
Definition synthesized (tags : list jsstring) : jsstring :=
  u "---" ++ [LF] ++ u "tags: [" ++ listed tags ++ u "]" ++ [LF] ++ u "---"
    ++ [LF] ++ [LF].

(** A note whose third line is a rule of four dashes: no later line is a
    delimiter line. *)
Definition ruleNote : jsstring :=
  u "---" ++ NL ++ u "intro" ++ NL ++ u "----" ++ NL ++ u "Body".

(** How the pipeline of one note of the batch ends. *)
Inductive outcome : Type :=
| Skipped
| Completed
| Failed (error : exn).

(** A state with other notices and another console. *)
Definition relog (N : list Notice) (C : list (TFile * exn)) (p : Plugin) : Plugin :=
  MkPlugin (settings p) (client p) (saved p) (vault p) (activeView p) N C
           (requests p) (modal p).

Section Batch.

Variable remote : nat -> Anthropic -> MessageRequest -> exn + list ContentBlock.
Variable mergeUntyped : jsstring -> list JSON.value -> exn + jsstring.

(** Following the words of the specification: the pipeline of one note.
    A note below 50 code units once trimmed is skipped; for the others
    the suggestion client is invoked, and the merger when the suggestion
    is not empty and the automatic application is on; an error of
    either, or of the reading of the note, is the failure of the note. *)
Definition pipeline (file : TFile) (p : Plugin) : outcome * Plugin :=
  match vaultRead file p with
  | (inl e, p0) => (Failed e, p0)
  | (inr content, p0) =>
      if length (JsString.trim content) <? 50 then (Skipped, p0)
      else
        match suggestTags remote content p0 with
        | (inl e, p1) => (Failed e, p1)
        | (inr tags, p1) =>
            if (0 <? length tags) && autoApply (settings p1) then
              match applyTags mergeUntyped file tags p1 with
              | (inl e, p2) => (Failed e, p2)
              | (inr _, p2) => (Completed, p2)
              end
            else (Completed, p1)
        end
  end.

(** The outcomes of the notes, in their order: each pipeline starts from
    what the ones before it left. *)
Fixpoint outcomes (files : list TFile) (p : Plugin)
    : list (TFile * outcome) * Plugin :=
  match files with
  | [] => ([], p)
  | file :: rest =>
      let '(o, p1) := pipeline file p in
      let '(os, p2) := outcomes rest p1 in
      ((file, o) :: os, p2)
  end.

End Batch.

(** The notes that failed, each with its error, and the number of notes
    whose pipeline completed. *)
Definition failures (os : list (TFile * outcome)) : list (TFile * exn) :=
  omap (fun fo => match fo.2 with Failed e => Some (fo.1, e) | _ => None end) os.

Definition completed (os : list (TFile * outcome)) : nat :=
  length (List.filter (fun fo => match fo.2 with Completed => true | _ => false end) os).

(** The request that the batch sends for a note, if it sends one. *)
Definition requestOf (c : Anthropic) (p : Plugin) (file : TFile)
    : option (Anthropic * MessageRequest) :=
  match vault p !! file with
  | Some content =>
      if longEnough content then Some (c, requestFor (settings p) content) else None
  | None => None
  end.

(** A second note, and a vault with two notes. *)
Definition otherNote : jsstring :=
  u "Another note, which is long enough to be sent as well.".

Definition twoNotes : gmap TFile jsstring :=
  {[ u "a.md" := longNote; u "b.md" := otherNote ]}.

(** A remote that is down for the first request and then answers with
    one tag. *)
Definition failsFirst : nat -> Anthropic -> MessageRequest -> exn + list ContentBlock :=
  fun n _ _ =>
    if n =? 0 then inl (ApiError (u "Connection error."))
    else inr [TextBlock (jsonArray [u "t"])].

(** The plugin loaded over the two notes, with a saved key and the
    automatic application. *)
Definition batchPlugin : Plugin :=
  (onload (created (Saved (Some (u "k")) None None (Some true) None) twoNotes None)).2.

(** * Properties *)

(** ** Strings *)

Section StringFacts.
Import JsString.

Lemma stripPrefix_Some p s r : stripPrefix p s = Some r <-> s = p ++ r.
Proof.
  revert s. induction p as [|a p IH]; intros s; simpl.
  - split; congruence.
  - destruct s as [|b s]; [split; discriminate|].
    destruct (N.eqb_spec a b) as [->|Hne].
    + rewrite IH. split; congruence.
    + split; [discriminate|]. intros [= ? ?]. congruence.
Qed.

Lemma stripPrefix_app p r : stripPrefix p (p ++ r) = Some r.
Proof. by apply stripPrefix_Some. Qed.

Lemma stripPrefix_None p s : stripPrefix p s = None <-> forall r, s <> p ++ r.
Proof.
  split.
  - intros H r Hr. apply stripPrefix_Some in Hr. congruence.
  - intros H. destruct (stripPrefix p s) as [r|] eqn:E; [|done].
    apply stripPrefix_Some in E. by destruct (H r).
Qed.

Context {A : Type} (f : jsstring -> option A).

(** [scan] stops at a position where [f] accepts, and at the first one. *)
Lemma scan_Some s b r :
  scan f s = Some (b, r) ->
  exists s', s = b ++ s' /\ f s' = Some r /\
    forall b1 b2, b = b1 ++ b2 -> b2 <> [] -> f (b2 ++ s') = None.
Proof.
  revert b. induction s as [|c s IH]; intros b; simpl.
  - destruct (f []) as [r0|] eqn:E; [|discriminate].
    intros [= <- <-]. exists []. split_and!; [done..|].
    intros b1 b2 Hb. by destruct b1, b2.
  - destruct (f (c :: s)) as [r0|] eqn:E.
    + intros [= <- <-]. exists (c :: s). split_and!; [done..|].
      intros b1 b2 Hb. by destruct b1, b2.
    + destruct (scan f s) as [[b0 r0]|] eqn:E'; [|discriminate].
      intros [= <- <-]. destruct (IH _ eq_refl) as (s' & -> & Hf & Hmin).
      exists s'. split_and!; [done..|].
      intros b1 b2 Hb Hne. destruct b1 as [|c1 b1]; simpl in Hb.
      * by subst b2.
      * injection Hb as -> ->. by eapply Hmin.
Qed.

Lemma scan_None s : scan f s = None -> forall b s', s = b ++ s' -> f s' = None.
Proof.
  induction s as [|c s IH]; simpl.
  - destruct (f []) eqn:E; [discriminate|]. intros _ b s' Heq.
    symmetry in Heq. apply app_eq_nil in Heq as [-> ->]. done.
  - destruct (f (c :: s)) eqn:E; [discriminate|].
    destruct (scan f s) as [[? ?]|] eqn:E'; [discriminate|]. intros _ b s' Heq.
    destruct b as [|c' b]; simpl in Heq; [by subst|].
    injection Heq as -> Heq. by eapply IH.
Qed.

Lemma scan_first b s' r :
  f s' = Some r ->
  (forall b1 b2, b = b1 ++ b2 -> b2 <> [] -> f (b2 ++ s') = None) ->
  scan f (b ++ s') = Some (b, r).
Proof.
  intros Hf. induction b as [|c b IH]; intros Hmin.
  - simpl. destruct s'; simpl; by rewrite Hf.
  - pose proof (Hmin [] (c :: b) eq_refl) as H0. simpl in *.
    rewrite H0 by done.
    rewrite IH; [done|]. intros b1 b2 -> Hne. by apply (Hmin (c :: b1) b2).
Qed.

End StringFacts.

Section CutFacts.
Import JsString.

Lemma cut_Some pat s b a :
  cut pat s = Some (b, a) ->
  s = b ++ pat ++ a /\
  forall b1 b2 r, b = b1 ++ b2 -> b2 <> [] -> b2 ++ pat ++ a <> pat ++ r.
Proof.
  intros H. apply scan_Some in H as (s' & -> & Hs & Hmin).
  apply stripPrefix_Some in Hs as ->. split; [done|].
  intros b1 b2 r Hb Hne. specialize (Hmin _ _ Hb Hne).
  by apply stripPrefix_None.
Qed.

Lemma cut_None pat s : cut pat s = None -> forall b a, s <> b ++ pat ++ a.
Proof.
  intros H b a Heq. pose proof (scan_None _ _ H b _ Heq) as Hn.
  by rewrite stripPrefix_app in Hn.
Qed.

Lemma cut_first pat b a :
  (forall b1 b2 r, b = b1 ++ b2 -> b2 <> [] -> b2 ++ pat ++ a <> pat ++ r) ->
  cut pat (b ++ pat ++ a) = Some (b, a).
Proof.
  intros Hmin. apply scan_first; [apply stripPrefix_app|].
  intros b1 b2 Hb Hne. apply stripPrefix_None. intros r. by eapply Hmin.
Qed.

Lemma cut_prefix pat r : cut pat (pat ++ r) = Some ([], r).
Proof. apply (scan_first _ []); [apply stripPrefix_app|]. by intros [] []. Qed.

Lemma GetSubstitution_plain matched str position caps template :
  DOLLAR ∉ template ->
  GetSubstitution matched str position caps template = template.
Proof.
  induction template as [|c t IH]; [done|]. intros Hnot.
  apply not_elem_of_cons in Hnot as [Hc Ht]. simpl.
  destruct (N.eqb_spec c DOLLAR) as [->|_]; [done|]. simpl. by rewrite IH.
Qed.

(** Replacing a prefix by a template without dollar signs. *)
Lemma replace_prefix pat repl r :
  DOLLAR ∉ repl -> replace pat repl (pat ++ r) = repl ++ r.
Proof.
  intros H. unfold replace. rewrite cut_prefix. simpl.
  by rewrite GetSubstitution_plain.
Qed.

End CutFacts.

(** ** The matcher on the shapes used by the source *)

Section MatcherFacts.

Lemma m_lit p k x :
  m (lit p) k x =
    match JsString.stripPrefix p (rest x) with
    | Some r => k (MState (endIndex x + length p) r (captures x))
    | None => None
    end.
Proof.
  revert x. induction p as [|c p IH]; intros [i s caps]; simpl.
  - by rewrite Nat.add_0_r.
  - destruct s as [|a s]; [done|]. rewrite N.eqb_sym.
    destruct (c =? a)%N; [|done]. rewrite IH. simpl.
    destruct (JsString.stripPrefix p s); [|done]. do 2 f_equal. lia.
Qed.

Lemma greedyLoop_class p k n i s caps :
  length s <= n ->
  greedyLoop (m (Class p)) k n (MState i s caps) = greedyClass p k i s caps.
Proof.
  revert i s. induction n as [|n IH]; intros i s Hn.
  - destruct s; [done|simpl in Hn; lia].
  - destruct s as [|a t]; [done|]. simpl in *.
    destruct (p a); [|done]. rewrite bool_decide_eq_false_2 by lia.
    unfold step. simpl. rewrite IH by lia. done.
Qed.

Lemma m_star_class p k x :
  m (Star (Class p)) k x = greedyClass p k (endIndex x) (rest x) (captures x).
Proof. destruct x. simpl. by apply greedyLoop_class. Qed.

Lemma greedyClass_to p c k k1 i s caps :
  reads c k k1 ->
  p c = false \/ (forall j t cs, is_Some (k1 j t cs)) ->
  greedyClass p k i s caps =
    match greedyTo p c s with
    | Some (run, r) => k1 (i + length run) r caps
    | None => None
    end.
Proof.
  intros Hk Hcase. revert i. induction s as [|a t IH]; intros i; simpl.
  - by rewrite Hk.
  - destruct (p a) eqn:Hpa.
    + rewrite IH. destruct (greedyTo p c t) as [[run r]|] eqn:E.
      * cbn [length]. rewrite <- Nat.add_succ_comm.
        destruct (k1 (S i + length run) r caps) eqn:E1; [done|].
        rewrite Hk. destruct (N.eqb_spec a c) as [->|]; [|done].
        destruct Hcase as [Hc|Hc]; [congruence|].
        destruct (Hc (S i + length run) r caps). congruence.
      * rewrite Hk. destruct (N.eqb_spec a c) as [->|]; [|done].
        simpl. by rewrite Nat.add_0_r.
    + rewrite Hk. destruct (a =? c)%N; [|done]. simpl. by rewrite Nat.add_0_r.
Qed.

Lemma reads_chr c k :
  reads c (m (Chr c) k) (fun i t caps => k (MState (S i) t caps)).
Proof. intros i s caps. simpl. by destruct s. Qed.

Lemma lazyLoop_all p k n i s caps :
  (forall c, p c = true) ->
  length s <= n ->
  lazyLoop (m (Class p)) k n (MState i s caps) = lazyAll k i s caps.
Proof.
  intros Hp. revert i s. induction n as [|n IH]; intros i s Hn.
  - destruct s; [|simpl in Hn; lia]. simpl. by destruct (k _).
  - destruct s as [|a t]; simpl in *.
    + by destruct (k _).
    + destruct (k _); [done|]. rewrite Hp, bool_decide_eq_false_2 by lia.
      unfold step. simpl. by rewrite IH by lia.
Qed.

Lemma reads_seq_chr c r k :
  reads c (m (Seq (Chr c) r) k) (fun i t caps => m r k (MState (S i) t caps)).
Proof. intros i s caps. simpl. by destruct s. Qed.

Lemma reads_group_chr c i x k :
  reads c (fun y => m (Chr c) k (setCapture i x y))
    (fun j t cs =>
       k (MState (S j) t (<[i - 1 := Some (take (j - endIndex x) (rest x))]> cs))).
Proof. intros j s caps. simpl. by destruct s. Qed.

Lemma lazyAll_scan {A} (f : jsstring -> option A) (F : nat -> A -> mstate)
    (k : cont) caps :
  (forall j s, k (MState j s caps) = F j <$> f s) ->
  forall i s,
    lazyAll k i s caps =
      (fun '(b, a) => F (i + length b) a) <$> JsString.scan f s.
Proof.
  intros Hk i s. revert i. induction s as [|c s IH]; intros i; simpl.
  - rewrite Hk. destruct (f []); simpl; [|done]. by rewrite Nat.add_0_r.
  - rewrite Hk. destruct (f (c :: s)); simpl; [by rewrite Nat.add_0_r|].
    rewrite IH. destruct (JsString.scan f s) as [[b a]|]; simpl; [|done].
    do 2 f_equal. lia.
Qed.

Lemma execFrom_scan {A} (re : regex) (f : jsstring -> option A)
    (g : nat -> A -> result) :
  (forall i s, attempt re i s = g i <$> f s) ->
  forall i s,
    execFrom re i s = (fun '(b, a) => g (i + length b) a) <$> JsString.scan f s.
Proof.
  intros Hre i s. revert i. induction s as [|c s IH]; intros i; simpl.
  - rewrite Hre. destruct (f []); simpl; by rewrite ?Nat.add_0_r.
  - rewrite Hre. destruct (f (c :: s)); simpl; [by rewrite Nat.add_0_r|].
    rewrite IH. destruct (JsString.scan f s) as [[b a]|]; simpl; [|done].
    do 2 f_equal. lia.
Qed.

End MatcherFacts.

(** ** What the patterns of the source find *)

Section GreedyTo.
Context (p : N -> bool) (c : N).

Lemma greedyTo_Some s run r :
  greedyTo p c s = Some (run, r) ->
  s = run ++ c :: r /\ forall x, x ∈ run -> p x = true.
Proof.
  revert run. induction s as [|a t IH]; intros run; simpl; [done|].
  destruct (p a) eqn:Hpa.
  - destruct (greedyTo p c t) as [[run0 r0]|] eqn:E.
    + intros [= <- <-]. destruct (IH _ eq_refl) as [-> Hall].
      split; [done|]. intros x [->|Hx]%elem_of_cons; auto.
    + destruct (N.eqb_spec a c) as [->|]; [|done]. intros [= <- <-].
      split; [done|]. by intros x Hx%elem_of_nil.
  - destruct (N.eqb_spec a c) as [->|]; [|done]. intros [= <- <-].
    split; [done|]. by intros x Hx%elem_of_nil.
Qed.

(** The search goes on behind a [c] only when [c] is in the class. *)
Lemma greedyTo_app run r :
  (forall x, x ∈ run -> p x = true) ->
  greedyTo p c (run ++ c :: r) =
    match (if p c then greedyTo p c r else None) with
    | Some (run', r') => Some (run ++ c :: run', r')
    | None => Some (run, r)
    end.
Proof.
  induction run as [|a run IH]; intros Hall; simpl.
  - rewrite N.eqb_refl. by destruct (if p c then greedyTo p c r else None) as [[? ?]|].
  - rewrite (Hall a) by left. rewrite IH by (intros; apply Hall; by right).
    by destruct (if p c then greedyTo p c r else None) as [[? ?]|].
Qed.

Lemma greedyTo_last s run r :
  greedyTo p c s = Some (run, r) -> p c = true -> greedyTo p c r = None.
Proof.
  intros H Hc. destruct (greedyTo_Some _ _ _ H) as [-> Hall].
  rewrite greedyTo_app, Hc in H by done.
  destruct (greedyTo p c r) as [[run' r']|]; [|done].
  injection H as H _. apply (f_equal length) in H.
  rewrite length_app in H. simpl in H. lia.
Qed.

Lemma greedyTo_None s :
  greedyTo p c s = None -> forall run r, (forall x, x ∈ run -> p x = true) -> s <> run ++ c :: r.
Proof.
  intros H run r Hall ->. rewrite greedyTo_app in H by done.
  by destruct (if p c then greedyTo p c r else None) as [[? ?]|].
Qed.

End GreedyTo.

Section Patterns.

Lemma m_seq r1 r2 k x : m (Seq r1 r2) k x = m r1 (m r2 k) x.
Proof. done. Qed.

Lemma m_group i r k x : m (Group i r) k x = m r (fun y => k (setCapture i x y)) x.
Proof. done. Qed.

Lemma m_bos k x : m Bos k x = if bool_decide (endIndex x = 0) then k x else None.
Proof. done. Qed.

Lemma m_lazy_class p k x :
  (forall c, p c = true) ->
  m (LazyStar (Class p)) k x = lazyAll k (endIndex x) (rest x) (captures x).
Proof. intros Hp. destruct x. simpl. by apply lazyLoop_all. Qed.

Lemma tagsAt_Some s ws inner after :
  tagsAt s = Some (ws, inner, after) ->
  s = fieldText ws inner ++ after.
Proof.
  unfold tagsAt. destruct (JsString.stripPrefix _ s) as [r|] eqn:E; [|done].
  apply stripPrefix_Some in E as ->.
  destruct (greedyTo isSpace _ r) as [[ws0 r1]|] eqn:E1; [|done].
  destruct (greedyTo _ RBRACKET r1) as [[inner0 after0]|] eqn:E2; [|done].
  intros [= <- <- <-].
  apply greedyTo_Some in E1 as [-> _]. apply greedyTo_Some in E2 as [-> _].
  unfold fieldText. by rewrite <- !app_assoc.
Qed.

Lemma attempt_tagsGroup i s :
  attempt tagsGroupRegex i s =
    (fun '(ws, inner, after) => Result i (fieldText ws inner) [Some inner])
      <$> tagsAt s.
Proof.
  unfold attempt, tagsGroupRegex. rewrite m_seq, m_lit. cbn [rest groups].
  destruct (tagsAt s) as [[[ws inner] after]|] eqn:Ht.
  - pose proof (tagsAt_Some _ _ _ _ Ht) as Hs. revert Ht. unfold tagsAt.
    destruct (JsString.stripPrefix _ s) as [r|]; [|done].
    rewrite m_seq, m_star_class. cbn [endIndex rest captures].
    erewrite greedyClass_to; [|apply reads_seq_chr|by left].
    destruct (greedyTo isSpace _ r) as [[ws0 r1]|] eqn:E1; [|done].
    rewrite m_seq, m_group. unfold dot. rewrite m_star_class. cbn [endIndex rest captures].
    erewrite greedyClass_to; [|apply reads_group_chr|by right; eauto].
    destruct (greedyTo _ RBRACKET r1) as [[inner0 after0]|] eqn:E2; [|done].
    intros [= -> -> ->]. simpl. f_equal. unfold consumed. simpl.
    apply greedyTo_Some in E2 as [-> _]. f_equal.
    + rewrite Hs. apply take_app_length'. unfold fieldText.
      rewrite !length_app. simpl. lia.
    + f_equal. f_equal. apply take_app_length'. lia.
  - revert Ht. unfold tagsAt.
    destruct (JsString.stripPrefix _ s) as [r|]; [|done].
    rewrite m_seq, m_star_class. cbn [endIndex rest captures].
    erewrite greedyClass_to; [|apply reads_seq_chr|by left].
    destruct (greedyTo isSpace _ r) as [[ws0 r1]|] eqn:E1; [|done].
    rewrite m_seq, m_group. unfold dot. rewrite m_star_class. cbn [endIndex rest captures].
    erewrite greedyClass_to; [|apply reads_group_chr|by right; eauto].
    destruct (greedyTo _ RBRACKET r1) as [[inner0 after0]|] eqn:E2; done.
Qed.

Lemma attempt_tags i s :
  attempt tagsRegex i s =
    (fun '(ws, inner, after) => Result i (fieldText ws inner) []) <$> tagsAt s.
Proof.
  unfold attempt, tagsRegex. rewrite m_seq, m_lit. cbn [rest groups].
  destruct (tagsAt s) as [[[ws inner] after]|] eqn:Ht.
  - pose proof (tagsAt_Some _ _ _ _ Ht) as Hs. revert Ht. unfold tagsAt.
    destruct (JsString.stripPrefix _ s) as [r|]; [|done].
    rewrite m_seq, m_star_class. cbn [endIndex rest captures].
    erewrite greedyClass_to; [|apply reads_seq_chr|by left].
    destruct (greedyTo isSpace _ r) as [[ws0 r1]|] eqn:E1; [|done].
    rewrite m_seq. unfold dot. rewrite m_star_class. cbn [endIndex rest captures].
    erewrite greedyClass_to; [|apply reads_chr|by right; eauto].
    destruct (greedyTo _ RBRACKET r1) as [[inner0 after0]|] eqn:E2; [|done].
    intros [= -> -> ->]. simpl. f_equal. unfold consumed. simpl. f_equal.
    rewrite Hs. apply take_app_length'. unfold fieldText.
    rewrite !length_app. simpl. lia.
  - revert Ht. unfold tagsAt.
    destruct (JsString.stripPrefix _ s) as [r|]; [|done].
    rewrite m_seq, m_star_class. cbn [endIndex rest captures].
    erewrite greedyClass_to; [|apply reads_seq_chr|by left].
    destruct (greedyTo isSpace _ r) as [[ws0 r1]|] eqn:E1; [|done].
    rewrite m_seq. unfold dot. rewrite m_star_class. cbn [endIndex rest captures].
    erewrite greedyClass_to; [|apply reads_chr|by right; eauto].
    destruct (greedyTo _ RBRACKET r1) as [[inner0 after0]|] eqn:E2; done.
Qed.

(** [existingTags]: the leftmost tag field of the header body. *)
Lemma exec_tagsGroup body :
  exec tagsGroupRegex body =
    (fun '(before, (ws, inner, after)) =>
       Result (length before) (fieldText ws inner) [Some inner])
      <$> findTags body.
Proof.
  unfold exec, findTags.
  rewrite (execFrom_scan _ tagsAt
             (fun i '(ws, inner, after) => Result i (fieldText ws inner) [Some inner])).
  - by destruct (JsString.scan tagsAt body) as [[? [[? ?] ?]]|].
  - intros i s. rewrite attempt_tagsGroup. by destruct (tagsAt s) as [[[? ?] ?]|].
Qed.

(** The pattern of the replacement finds the same field. *)
Lemma exec_tags body :
  exec tagsRegex body =
    (fun '(before, (ws, inner, after)) =>
       Result (length before) (fieldText ws inner) [])
      <$> findTags body.
Proof.
  unfold exec, findTags.
  rewrite (execFrom_scan _ tagsAt
             (fun i '(ws, inner, after) => Result i (fieldText ws inner) [])).
  - by destruct (JsString.scan tagsAt body) as [[? [[? ?] ?]]|].
  - intros i s. rewrite attempt_tags. by destruct (tagsAt s) as [[[? ?] ?]|].
Qed.

Lemma findTags_Some body before ws inner after :
  findTags body = Some (before, (ws, inner, after)) ->
  body = before ++ fieldText ws inner ++ after.
Proof.
  intros H. apply scan_Some in H as (s' & -> & Ht & _).
  by rewrite (tagsAt_Some _ _ _ _ Ht).
Qed.

(** The header pattern can only match at the start of the text. *)
Lemma attempt_frontmatter_later i s : attempt frontmatterRegex (S i) s = None.
Proof. done. Qed.

Lemma execFrom_frontmatter_later i s : execFrom frontmatterRegex (S i) s = None.
Proof.
  revert i. induction s as [|c s IH]; intros i; cbn [execFrom];
    rewrite attempt_frontmatter_later; [done|apply IH].
Qed.

Lemma attempt_frontmatter content :
  attempt frontmatterRegex 0 content =
    (fun '(body, after) => Result 0 (fence body) [Some body])
      <$> frontmatter content.
Proof.
  unfold attempt, frontmatterRegex, frontmatter. rewrite m_seq, m_bos.
  cbn [endIndex groups]. rewrite bool_decide_eq_true_2 by done.
  rewrite m_seq, m_lit. cbn [rest endIndex captures].
  destruct (JsString.stripPrefix _ content) as [r|] eqn:E; [|done].
  apply stripPrefix_Some in E as ->.
  rewrite m_seq, m_group, m_lazy_class by (intros c; by destruct (isSpace c)).
  cbn [rest endIndex captures].
  erewrite (lazyAll_scan (JsString.stripPrefix (NL ++ u "---"))
              (fun j a => MState (j + 4) a [Some (take (j - 4) r)])); cycle 1.
  { intros j s. rewrite m_lit. cbn [rest setCapture endIndex captures].
    change (LF :: u "---") with (NL ++ u "---").
    destruct (JsString.stripPrefix (NL ++ u "---") s); [|done]. simpl.
    unfold consumed. simpl. done. }
  fold (JsString.cut (NL ++ u "---") r).
  destruct (JsString.cut _ r) as [[body after]|] eqn:E; [|done].
  apply cut_Some in E as [-> _]. cbn [fmap option_fmap option_map].
  unfold consumed. cbn [endIndex rest captures]. f_equal. f_equal.
  - replace ((u "---" ++ [LF]) ++ body ++ (NL ++ u "---") ++ after)
      with (fence body ++ after) by (unfold fence; by rewrite <- !app_assoc).
    apply take_app_length'. unfold fence. rewrite !length_app. simpl. lia.
  - do 2 f_equal. apply take_app_length'. simpl. lia.
Qed.

(** [match]: the header of the note. *)
Lemma exec_frontmatter content :
  exec frontmatterRegex content =
    (fun '(body, after) => Result 0 (fence body) [Some body])
      <$> frontmatter content.
Proof.
  unfold exec. destruct content as [|c s]; cbn [execFrom].
  - done.
  - rewrite attempt_frontmatter, execFrom_frontmatter_later.
    by destruct (frontmatter (c :: s)) as [[? ?]|].
Qed.

Lemma frontmatter_Some content body after :
  frontmatter content = Some (body, after) -> content = fence body ++ after.
Proof.
  unfold frontmatter. destruct (JsString.stripPrefix _ content) as [r|] eqn:E; [|done].
  apply stripPrefix_Some in E as ->. intros [-> _]%cut_Some.
  unfold fence. by rewrite <- !app_assoc.
Qed.

End Patterns.

(** ** The merger, branch by branch *)

Section Merger.
Import JsString.

Lemma replace_tags body before ws inner post template :
  findTags body = Some (before, (ws, inner, post)) ->
  RegExp.replace tagsRegex template body =
    before ++ expandField body before (fieldText ws inner) template ++ post.
Proof.
  intros Ht. unfold RegExp.replace. rewrite exec_tags, Ht.
  cbn [fmap option_fmap option_map index matched group].
  apply findTags_Some in Ht as Hb.
  assert (take (length before) body = before) as ->
    by (rewrite Hb; apply take_app_length).
  assert (drop (length before + length (fieldText ws inner)) body = post) as ->.
  { rewrite Hb, app_assoc. apply drop_app_length'. by rewrite length_app. }
  done.
Qed.

Lemma replace_fence content body after template :
  content = fence body ++ after ->
  replace (fence body) template content = expandFence content body template ++ after.
Proof.
  intros Hc. unfold replace, expandFence.
  assert (cut (fence body) content = Some ([], after)) as ->
    by (rewrite Hc; apply cut_prefix).
  done.
Qed.

(** The text computed by [applyTags], for every note and every tag list. *)
Lemma applyTagsText_eq content tags :
  applyTagsText content tags =
    match frontmatter content with
    | Some (body, after) =>
        match findTags body with
        | Some (before, (ws, inner, post)) =>
            expandFence content body
              (fence (before
                        ++ expandField body before (fieldText ws inner)
                             (tagField (setOf (currentTags inner ++ tags)))
                        ++ post))
              ++ after
        | None =>
            expandFence content body (fence (body ++ NL ++ tagField tags)) ++ after
        end
    | None => fence (tagField tags) ++ NL ++ NL ++ content
    end.
Proof.
  unfold applyTagsText. rewrite exec_frontmatter.
  destruct (frontmatter content) as [[body after]|] eqn:Hf;
    cbn [fmap option_fmap option_map]; [|by rewrite <- !app_assoc].
  apply frontmatter_Some in Hf as Hc.
  change (groupText (Result 0 (fence body) [Some body]) 1) with body.
  cbn [matched]. rewrite exec_tagsGroup.
  destruct (findTags body) as [[before [[ws inner] post]]|] eqn:Ht;
    cbn [fmap option_fmap option_map].
  - change (groupText (Result (length before) (fieldText ws inner) [Some inner]) 1)
      with inner.
    rewrite (replace_tags _ _ _ _ _ _ Ht). by apply replace_fence.
  - by apply replace_fence.
Qed.

End Merger.

Section Pieces.
Import JsString.

(** Removing the quote characters: the global replacement is a filter. *)
Lemma attempt_quote i s :
  attempt quoteRegex i s =
    match s with
    | a :: t => if isQuote a then Some (Result i [a] []) else None
    | [] => None
    end.
Proof.
  unfold attempt, quoteRegex. simpl. destruct s as [|a t]; [done|].
  unfold isQuote. destruct (_ || _); [|done]. simpl. unfold consumed. simpl.
  by replace (S i - i) with 1 by lia.
Qed.

Lemma replaceFrom_quote n whole i s :
  length s < n ->
  replaceFrom n quoteRegex [] whole i s = List.filter (fun c => negb (isQuote c)) s.
Proof.
  revert i s. induction n as [|n IH]; intros i s Hn; [lia|].
  cbn [replaceFrom].
  rewrite (execFrom_scan _
             (fun s => match s with
                       | a :: t => if isQuote a then Some a else None
                       | [] => None
                       end)
             (fun i a => Result i [a] [])); cycle 1.
  { intros j t. rewrite attempt_quote. destruct t as [|a t]; [done|].
    by destruct (isQuote a). }
  destruct (scan _ s) as [[b a]|] eqn:E; cbn [fmap option_fmap option_map].
  - apply scan_Some in E as (s' & -> & Hs' & Hmin).
    destruct s' as [|a' t]; [done|]. destruct (isQuote a') eqn:Ha; [|done].
    injection Hs' as <-. cbn [index matched group length GetSubstitution].
    rewrite bool_decide_eq_false_2 by done.
    replace (i + length b - i) with (length b) by lia.
    rewrite take_app_length. rewrite app_nil_l.
    replace (length b + 1) with (length (b ++ [a'])) by (by rewrite length_app).
    replace (b ++ a' :: t) with ((b ++ [a']) ++ t) at 1 by (by rewrite <- app_assoc).
    rewrite drop_app_length. rewrite IH by (rewrite length_app in Hn; simpl in Hn; lia).
    rewrite List.filter_app. simpl. rewrite Ha. simpl. f_equal.
    clear -Hmin. induction b as [|c b IHb]; [done|]. simpl.
    pose proof (Hmin [] (c :: b) eq_refl) as H0. simpl in H0.
    destruct (isQuote c); [by discriminate H0|]. simpl. f_equal.
    apply IHb. intros b1 b2 -> Hne. by apply (Hmin (c :: b1) b2).
  - pose proof (scan_None _ _ E) as Hnone. clear -Hnone.
    induction s as [|c s IHs]; [done|]. simpl.
    pose proof (Hnone [] (c :: s) eq_refl) as H0. simpl in H0.
    destruct (isQuote c); [done|]. simpl. f_equal.
    apply IHs. intros b s' ->. by apply (Hnone (c :: b) s').
Qed.

Lemma replaceAll_quote s :
  replaceAll quoteRegex [] s = List.filter (fun c => negb (isQuote c)) s.
Proof. apply replaceFrom_quote. lia. Qed.

End Pieces.

Section Split.
Import JsString.

Lemma cut_shorter pat s b a :
  pat <> [] -> cut pat s = Some (b, a) -> length a < length s.
Proof.
  intros Hp [-> _]%cut_Some. rewrite !length_app.
  destruct pat; [done|]. simpl. lia.
Qed.

Lemma splitFuel_enough sep n n' s :
  sep <> [] -> length s <= n -> length s <= n' ->
  splitFuel n sep s = splitFuel n' sep s.
Proof.
  intros Hsep. revert n' s. induction n as [|n IH]; intros n' s Hn Hn'.
  - destruct s; [|simpl in Hn; lia]. destruct n'; [done|]. simpl.
    destruct sep; [done|]. done.
  - destruct n' as [|n'].
    + destruct s; [|simpl in Hn'; lia]. simpl. destruct sep; [done|]. done.
    + simpl. destruct (cut sep s) as [[b a]|] eqn:E; [|done].
      pose proof (cut_shorter _ _ _ _ Hsep E). f_equal. apply IH; lia.
Qed.

Lemma cut_comma x r : COMMA ∉ x -> cut [COMMA] (x ++ COMMA :: r) = Some (x, r).
Proof.
  intros Hx. apply (cut_first [COMMA]). intros b1 b2 r' -> Hne Heq.
  destruct b2 as [|c b2]; [done|]. simpl in Heq. injection Heq as -> _.
  apply Hx. apply elem_of_app. right. left.
Qed.

Lemma cut_no_comma x : COMMA ∉ x -> cut [COMMA] x = None.
Proof.
  intros Hx. destruct (cut [COMMA] x) as [[b a]|] eqn:E; [|done].
  apply cut_Some in E as [-> _]. destruct Hx.
  apply elem_of_app. right. left.
Qed.

Lemma split_cons x r :
  COMMA ∉ x -> split [COMMA] (x ++ COMMA :: r) = x :: split [COMMA] r.
Proof.
  intros Hx. unfold split. rewrite length_app. simpl length.
  rewrite Nat.add_succ_r. cbn [splitFuel]. rewrite cut_comma by done.
  f_equal. apply splitFuel_enough; [done|lia..].
Qed.

Lemma split_last x : COMMA ∉ x -> split [COMMA] x = [x].
Proof.
  intros Hx. unfold split. destruct (length x); [done|]. simpl.
  by rewrite cut_no_comma.
Qed.

(** The pieces of a split carry no comma and only code units of the text. *)
Lemma splitFuel_pieces n s :
  length s <= n ->
  Forall (fun piece => (COMMA ∉ piece) /\ (forall c, c ∈ piece -> c ∈ s))
         (splitFuel n [COMMA] s).
Proof.
  revert s. induction n as [|n IH]; intros s Hn.
  - destruct s; [|simpl in Hn; lia]. repeat constructor; [|done].
    by intros ?%elem_of_nil.
  - simpl. destruct (cut [COMMA] s) as [[b a]|] eqn:E.
    + pose proof (cut_shorter [COMMA] _ _ _ ltac:(done) E).
      apply cut_Some in E as [-> Hmin]. constructor.
      * split; [|intros c Hc; apply elem_of_app; by left].
        intros Hin. apply list_elem_of_split in Hin as (b1 & b2 & ->).
        by eapply (Hmin b1 (COMMA :: b2) (b2 ++ [COMMA] ++ a)).
      * eapply Forall_impl; [apply IH; lia|]. intros piece [H1 H2].
        split; [done|]. intros c Hc. apply elem_of_app. right.
        apply elem_of_app. right. auto.
    + repeat constructor; [|done]. intros Hin.
      apply list_elem_of_split in Hin as (b1 & b2 & ->).
      by apply (cut_None _ _ E b1 b2).
Qed.

Lemma split_nonempty s : split [COMMA] s <> [].
Proof.
  unfold split. destruct (length s); simpl; [done|].
  by destruct (cut [COMMA] s) as [[? ?]|].
Qed.

Lemma trimStart_head c s : isSpace c = false -> trimStart (c :: s) = c :: s.
Proof. intros H. simpl. by rewrite H. Qed.

Lemma trimStart_elem s c : c ∈ trimStart s -> c ∈ s.
Proof.
  induction s as [|a s IH]; [done|]. simpl.
  destruct (isSpace a); [|done]. intros H. right. auto.
Qed.

Lemma elem_of_rev (l : jsstring) c : c ∈ rev l <-> c ∈ l.
Proof. rewrite !list_elem_of_In. symmetry. apply in_rev. Qed.

Lemma trim_elem s c : c ∈ trim s -> c ∈ s.
Proof.
  unfold trim, trimEnd. intros H. apply (proj1 (elem_of_rev _ _)) in H.
  apply trimStart_elem in H. apply (proj1 (elem_of_rev _ _)) in H.
  by apply trimStart_elem.
Qed.

Lemma trimEnd_last c s : isSpace c = false -> trimEnd (s ++ [c]) = s ++ [c].
Proof.
  intros H. unfold trimEnd. rewrite rev_app_distr. simpl. rewrite H. simpl.
  by rewrite rev_involutive.
Qed.

Lemma trim_quoted t : trim (quoted t) = quoted t.
Proof.
  unfold trim, quoted. rewrite trimStart_head by done.
  by rewrite app_comm_cons, trimEnd_last.
Qed.

Lemma trim_space_quoted t : trim ([32%N] ++ quoted t) = quoted t.
Proof.
  unfold trim. change (trimStart ([32%N] ++ quoted t)) with (trimStart (quoted t)).
  apply trim_quoted.
Qed.

End Split.

Section SetOf.

Lemma setOf_foldl xs : setOf xs = foldl addTag [] xs.
Proof. done. Qed.

Lemma foldl_addTag_absorb seen xs :
  (forall x, x ∈ xs -> x ∈ seen) -> foldl addTag seen xs = seen.
Proof.
  induction xs as [|x xs IH]; intros H; [done|]. simpl. unfold addTag at 2.
  rewrite bool_decide_eq_true_2 by (apply H; left).
  apply IH. intros y Hy. apply H. by right.
Qed.

Lemma foldl_addTag_elem seen xs y :
  y ∈ foldl addTag seen xs <-> y ∈ seen \/ y ∈ xs.
Proof.
  revert seen. induction xs as [|x xs IH]; intros seen; simpl.
  - split; [by left|]. intros [?|?%elem_of_nil]; done.
  - rewrite IH. unfold addTag. pose proof (elem_of_nil y).
    case_bool_decide as Hx; rewrite ?elem_of_app, ?elem_of_cons; naive_solver.
Qed.

Lemma foldl_addTag_NoDup seen xs : NoDup seen -> NoDup (foldl addTag seen xs).
Proof.
  revert seen. induction xs as [|x xs IH]; intros seen Hs; [done|]. simpl.
  apply IH. unfold addTag. case_bool_decide as Hx; [done|].
  apply NoDup_app. split_and!; [done| |apply NoDup_singleton].
  intros y Hy ->%list_elem_of_singleton. done.
Qed.

Lemma foldl_addTag_fresh seen xs :
  NoDup (seen ++ xs) -> foldl addTag seen xs = seen ++ xs.
Proof.
  revert seen. induction xs as [|x xs IH]; intros seen Hnd; simpl.
  - by rewrite app_nil_r.
  - unfold addTag at 2. rewrite bool_decide_eq_false_2.
    + rewrite IH; rewrite <- app_assoc; done.
    + apply NoDup_app in Hnd as (_ & Hd & _). intros Hx. apply (Hd x Hx). left.
Qed.

Lemma setOf_NoDup xs : NoDup (setOf xs).
Proof. apply foldl_addTag_NoDup. constructor. Qed.

Lemma setOf_elem xs y : y ∈ setOf xs <-> y ∈ xs.
Proof.
  rewrite setOf_foldl, foldl_addTag_elem. pose proof (elem_of_nil y). naive_solver.
Qed.

Lemma setOf_fixed xs : NoDup xs -> setOf xs = xs.
Proof. intros H. by rewrite setOf_foldl, foldl_addTag_fresh. Qed.

(** Merging the same tags once more changes nothing. *)
Lemma setOf_again current tags :
  setOf (setOf (current ++ tags) ++ tags) = setOf (current ++ tags).
Proof.
  rewrite (setOf_foldl (_ ++ tags)), foldl_app, <- setOf_foldl.
  rewrite (setOf_fixed (setOf _)) by apply setOf_NoDup.
  apply foldl_addTag_absorb. intros x Hx. apply setOf_elem, elem_of_app. by right.
Qed.

Lemma setOf_twice tags : NoDup tags -> setOf (tags ++ tags) = tags.
Proof.
  intros H. rewrite setOf_foldl, foldl_app, <- setOf_foldl, setOf_fixed by done.
  by apply foldl_addTag_absorb.
Qed.

Lemma setOf_nil_inv xs : setOf xs = [] -> xs = [].
Proof.
  destruct xs as [|x xs]; [done|]. intros H.
  assert (x ∈ setOf (x :: xs)) as Hx by (apply setOf_elem; left).
  rewrite H in Hx. by apply elem_of_nil in Hx.
Qed.

End SetOf.

Section CurrentTags.
Import JsString.

Lemma filter_unquoted t :
  unquoted t -> List.filter (fun c => negb (isQuote c)) t = t.
Proof.
  induction t as [|a t IH]; intros H; [done|]. simpl.
  rewrite (H a) by left. simpl. f_equal. apply IH. intros c Hc. apply H. by right.
Qed.

Lemma filter_quoted t :
  unquoted t -> List.filter (fun c => negb (isQuote c)) (quoted t) = t.
Proof.
  intros H. unfold quoted. simpl. rewrite List.filter_app. simpl.
  by rewrite app_nil_r, filter_unquoted.
Qed.

Lemma elem_of_quoted t c : c ∈ quoted t <-> c = DQUOTE \/ c ∈ t.
Proof.
  unfold quoted. rewrite elem_of_cons, elem_of_app, list_elem_of_singleton. tauto.
Qed.

Lemma elem_of_join sep xs c :
  c ∈ join sep xs -> c ∈ sep \/ exists x, x ∈ xs /\ c ∈ x.
Proof.
  induction xs as [|x xs IH]; simpl; [by intros ?%elem_of_nil|].
  destruct xs as [|y xs].
  - intros H. right. exists x. split; [left|done].
  - rewrite !elem_of_app. intros [H|[H|H]].
    + right. exists x. split; [left|done].
    + by left.
    + destruct (IH H) as [?|(z & Hz & Hc)]; [by left|].
      right. exists z. split; [by right|done].
Qed.

(** Reading back what the merger wrote. *)
Lemma currentTags_join_aux lead ts :
  lead = [] \/ lead = [32%N] ->
  ts <> [] ->
  Forall (fun t => (COMMA ∉ t) /\ unquoted t) ts ->
  currentTags (lead ++ join (u ", ") (map quoted ts)) = ts.
Proof.
  intros Hlead Hne Hall. revert lead Hlead.
  induction Hall as [|t ts [Hc Hq] Hall IH]; intros lead Hlead; [done|].
  assert (COMMA ∉ lead ++ quoted t) as Hcomma.
  { rewrite elem_of_app, elem_of_quoted. intros [H|[H|H]]; [|done..].
    destruct Hlead as [->| ->]; [by apply elem_of_nil in H|].
    by apply list_elem_of_singleton in H. }
  assert (replaceAll quoteRegex [] (trim (lead ++ quoted t)) = t) as Hclean.
  { rewrite replaceAll_quote.
    destruct Hlead as [->| ->]; [rewrite app_nil_l, trim_quoted
                                |rewrite trim_space_quoted]; by apply filter_quoted. }
  destruct ts as [|t2 ts].
  - unfold currentTags. simpl map. simpl join. rewrite split_last by done.
    simpl. by rewrite Hclean.
  - unfold currentTags.
    change (join (u ", ") (map quoted (t :: t2 :: ts)))
      with (quoted t ++ COMMA :: [32%N] ++ join (u ", ") (map quoted (t2 :: ts))).
    rewrite app_assoc, split_cons by done. simpl map at 1. rewrite Hclean. f_equal.
    apply (IH ltac:(done) [32%N]). by right.
Qed.

Lemma currentTags_join ts :
  ts <> [] ->
  Forall (fun t => (COMMA ∉ t) /\ unquoted t) ts ->
  currentTags (join (u ", ") (map quoted ts)) = ts.
Proof. intros. apply (currentTags_join_aux []); auto. Qed.

Lemma currentTags_nonempty inner : currentTags inner <> [].
Proof.
  unfold currentTags. pose proof (split_nonempty inner).
  by destruct (split [COMMA] inner).
Qed.

(** The tags read from a field have no comma and no quote, and only
    code units of the field. *)
Lemma currentTags_elem inner t :
  t ∈ currentTags inner ->
  (COMMA ∉ t) /\ unquoted t /\ forall c, c ∈ t -> c ∈ inner.
Proof.
  unfold currentTags. intros (piece & -> & Hp)%list_elem_of_fmap.
  pose proof (splitFuel_pieces (length inner) inner (le_n _)) as Hall.
  rewrite Forall_forall in Hall. destruct (Hall piece Hp) as [Hc Hin].
  rewrite replaceAll_quote.
  assert (forall c, c ∈ List.filter (fun c => negb (isQuote c)) (trim piece) ->
                    isQuote c = false /\ c ∈ piece) as Hf.
  { intros c Hcin. apply list_elem_of_In, filter_In in Hcin as [Hcin Hnq].
    apply list_elem_of_In, trim_elem in Hcin. by destruct (isQuote c). }
  split_and!.
  - intros Hin'. by destruct (Hf _ Hin') as [_ ?].
  - intros c Hcin. by destruct (Hf _ Hcin).
  - intros c Hcin. apply Hin. by destruct (Hf _ Hcin).
Qed.

End CurrentTags.

Section Fields.
Import JsString.

Lemma tagField_forall (P : N -> Prop) ts :
  Forall P (u "tags: [") -> Forall P (u ", ") -> Forall P (u "]") -> P DQUOTE ->
  (forall t c, t ∈ ts -> c ∈ t -> P c) ->
  forall c, c ∈ tagField ts -> P c.
Proof.
  rewrite !Forall_forall. intros H1 H2 H3 Hq Hts c. unfold tagField.
  rewrite !elem_of_app. intros [H|[H|H]]; [by apply H1| |by apply H3].
  apply elem_of_join in H as [H|(x & Hx & Hc)]; [by apply H2|].
  apply list_elem_of_fmap in Hx as (t & -> & Ht).
  apply elem_of_quoted in Hc as [->|Hc]; eauto.
Qed.

Lemma tagField_line ts :
  (forall t c, t ∈ ts -> c ∈ t -> isLineTerminator c = false) ->
  forall c, c ∈ tagField ts -> isLineTerminator c = false.
Proof. intros H. apply tagField_forall; try done; by repeat constructor. Qed.

Lemma tagField_dollar ts :
  (forall t, t ∈ ts -> DOLLAR ∉ t) -> DOLLAR ∉ tagField ts.
Proof.
  intros H Hin.
  eapply (tagField_forall (fun c => c <> DOLLAR) ts); [..|exact Hin|done];
    try done; try by repeat constructor.
  intros t c Ht Hc ->. by apply (H t).
Qed.

Lemma tagsAt_inv s ws inner post :
  tagsAt s = Some (ws, inner, post) ->
  s = fieldText ws inner ++ post /\
  (forall c, c ∈ inner -> isLineTerminator c = false) /\
  greedyTo notLT RBRACKET post = None.
Proof.
  intros H. split; [by apply tagsAt_Some|]. revert H. unfold tagsAt.
  destruct (stripPrefix _ s) as [r|]; [|done].
  destruct (greedyTo isSpace _ r) as [[ws0 r1]|]; [|done].
  destruct (greedyTo _ RBRACKET r1) as [[inner0 post0]|] eqn:E; [|done].
  intros [= -> -> ->]. split.
  - apply greedyTo_Some in E as [_ Hall]. intros c Hc.
    specialize (Hall c Hc). by destruct (isLineTerminator c).
  - by eapply greedyTo_last.
Qed.

(** The field the merger writes is found where it stands. *)
Lemma tagsAt_tagField ts post :
  (forall c, c ∈ join (u ", ") (map quoted ts) -> isLineTerminator c = false) ->
  greedyTo notLT RBRACKET post = None ->
  tagsAt (tagField ts ++ post) = Some ([32%N], join (u ", ") (map quoted ts), post).
Proof.
  intros Hline Hpost. unfold tagsAt, tagField.
  replace ((u "tags: [" ++ join (u ", ") (map quoted ts) ++ u "]") ++ post)
    with (u "tags:" ++ 32%N :: LBRACKET
            :: (join (u ", ") (map quoted ts) ++ RBRACKET :: post))
    by (by rewrite <- !app_assoc).
  rewrite stripPrefix_app. cbn [greedyTo]. simpl isSpace. cbn [greedyTo].
  rewrite N.eqb_refl. simpl.
  change (fun c => negb (isLineTerminator c)) with notLT.
  rewrite greedyTo_app.
  - simpl. by rewrite Hpost.
  - intros x Hx. unfold notLT. by rewrite Hline.
Qed.

Lemma stripPrefix_barrier p s a y :
  a ∉ p ->
  stripPrefix p (s ++ a :: y) = (fun r => r ++ a :: y) <$> stripPrefix p s.
Proof.
  revert s. induction p as [|c p IH]; intros s Ha; [done|].
  apply not_elem_of_cons in Ha as [Hac Ha].
  destruct s as [|b s]; simpl.
  - destruct (N.eqb_spec c a); [congruence|done].
  - destruct (c =? b)%N; [by apply IH|done].
Qed.

Lemma greedyTo_barrier p c s a y :
  p a = false -> a <> c ->
  greedyTo p c (s ++ a :: y) = (fun '(run, r) => (run, r ++ a :: y)) <$> greedyTo p c s.
Proof.
  intros Hpa Hac. induction s as [|b s IH]; simpl.
  - rewrite Hpa. by destruct (N.eqb_spec a c).
  - destruct (p b).
    + rewrite IH. destruct (greedyTo p c s) as [[run r]|]; [done|].
      simpl. by destruct (b =? c)%N.
    + by destruct (b =? c)%N.
Qed.

Lemma greedyTo_snoc p c s a :
  a <> c ->
  greedyTo p c (s ++ [a]) = (fun '(run, r) => (run, r ++ [a])) <$> greedyTo p c s.
Proof.
  intros Hac. induction s as [|b s IH]; simpl.
  - destruct (p a); by destruct (N.eqb_spec a c).
  - destruct (p b).
    + rewrite IH. destruct (greedyTo p c s) as [[run r]|]; [done|].
      simpl. by destruct (b =? c)%N.
    + by destruct (b =? c)%N.
Qed.

(** A field cannot reach across a line end that is followed by the
    letter t: what is found before such a place does not depend on what
    follows it. *)
Lemma tagsAt_barrier b lt y :
  isLineTerminator lt = true ->
  tagsAt (b ++ lt :: 116%N :: y) =
    (fun '(ws, inner, after) => (ws, inner, after ++ lt :: 116%N :: y)) <$> tagsAt b.
Proof.
  intros Hlt. unfold tagsAt. rewrite stripPrefix_barrier; cycle 1.
  { simpl. rewrite !elem_of_cons, elem_of_nil.
    intros [->|[->|[->|[->|[->|[]]]]]]; done. }
  destruct (stripPrefix (u "tags:") b) as [r|]; [|done]. simpl.
  replace (r ++ lt :: 116%N :: y) with ((r ++ [lt]) ++ 116%N :: y)
    by (by rewrite <- app_assoc).
  rewrite greedyTo_barrier by done.
  rewrite greedyTo_snoc by (intros ->; done).
  destruct (greedyTo isSpace LBRACKET r) as [[ws r1]|]; [|done]. simpl.
  rewrite <- app_assoc. simpl.
  rewrite (greedyTo_barrier _ RBRACKET r1 lt); cycle 1.
  { by rewrite Hlt. }
  { intros ->. done. }
  by destruct (greedyTo _ RBRACKET r1) as [[inner after]|].
Qed.

End Fields.

Section Fences.
Import JsString.
Local Arguments N.eqb : simpl never.

Lemma stripPrefix_take p s : stripPrefix p s = None <-> take (length p) s <> p.
Proof.
  rewrite stripPrefix_None. split.
  - intros H Ht. apply (H (drop (length p) s)). rewrite <- Ht at 1.
    by rewrite take_drop.
  - intros H r ->. apply H. by rewrite take_app_length.
Qed.

(** Only the first [length p] code units matter. *)
Lemma stripPrefix_window p w y y' :
  length p <= length w ->
  stripPrefix p (w ++ y) = None -> stripPrefix p (w ++ y') = None.
Proof.
  rewrite !stripPrefix_take. intros Hlen.
  by rewrite !take_app_le by done.
Qed.

Lemma stripPrefix_head c p a s : a <> c -> stripPrefix (c :: p) (a :: s) = None.
Proof. intros H. simpl. destruct (N.eqb_spec c a); [congruence|done]. Qed.

Lemma frontmatter_closes content body after :
  frontmatter content = Some (body, after) ->
  content = fence body ++ after /\ closes body after.
Proof.
  intros H. split; [by apply frontmatter_Some|]. revert H. unfold frontmatter.
  destruct (stripPrefix _ content) as [r|]; [|done]. intros H.
  apply scan_Some in H as (s' & -> & Hs & Hmin).
  apply stripPrefix_Some in Hs as ->. intros b1 b2 Hb Hne. by eapply Hmin.
Qed.

Lemma closes_frontmatter body after :
  closes body after -> frontmatter (fence body ++ after) = Some (body, after).
Proof.
  intros Hc. unfold frontmatter, fence.
  replace ((u "---" ++ NL ++ body ++ NL ++ u "---") ++ after)
    with ((u "---" ++ NL) ++ body ++ (NL ++ u "---") ++ after)
    by (by rewrite <- !app_assoc).
  rewrite stripPrefix_app. apply scan_first; [apply stripPrefix_app|].
  intros b1 b2 Hb Hne. by eapply Hc.
Qed.

(** Rewriting the field of a header keeps its closing fence. *)
Lemma closes_field before f f' post after :
  closes (before ++ (u "tags:" ++ f) ++ post) after ->
  (forall c, c ∈ u "tags:" ++ f' -> c <> LF) ->
  closes (before ++ (u "tags:" ++ f') ++ post) after.
Proof.
  intros Hc Hline b1 b2 Heq Hne.
  apply app_eq_inv in Heq as [(k & Hb & ->)|(k & -> & Hk)].
  - destruct k as [|a k].
    + done.
    + pose proof (Hc b1 ((a :: k) ++ (u "tags:" ++ f) ++ post)) as Ho.
      rewrite Hb, <- !app_assoc in Ho. specialize (Ho eq_refl ltac:(done)).
      rewrite <- !app_assoc.
      rewrite (app_assoc (a :: k) (u "tags:")) in Ho |- *.
      eapply stripPrefix_window; [|exact Ho].
      rewrite !length_app. simpl. lia.
  - apply app_eq_inv in Hk as [(k' & Hf & ->)|(k' & -> & ->)].
    + destruct k' as [|c k'].
      * apply (Hc (before ++ u "tags:" ++ f) post); [by rewrite <- !app_assoc|done].
      * apply stripPrefix_head. apply Hline. rewrite Hf.
        apply elem_of_app. right. left.
    + apply (Hc (before ++ (u "tags:" ++ f) ++ k') b2); [|done].
      by rewrite <- !app_assoc.
Qed.

Lemma closes_append body t after :
  closes body after ->
  (forall c, c ∈ t -> c <> LF) ->
  closes (body ++ NL ++ 116%N :: t) after.
Proof.
  intros Hc Hline b1 b2 Heq Hne.
  apply app_eq_inv in Heq as [(k & Hb & ->)|(k & -> & Hk)].
  - pose proof (fun H => Hc b1 k Hb H) as Ho.
    destruct k as [|a [|b [|c [|d k]]]]; try done.
    + simpl. by destruct (_ =? a)%N.
    + simpl. destruct (_ =? a)%N; [|done]. by destruct (_ =? b)%N.
    + simpl. destruct (_ =? a)%N; [|done]. destruct (_ =? b)%N; [|done].
      by destruct (_ =? c)%N.
    + specialize (Ho ltac:(done)). simpl in Ho |- *.
      destruct (_ =? a)%N; [|done]. destruct (_ =? b)%N; [|done].
      destruct (_ =? c)%N; [|done]. by destruct (_ =? d)%N.
  - destruct k as [|a k]; simpl in Hk.
    + by subst b2.
    + injection Hk as <- Hk. destruct k as [|a k]; simpl in Hk.
      * by subst b2.
      * injection Hk as <- Hk. destruct b2 as [|c b2]; [done|].
        apply stripPrefix_head. apply Hline. rewrite Hk.
        apply elem_of_app. right. left.
Qed.

Lemma closes_line t after : (forall c, c ∈ t -> c <> LF) -> closes t after.
Proof.
  intros Hline b1 b2 -> Hne. destruct b2 as [|c b2]; [done|].
  apply stripPrefix_head. apply Hline. apply elem_of_app. right. left.
Qed.

End Fences.

Section Finding.
Import JsString.

Lemma scan_here {A} (f : jsstring -> option A) s r :
  f s = Some r -> scan f s = Some ([], r).
Proof. intros H. destruct s; simpl; by rewrite H. Qed.

Lemma snoc_inv (b2 : jsstring) : b2 <> [] -> exists b x, b2 = b ++ [x].
Proof.
  intros H. destruct (exists_last H) as (b & x & ->). eauto.
Qed.

Lemma lineStart_inv before :
  lineStart before = true ->
  before = [] \/ exists b lt, before = b ++ [lt] /\ isLineTerminator lt = true.
Proof.
  unfold lineStart. destruct before as [|a before] using rev_ind; [by left|].
  rewrite last_snoc. intros H. right. eauto.
Qed.

Lemma tagField_head ts : exists y, tagField ts = 116%N :: y.
Proof. unfold tagField. simpl. eauto. Qed.

Lemma fieldText_head ws inner : exists y, fieldText ws inner = 116%N :: y.
Proof. unfold fieldText. simpl. eauto. Qed.

Lemma findTags_inv body before ws inner post :
  findTags body = Some (before, (ws, inner, post)) ->
  body = before ++ fieldText ws inner ++ post /\
  (forall c, c ∈ inner -> isLineTerminator c = false) /\
  greedyTo notLT RBRACKET post = None /\
  forall b1 b2, before = b1 ++ b2 -> b2 <> [] ->
    tagsAt (b2 ++ fieldText ws inner ++ post) = None.
Proof.
  intros H. apply scan_Some in H as (s' & -> & Ht & Hmin).
  apply tagsAt_inv in Ht as (-> & Hline & Hpost). done.
Qed.

(** After the merge the field is found at the same place. *)
Lemma findTags_rewritten body before ws inner post ts :
  findTags body = Some (before, (ws, inner, post)) ->
  lineStart before = true ->
  (forall t c, t ∈ ts -> c ∈ t -> isLineTerminator c = false) ->
  findTags (before ++ tagField ts ++ post) =
    Some (before, ([32%N], join (u ", ") (map quoted ts), post)).
Proof.
  intros (_ & _ & Hpost & Hmin)%findTags_inv Hstart%lineStart_inv Hline.
  apply scan_first.
  - apply tagsAt_tagField; [|done]. intros c Hc.
    apply (tagField_line ts Hline). unfold tagField.
    apply elem_of_app. right. apply elem_of_app. by left.
  - intros b1 b2 -> Hne. specialize (Hmin b1 b2 eq_refl Hne).
    destruct (snoc_inv b2 Hne) as (b & x & ->).
    destruct Hstart as [Hnil|(b0 & lt & Hb & Hlt)].
    { by destruct b1, b. }
    rewrite app_assoc in Hb. apply app_inj_tail in Hb as [_ ->].
    destruct (tagField_head ts) as (y & ->).
    destruct (fieldText_head ws inner) as (y0 & Hy0). rewrite Hy0 in Hmin.
    rewrite <- app_assoc in Hmin |- *. simpl in Hmin |- *.
    rewrite tagsAt_barrier in Hmin |- * by done.
    by destruct (tagsAt b) as [[[? ?] ?]|].
Qed.

Lemma findTags_appended body ts :
  findTags body = None ->
  (forall t c, t ∈ ts -> c ∈ t -> isLineTerminator c = false) ->
  findTags (body ++ NL ++ tagField ts) =
    Some (body ++ NL, ([32%N], join (u ", ") (map quoted ts), [])).
Proof.
  intros Hnone Hline.
  replace (body ++ NL ++ tagField ts) with ((body ++ NL) ++ tagField ts ++ [])
    by (by rewrite app_nil_r, <- app_assoc).
  apply scan_first.
  - apply tagsAt_tagField; [|done]. intros c Hc.
    apply (tagField_line ts Hline). unfold tagField.
    apply elem_of_app. right. apply elem_of_app. by left.
  - intros b1 b2 Hb Hne.
    destruct (snoc_inv b2 Hne) as (b & x & ->).
    rewrite app_assoc in Hb. apply app_inj_tail in Hb as [-> <-].
    destruct (tagField_head ts) as (y & ->).
    rewrite <- app_assoc. simpl. rewrite tagsAt_barrier by done.
    by rewrite (scan_None _ _ Hnone b1 b eq_refl).
Qed.

Lemma findTags_fresh ts :
  (forall t c, t ∈ ts -> c ∈ t -> isLineTerminator c = false) ->
  findTags (tagField ts) = Some ([], ([32%N], join (u ", ") (map quoted ts), [])).
Proof.
  intros Hline. apply scan_here. rewrite <- (app_nil_r (tagField ts)).
  apply tagsAt_tagField; [|done]. intros c Hc.
  apply (tagField_line ts Hline). unfold tagField.
  apply elem_of_app. right. apply elem_of_app. by left.
Qed.

End Finding.

Section Merge.
Import JsString.

Lemma fence_dollar x : DOLLAR ∉ x -> DOLLAR ∉ fence x.
Proof.
  intros Hx. unfold fence. rewrite !elem_of_app.
  assert (DOLLAR ∉ u "---") as H1 by (by apply (bool_decide_unpack (_ ∉ _))).
  assert (DOLLAR ∉ NL) as H2 by (by apply (bool_decide_unpack (_ ∉ _))).
  tauto.
Qed.

Lemma merged_elem inner tags t :
  t ∈ setOf (currentTags inner ++ tags) ->
  t ∈ tags \/ ((COMMA ∉ t) /\ unquoted t /\ forall c, c ∈ t -> c ∈ inner).
Proof.
  rewrite setOf_elem, elem_of_app. intros [H|H]; [right|by left].
  by apply currentTags_elem.
Qed.

(** The header branch with a tag field, away from dollar signs. *)
Lemma merge_field content body after before ws inner post tags :
  frontmatter content = Some (body, after) ->
  findTags body = Some (before, (ws, inner, post)) ->
  DOLLAR ∉ body -> (forall t, t ∈ tags -> DOLLAR ∉ t) ->
  applyTagsText content tags =
    fence (before ++ tagField (setOf (currentTags inner ++ tags)) ++ post) ++ after.
Proof.
  intros Hf Ht Hbody Htags. rewrite applyTagsText_eq, Hf, Ht.
  pose proof (findTags_Some _ _ _ _ _ Ht) as Hb.
  assert (DOLLAR ∉ tagField (setOf (currentTags inner ++ tags))) as Hfield.
  { apply tagField_dollar. intros t [H|(_ & _ & H)]%merged_elem; [by apply Htags|].
    intros Hin. apply Hbody. rewrite Hb. apply elem_of_app. right.
    apply elem_of_app. left. unfold fieldText. rewrite !elem_of_app.
    right. right. right. left. by apply H. }
  unfold expandFence, expandField.
  rewrite (GetSubstitution_plain _ _ _ _ (tagField _)) by done.
  rewrite GetSubstitution_plain; [done|]. apply fence_dollar.
  rewrite !elem_of_app. intros [H|[H|H]]; [|done|];
    apply Hbody; rewrite Hb, !elem_of_app; auto.
Qed.

(** The header branch without a tag field, away from dollar signs. *)
Lemma merge_append content body after tags :
  frontmatter content = Some (body, after) ->
  findTags body = None ->
  DOLLAR ∉ body -> (forall t, t ∈ tags -> DOLLAR ∉ t) ->
  applyTagsText content tags = fence (body ++ NL ++ tagField tags) ++ after.
Proof.
  intros Hf Ht Hbody Htags. rewrite applyTagsText_eq, Hf, Ht.
  unfold expandFence. rewrite GetSubstitution_plain; [done|].
  apply fence_dollar. rewrite !elem_of_app.
  intros [H|[H|H]]; [done| |by apply (tagField_dollar tags)].
  by apply list_elem_of_singleton in H.
Qed.

Lemma existingTags_eq content :
  existingTags content =
    match frontmatter content with
    | Some (body, _) =>
        match findTags body with
        | Some (_, (_, inner, _)) => Some inner
        | None => None
        end
    | None => None
    end.
Proof.
  unfold existingTags. rewrite exec_frontmatter.
  destruct (frontmatter content) as [[body after]|]; [|done].
  cbn [fmap option_fmap option_map].
  change (groupText (Result 0 (fence body) [Some body]) 1) with body.
  rewrite exec_tagsGroup.
  by destruct (findTags body) as [[before [[ws inner] post]]|].
Qed.

Lemma tagsOf_field content body after before ws inner post :
  frontmatter content = Some (body, after) ->
  findTags body = Some (before, (ws, inner, post)) ->
  tagsOf content = Some (currentTags inner).
Proof. intros Hf Ht. unfold tagsOf. by rewrite existingTags_eq, Hf, Ht. Qed.

Lemma merge_fresh content tags :
  frontmatter content = None ->
  applyTagsText content tags = fence (tagField tags) ++ NL ++ NL ++ content.
Proof. intros Hf. by rewrite applyTagsText_eq, Hf. Qed.

End Merge.

Section Idempotence.
Import JsString.

Lemma plainTag_spec tags :
  forallb plainTag tags = true ->
  forall t, t ∈ tags -> forall c, c ∈ t ->
    c <> COMMA /\ isQuote c = false /\ c <> DOLLAR /\ isLineTerminator c = false.
Proof.
  rewrite forallb_forall. intros H t Ht%list_elem_of_In c Hc%list_elem_of_In.
  specialize (H t Ht). unfold plainTag in H. rewrite forallb_forall in H.
  specialize (H c Hc). apply negb_true_iff in H.
  repeat (apply orb_false_iff in H as [H ?]).
  split_and!; try done; intros ->; done.
Qed.

Lemma dollarFree_spec s : dollarFree s = true -> DOLLAR ∉ s.
Proof.
  unfold dollarFree. rewrite forallb_forall. intros H Hin%list_elem_of_In.
  by specialize (H _ Hin).
Qed.

Lemma plain_merged inner tags :
  (forall c, c ∈ inner -> isLineTerminator c = false) ->
  forallb plainTag tags = true ->
  forall t, t ∈ setOf (currentTags inner ++ tags) ->
    (COMMA ∉ t) /\ unquoted t /\ (forall c, c ∈ t -> isLineTerminator c = false).
Proof.
  intros Hinner Htags t [Ht|(Hc & Hq & Hin)]%merged_elem.
  - pose proof (plainTag_spec _ Htags t Ht) as Hp. clear Htags.
    rename Hp into Htags. split_and!.
    + intros Hc. by destruct (Htags _ Hc) as [? _].
    + intros c Hc. by destruct (Htags _ Hc) as (_ & ? & _).
    + intros c Hc. by destruct (Htags _ Hc) as (_ & _ & _ & ?).
  - split_and!; [done..|]. intros c Hc'. apply Hinner. by apply Hin.
Qed.

Lemma line_not_LF (t : jsstring) :
  (forall c, c ∈ t -> isLineTerminator c = false) -> forall c, c ∈ t -> c <> LF.
Proof. intros H c Hc ->. by specialize (H _ Hc). Qed.

Lemma plain_tags_line tags :
  forallb plainTag tags = true ->
  forall t c, t ∈ tags -> c ∈ t -> isLineTerminator c = false.
Proof.
  intros H t c Ht Hc. by destruct (plainTag_spec _ H t Ht c Hc) as (_ & _ & _ & ?).
Qed.

Lemma plain_tags_dollar tags :
  forallb plainTag tags = true -> forall t, t ∈ tags -> DOLLAR ∉ t.
Proof.
  intros H t Ht Hc. by destruct (plainTag_spec _ H t Ht _ Hc) as (_ & _ & ? & _).
Qed.

Lemma plain_tags_read tags :
  forallb plainTag tags = true -> tags <> [] ->
  currentTags (join (u ", ") (map quoted tags)) = tags.
Proof.
  intros H0 Hne. pose proof (plainTag_spec _ H0) as H.
  apply currentTags_join; [done|].
  rewrite Forall_forall. intros t Ht. split.
  - intros Hc. by destruct (H t Ht _ Hc) as [? _].
  - intros c Hc. by destruct (H t Ht _ Hc) as (_ & ? & _).
Qed.

(** With a tag field in the header. *)
Lemma idempotent_field content body after before ws inner post tags :
  frontmatter content = Some (body, after) ->
  findTags body = Some (before, (ws, inner, post)) ->
  DOLLAR ∉ body -> lineStart before = true -> forallb plainTag tags = true ->
  applyTagsText (applyTagsText content tags) tags = applyTagsText content tags /\
  tagsOf (applyTagsText content tags) = Some (setOf (currentTags inner ++ tags)).
Proof.
  intros Hf Ht Hbody Hstart Htags.
  pose proof (plain_tags_dollar _ Htags) as Hd.
  rewrite (merge_field _ _ _ _ _ _ _ _ Hf Ht Hbody Hd).
  set (merged := setOf (currentTags inner ++ tags)).
  destruct (findTags_inv _ _ _ _ _ Ht) as (Hb & Hinner & _ & _).
  destruct (frontmatter_closes _ _ _ Hf) as [_ Hcl].
  pose proof (plain_merged inner tags Hinner Htags) as Hm. fold merged in Hm.
  assert (forall t c, t ∈ merged -> c ∈ t -> isLineTerminator c = false) as Hline.
  { intros t c Hin Hc. by destruct (Hm t Hin) as (_ & _ & H); apply H. }
  assert (frontmatter (fence (before ++ tagField merged ++ post) ++ after)
          = Some (before ++ tagField merged ++ post, after)) as Hf'.
  { apply closes_frontmatter. rewrite Hb in Hcl.
    apply (closes_field before
             (ws ++ [LBRACKET] ++ inner ++ [RBRACKET])
             (u " [" ++ join (u ", ") (map quoted merged) ++ u "]") post after Hcl).
    apply line_not_LF. by apply (tagField_line merged). }
  pose proof (findTags_rewritten _ _ _ _ _ merged Ht Hstart Hline) as Ht'.
  assert (DOLLAR ∉ tagField merged) as Hfd.
  { apply tagField_dollar. intros t [H|(_ & _ & H)]%merged_elem; [by apply Hd|].
    intros Hin. apply Hbody. rewrite Hb, !elem_of_app. right. left.
    unfold fieldText. rewrite !elem_of_app. right. right. right. left. by apply H. }
  assert (currentTags (join (u ", ") (map quoted merged)) = merged) as Hread.
  { apply currentTags_join.
    - intros H. apply setOf_nil_inv, app_eq_nil in H as [H _].
      by apply currentTags_nonempty in H.
    - rewrite Forall_forall. intros t Hin. by destruct (Hm t Hin) as (? & ? & _). }
  split; [|by rewrite (tagsOf_field _ _ _ _ _ _ _ Hf' Ht'), Hread].
  rewrite (merge_field _ _ _ _ _ _ _ _ Hf' Ht'); [| |done]; cycle 1.
  { rewrite !elem_of_app. intros [H|[H|H]]; [|done|];
      apply Hbody; rewrite Hb, !elem_of_app; auto. }
  rewrite Hread. unfold merged. by rewrite setOf_again.
Qed.

(** With a header that has no tag field yet. *)
Lemma idempotent_append content body after tags :
  frontmatter content = Some (body, after) ->
  findTags body = None ->
  DOLLAR ∉ body -> forallb plainTag tags = true -> tags <> [] -> NoDup tags ->
  applyTagsText (applyTagsText content tags) tags = applyTagsText content tags /\
  tagsOf (applyTagsText content tags) = Some tags.
Proof.
  intros Hf Ht Hbody Htags Hne Hnd.
  pose proof (plain_tags_dollar _ Htags) as Hd.
  pose proof (plain_tags_line _ Htags) as Hline.
  rewrite (merge_append _ _ _ _ Hf Ht Hbody Hd).
  destruct (frontmatter_closes _ _ _ Hf) as [_ Hcl].
  assert (frontmatter (fence (body ++ NL ++ tagField tags) ++ after)
          = Some (body ++ NL ++ tagField tags, after)) as Hf'.
  { apply closes_frontmatter. destruct (tagField_head tags) as (y & Hy).
    rewrite Hy. apply closes_append; [done|].
    intros c Hc. apply (line_not_LF (tagField tags)).
    - by apply tagField_line.
    - rewrite Hy. by right. }
  pose proof (findTags_appended _ tags Ht Hline) as Ht'.
  split; [|by rewrite (tagsOf_field _ _ _ _ _ _ _ Hf' Ht'), plain_tags_read].
  rewrite (merge_field _ _ _ _ _ _ _ _ Hf' Ht'); [| |done]; cycle 1.
  { rewrite !elem_of_app. intros [H|[H|H]]; [done| |by apply (tagField_dollar tags)].
    by apply list_elem_of_singleton in H. }
  rewrite plain_tags_read, setOf_twice by done.
  by rewrite app_nil_r, <- app_assoc.
Qed.

(** Without a header. *)
Lemma idempotent_fresh content tags :
  frontmatter content = None ->
  forallb plainTag tags = true -> tags <> [] -> NoDup tags ->
  applyTagsText (applyTagsText content tags) tags = applyTagsText content tags /\
  tagsOf (applyTagsText content tags) = Some tags.
Proof.
  intros Hf Htags Hne Hnd.
  pose proof (plain_tags_dollar _ Htags) as Hd.
  pose proof (plain_tags_line _ Htags) as Hline.
  rewrite (merge_fresh _ _ Hf).
  assert (frontmatter (fence (tagField tags) ++ NL ++ NL ++ content)
          = Some (tagField tags, NL ++ NL ++ content)) as Hf'.
  { apply closes_frontmatter, closes_line, line_not_LF. by apply tagField_line. }
  pose proof (findTags_fresh tags Hline) as Ht'.
  split; [|by rewrite (tagsOf_field _ _ _ _ _ _ _ Hf' Ht'), plain_tags_read].
  rewrite (merge_field _ _ _ _ _ _ _ _ Hf' Ht'); [|by apply tagField_dollar|done].
  rewrite plain_tags_read, setOf_twice by done.
  by rewrite app_nil_r.
Qed.

End Idempotence.

(** ** The claims about the merger *)

Section MergerClaims.
Import JsString.

(** X1: away from dollar signs, the tag field found in the header is
    replaced where it stands by the union of its tags and the new ones;
    the rest of the header and the text after it stay as they are. *)
Lemma applyTags_union content mt existing tags :
  exec frontmatterRegex content = Some mt ->
  exec tagsGroupRegex (groupText mt 1) = Some existing ->
  dollarFree (groupText mt 1) = true ->
  forallb dollarFree tags = true ->
  let body := groupText mt 1 in
  let merged := setOf (currentTags (groupText existing 1) ++ tags) in
  applyTagsText content tags =
    fence (take (index existing) body
             ++ tagField merged
             ++ drop (index existing + length (matched existing)) body)
      ++ drop (length (matched mt)) content.
Proof.
  rewrite exec_frontmatter.
  destruct (frontmatter content) as [[body after]|] eqn:Hf; [|done].
  intros [= <-]. change (groupText (Result 0 (fence body) [Some body]) 1) with body.
  rewrite exec_tagsGroup.
  destruct (findTags body) as [[before [[ws inner] post]]|] eqn:Ht; [|done].
  intros [= <-] Hd%dollarFree_spec Htags. cbn [index matched].
  change (groupText (Result (length before) (fieldText ws inner) [Some inner]) 1)
    with inner. cbn zeta.
  rewrite (merge_field _ _ _ _ _ _ _ _ Hf Ht Hd); cycle 1.
  { intros t Ht'%list_elem_of_In. rewrite forallb_forall in Htags.
    by apply dollarFree_spec, Htags. }
  pose proof (findTags_Some _ _ _ _ _ Ht) as Hb.
  pose proof (frontmatter_Some _ _ _ Hf) as Hc.
  assert (take (length before) body = before) as ->
    by (rewrite Hb; apply take_app_length).
  assert (drop (length before + length (fieldText ws inner)) body = post) as ->.
  { rewrite Hb, app_assoc. apply drop_app_length'. by rewrite length_app. }
  assert (drop (length (fence body)) content = after) as ->
    by (rewrite Hc; apply drop_app_length).
  done.
Qed.

Lemma applyTags_union_example :
  applyTagsText quotedNote [u "b"; u "c"]
  = u "---" ++ NL
      ++ u "tags: [" ++ quoted (u "a") ++ u ", " ++ quoted (u "b") ++ u ", "
      ++ quoted (u "c") ++ u "]"
      ++ NL ++ u "---" ++ NL ++ u "Body".
Proof. by vm_compute. Qed.

(** C1, where the code departs from the claim: with the existing tag
    a and the new tag made of two dollar signs, the union holds the new
    tag as supplied, yet the field written by [applyTags] holds a tag
    made of a single dollar sign. *)
Theorem applyTags_union_dollar :
  tagsOf oneTagNote = Some [u "a"] /\
  setOf ([u "a"] ++ [u "$$"]) = [u "a"; u "$$"] /\
  applyTagsText oneTagNote [u "$$"] =
    u "---" ++ NL ++ u "tags: [" ++ quoted (u "a") ++ u ", " ++ quoted (u "$") ++ u "]"
      ++ NL ++ u "---" ++ NL ++ u "Body" /\
  tagsOf (applyTagsText oneTagNote [u "$$"]) = Some [u "a"; u "$"].
Proof. by vm_compute. Qed.

(** The text after the header is never touched. *)
Lemma applyTags_after content mt tags :
  exec frontmatterRegex content = Some mt ->
  exists header,
    applyTagsText content tags = header ++ drop (length (matched mt)) content.
Proof.
  rewrite exec_frontmatter.
  destruct (frontmatter content) as [[body after]|] eqn:Hf; [|done].
  intros [= <-]. cbn [matched]. pose proof (frontmatter_Some _ _ _ Hf) as Hc.
  rewrite applyTagsText_eq, Hf.
  assert (drop (length (fence body)) content = after) as ->
    by (rewrite Hc; apply drop_app_length).
  destruct (findTags body) as [[before [[ws inner] post]]|]; eauto.
Qed.

(** X2: away from dollar signs, a header without a tag field keeps its
    body and gains the field as its last line. *)
Lemma applyTags_append content mt tags :
  exec frontmatterRegex content = Some mt ->
  exec tagsGroupRegex (groupText mt 1) = None ->
  dollarFree (groupText mt 1) = true ->
  forallb dollarFree tags = true ->
  applyTagsText content tags =
    fence (groupText mt 1 ++ NL ++ tagField tags)
      ++ drop (length (matched mt)) content.
Proof.
  rewrite exec_frontmatter.
  destruct (frontmatter content) as [[body after]|] eqn:Hf; [|done].
  intros [= <-]. change (groupText (Result 0 (fence body) [Some body]) 1) with body.
  rewrite exec_tagsGroup.
  destruct (findTags body) as [[before [[ws inner] post]]|] eqn:Ht; [done|].
  intros _ Hd%dollarFree_spec Htags. cbn [matched].
  rewrite (merge_append _ _ _ _ Hf Ht Hd); cycle 1.
  { intros t Ht'%list_elem_of_In. rewrite forallb_forall in Htags.
    by apply dollarFree_spec, Htags. }
  pose proof (frontmatter_Some _ _ _ Hf) as Hc.
  assert (drop (length (fence body)) content = after) as ->
    by (rewrite Hc; apply drop_app_length).
  done.
Qed.

(** C4, where the code departs from the claim: a header field that
    holds two dollar signs in a row comes out of a tag merge with a
    single one. *)
Theorem applyTags_field_altered :
  applyTagsText mathNote [u "b"]
  = u "---" ++ NL ++ u "math: $x$" ++ NL
      ++ u "tags: [" ++ quoted (u "a") ++ u ", " ++ quoted (u "b") ++ u "]"
      ++ NL ++ u "---" ++ NL ++ u "Body".
Proof. by vm_compute. Qed.

Lemma join_listed tags : join (u ", ") (map quoted tags) = listed tags.
Proof.
  induction tags as [|t [|t2 tags] IH]; [done| |].
  - cbn. unfold quoted. done.
  - change (join (u ", ") (map quoted (t :: t2 :: tags)))
      with (quoted t ++ u ", " ++ join (u ", ") (map quoted (t2 :: tags))).
    rewrite IH.
    change (listed (t :: t2 :: tags))
      with ([DQUOTE] ++ t ++ [DQUOTE] ++ u ", " ++ listed (t2 :: tags)).
    unfold quoted. cbn [app]. by rewrite <- app_assoc.
Qed.

(** C3 as the claim states it fails: a note whose opening delimiter line
    is followed by no other delimiter line has no header, yet a line
    that only begins with three dashes closes one for [applyTags], which
    then writes the tag field into the note instead of putting a header
    in front of it. *)
Lemma applyTags_edits_unclosed_header :
  delimited ruleNote = false /\
  applyTagsText ruleNote [u "x"]
    = u "---" ++ [LF] ++ u "intro" ++ [LF]
        ++ u "tags: [" ++ [DQUOTE] ++ u "x" ++ [DQUOTE] ++ u "]" ++ [LF]
        ++ u "----" ++ [LF] ++ u "Body" /\
  applyTagsText ruleNote [u "x"] <> synthesized [u "x"] ++ ruleNote.
Proof. by vm_compute. Qed.

(** C3, as amended: for every note that is not made of three dashes and
    a line feed, a body, a line feed and three dashes, and then any
    text, [applyTags] puts in front of the note a header made of the tag
    field alone, the tags double-quoted and joined by comma and space,
    then an empty line, and keeps the whole of the note behind it; with
    the one tag x the result begins with the four lines of the claim. *)
Theorem applyTags_no_header content tags :
  (forall body after,
     content <> u "---" ++ [LF] ++ body ++ [LF] ++ u "---" ++ after) ->
  applyTagsText content tags = synthesized tags ++ content /\
  applyTagsText content [u "x"]
    = u "---" ++ [LF] ++ u "tags: [" ++ [DQUOTE] ++ u "x" ++ [DQUOTE] ++ u "]" ++ [LF]
        ++ u "---" ++ [LF] ++ [LF] ++ content.
Proof.
  intros Hno.
  assert (frontmatter content = None) as Hf.
  { destruct (frontmatter content) as [[body after]|] eqn:Hf; [|done].
    apply frontmatter_Some in Hf. destruct (Hno body after).
    rewrite Hf. unfold fence, NL. by rewrite <- !app_assoc. }
  assert (forall ts, applyTagsText content ts = synthesized ts ++ content) as Hall.
  { intros ts. rewrite (merge_fresh _ _ Hf). unfold fence, tagField, synthesized, NL.
    rewrite join_listed. by rewrite <- !app_assoc. }
  split; [apply Hall|]. rewrite Hall. reflexivity.
Qed.

Lemma applyTags_no_header_witness :
  applyTagsText (u "Some text") [u "x"; u "y"]
    = synthesized [u "x"; u "y"] ++ u "Some text" /\
  applyTagsText (u "Some text") [u "x"]
    = u "---" ++ [LF] ++ u "tags: [" ++ [DQUOTE] ++ u "x" ++ [DQUOTE] ++ u "]" ++ [LF]
        ++ u "---" ++ [LF] ++ [LF] ++ u "Some text".
Proof.
  apply (applyTags_no_header (u "Some text") [u "x"; u "y"]).
  intros body after H. discriminate H.
Defined.

(** C2 as the claim states it fails: with the one tag made of a, a
    double quote and b, a note without header has the tag field ab
    after one application and the tag field ab, ab after two. *)
Lemma applyTags_twice_differs :
  tagsOf (applyTagsText (u "Body") [quoteTag]) = Some [u "ab"] /\
  tagsOf (applyTagsText (applyTagsText (u "Body") [quoteTag]) [quoteTag])
    = Some [u "ab"; u "ab"] /\
  tagsOf (applyTagsText (applyTagsText (u "Body") [quoteTag]) [quoteTag])
    <> tagsOf (applyTagsText (u "Body") [quoteTag]).
Proof. by vm_compute. Qed.

(** C2, as amended: let every tag be free of commas, quote characters,
    dollar signs and line terminators; let the header of the note, if
    it has one, hold no dollar sign and let its tag field, if it has
    one, start a line; let the tag list be non-empty and without
    repetition when the note has no tag field yet.  Then a second
    application with the same tags leaves the note as the first one
    made it: the tag field is the same, and it holds no tag twice. *)
Theorem applyTags_idempotent content tags :
  forallb plainTag tags = true ->
  match exec frontmatterRegex content with
  | Some mt =>
      dollarFree (groupText mt 1) = true /\
      match exec tagsGroupRegex (groupText mt 1) with
      | Some existing => lineStart (take (index existing) (groupText mt 1)) = true
      | None => tags <> [] /\ NoDup tags
      end
  | None => tags <> [] /\ NoDup tags
  end ->
  applyTagsText (applyTagsText content tags) tags = applyTagsText content tags /\
  exists ts,
    tagsOf (applyTagsText content tags) = Some ts /\ NoDup ts /\
    tagsOf (applyTagsText (applyTagsText content tags) tags) = Some ts.
Proof.
  intros Htags. rewrite exec_frontmatter.
  destruct (frontmatter content) as [[body after]|] eqn:Hf;
    cbn [fmap option_fmap option_map].
  - change (groupText (Result 0 (fence body) [Some body]) 1) with body.
    rewrite exec_tagsGroup. intros [Hd%dollarFree_spec H].
    destruct (findTags body) as [[before [[ws inner] post]]|] eqn:Ht;
      cbn [fmap option_fmap option_map index] in H.
    + assert (take (length before) body = before) as Hb.
      { rewrite (findTags_Some _ _ _ _ _ Ht). apply take_app_length. }
      rewrite Hb in H.
      destruct (idempotent_field _ _ _ _ _ _ _ _ Hf Ht Hd H Htags) as [H1 H2].
      split; [done|]. eexists. rewrite H1. split_and!; [done| |done].
      apply setOf_NoDup.
    + destruct H as [Hne Hnd].
      destruct (idempotent_append _ _ _ _ Hf Ht Hd Htags Hne Hnd) as [H1 H2].
      split; [done|]. exists tags. by rewrite H1.
  - intros [Hne Hnd].
    destruct (idempotent_fresh _ _ Hf Htags Hne Hnd) as [H1 H2].
    split; [done|]. exists tags. by rewrite H1.
Qed.

Lemma applyTags_idempotent_witness :
  applyTagsText (applyTagsText taggedNote [u "b"; u "c"]) [u "b"; u "c"]
    = applyTagsText taggedNote [u "b"; u "c"] /\
  exists ts,
    tagsOf (applyTagsText taggedNote [u "b"; u "c"]) = Some ts /\ NoDup ts /\
    tagsOf (applyTagsText (applyTagsText taggedNote [u "b"; u "c"]) [u "b"; u "c"])
      = Some ts.
Proof.
  apply (applyTags_idempotent taggedNote [u "b"; u "c"]).
  - reflexivity.
  - vm_compute. split; reflexivity.
Defined.

(** Each hypothesis of the idempotence theorem is needed.  A tag with a
    comma is read back as two tags. *)
Example twice_differs_on_comma :
  tagsOf (applyTagsText oneTagNote [u "a,b"]) = Some [u "a"; u "a"; u "b"] /\
  applyTagsText (applyTagsText oneTagNote [u "a,b"]) [u "a,b"]
    <> applyTagsText oneTagNote [u "a,b"].
Proof. by vm_compute. Qed.

(** A tag with a dollar pattern is written as another tag, so the second
    application adds it again. *)
Example twice_differs_on_dollar_tag :
  tagsOf (applyTagsText oneTagNote [u "$$"]) = Some [u "a"; u "$"] /\
  tagsOf (applyTagsText (applyTagsText oneTagNote [u "$$"]) [u "$$"])
    = Some [u "a"; u "$"; u "$"].
Proof. by vm_compute. Qed.

(** Dollar signs of the header are halved by each application. *)
Example twice_differs_on_dollar_header :
  applyTagsText dollarsNote [u "a"]
    = u "---" ++ NL ++ u "math: $$" ++ NL ++ tagField [u "a"] ++ NL ++ u "---" ++ NL
        ++ u "Body" /\
  applyTagsText (applyTagsText dollarsNote [u "a"]) [u "a"]
    = u "---" ++ NL ++ u "math: $" ++ NL ++ tagField [u "a"] ++ NL ++ u "---" ++ NL
        ++ u "Body".
Proof. by vm_compute. Qed.

(** A field that does not start its line: once rewritten on one line, an
    earlier occurrence of the name starts a longer field. *)
Example twice_differs_off_line_start :
  tagsOf (applyTagsText splitFieldNote [u "b"]) = Some [u "x tags: [a"; u "b"] /\
  applyTagsText (applyTagsText splitFieldNote [u "b"]) [u "b"]
    <> applyTagsText splitFieldNote [u "b"].
Proof. by vm_compute. Qed.

(** A new field is written as the tags are given: a repeated tag is
    written twice and merged by the second application only, and the
    empty field is read back as one empty tag. *)
Example twice_differs_on_repeated_tags :
  tagsOf (applyTagsText (u "Body") [u "x"; u "x"]) = Some [u "x"; u "x"] /\
  tagsOf (applyTagsText (applyTagsText (u "Body") [u "x"; u "x"]) [u "x"; u "x"])
    = Some [u "x"].
Proof. by vm_compute. Qed.

Example twice_differs_on_no_tags :
  tagsOf (applyTagsText (u "Body") []) = Some [[]] /\
  applyTagsText (applyTagsText (u "Body") []) []
    = fence (u "tags: [" ++ quoted [] ++ u "]") ++ NL ++ NL ++ u "Body" /\
  applyTagsText (u "Body") [] = fence (u "tags: []") ++ NL ++ NL ++ u "Body".
Proof. by vm_compute. Qed.

(** C5 as the claim states it fails, both ways: a closing line that
    only begins with the delimiter closes a header for [applyTags],
    which then edits it instead of putting a new header in front; and an
    empty header, two delimiter lines in a row, is not recognized. *)
Lemma header_not_by_lines :
  (delimited halfOpenNote = false /\
   is_Some (exec frontmatterRegex halfOpenNote) /\
   applyTagsText halfOpenNote [u "x"]
     = u "---" ++ NL ++ u "foo" ++ NL ++ u "tags: [" ++ quoted (u "x") ++ u "]" ++ NL
         ++ u "---bar") /\
  (delimited emptyHeaderNote = true /\ exec frontmatterRegex emptyHeaderNote = None).
Proof. vm_compute. split_and!; by eauto. Qed.

(** C5, as amended: [applyTags] recognizes a header exactly when the
    text is the three dashes and a line feed, a body, a line feed and
    three dashes, and then any text at all, on the same line or not; the
    body is the shortest one possible; and when the text is not of this
    form a new header is put in front of it. *)
Theorem header_recognized content :
  (is_Some (exec frontmatterRegex content) <->
     exists body after, content = fence body ++ after) /\
  (forall mt, exec frontmatterRegex content = Some mt ->
     index mt = 0 /\ matched mt = fence (groupText mt 1) /\
     exists after,
       content = fence (groupText mt 1) ++ after /\ closes (groupText mt 1) after) /\
  (forall tags, (forall body after, content <> fence body ++ after) ->
     applyTagsText content tags = fence (tagField tags) ++ NL ++ NL ++ content).
Proof.
  rewrite exec_frontmatter. split_and!.
  - split.
    + destruct (frontmatter content) as [[body after]|] eqn:Hf; [|by intros [? ?]].
      intros _. exists body, after. by apply frontmatter_Some.
    + intros (body & after & ->). unfold frontmatter, fence.
      replace ((u "---" ++ NL ++ body ++ NL ++ u "---") ++ after)
        with ((u "---" ++ NL) ++ body ++ (NL ++ u "---") ++ after)
        by (by rewrite <- !app_assoc).
      rewrite stripPrefix_app.
      destruct (cut _ _) as [[? ?]|] eqn:E; [by eexists|].
      by destruct (cut_None _ _ E body after).
  - intros mt. destruct (frontmatter content) as [[body after]|] eqn:Hf; [|done].
    intros [= <-]. change (groupText (Result 0 (fence body) [Some body]) 1) with body.
    destruct (frontmatter_closes _ _ _ Hf) as [Hc Hcl]. eauto.
  - intros tags Hno. apply merge_fresh.
    destruct (frontmatter content) as [[body after]|] eqn:Hf; [|done].
    by destruct (Hno body after (frontmatter_Some _ _ _ Hf)).
Qed.

Lemma header_recognized_witness :
  exec frontmatterRegex unclosedNote = None /\
  applyTagsText unclosedNote [u "x"]
    = fence (tagField [u "x"]) ++ NL ++ NL ++ unclosedNote.
Proof.
  split; [reflexivity|].
  destruct (header_recognized unclosedNote) as (Hiff & _ & Hno).
  apply Hno. intros body after Heq.
  assert (is_Some (exec frontmatterRegex unclosedNote)) as [mt Hmt]
    by (apply Hiff; eauto).
  discriminate Hmt.
Defined.

End MergerClaims.

(** ** The array pattern of the reply *)

Section ArrayPattern.
Import JsString.

Lemma greedyTo_notin p c s : c ∉ s -> greedyTo p c s = None.
Proof.
  intros Hc. destruct (greedyTo p c s) as [[run r]|] eqn:E; [|done].
  apply greedyTo_Some in E as [-> _]. destruct Hc.
  apply elem_of_app. right. left.
Qed.

Lemma greedyTo_all c s inner post :
  greedyTo (fun _ => true) c s = Some (inner, post) <->
  s = inner ++ c :: post /\ (c ∉ post).
Proof.
  split.
  - intros H. pose proof (greedyTo_last _ _ _ _ _ H eq_refl) as Hlast.
    apply greedyTo_Some in H as [-> _]. split; [done|]. intros Hin.
    apply list_elem_of_split in Hin as (l1 & l2 & ->).
    by apply (greedyTo_None _ _ _ Hlast l1 l2).
  - intros [-> Hc]. rewrite greedyTo_app by done.
    by rewrite greedyTo_notin.
Qed.

Lemma m_chr c k x :
  m (Chr c) k x =
    match rest x with
    | a :: t => if (a =? c)%N then k (step x t) else None
    | [] => None
    end.
Proof. done. Qed.

Lemma attempt_array i s :
  attempt arrayRegex i s =
    (fun '(inner, after) => Result i ([LBRACKET] ++ inner ++ [RBRACKET]) [])
      <$> arrayAt s.
Proof.
  unfold attempt, arrayRegex, arrayAt. rewrite m_seq, m_chr. cbn [rest groups].
  destruct s as [|a t]; [done|]. destruct (a =? LBRACKET)%N eqn:Ha; [|done].
  apply N.eqb_eq in Ha as ->.
  rewrite m_seq, m_star_class. cbn [endIndex rest captures step].
  erewrite greedyClass_to; [|apply reads_chr|by right; eauto].
  destruct (greedyTo _ RBRACKET t) as [[inner after]|] eqn:E; [|done].
  apply greedyTo_Some in E as [-> _].
  cbn [fmap option_fmap option_map]. unfold consumed. cbn [endIndex rest captures].
  do 2 f_equal.
  replace (LBRACKET :: inner ++ RBRACKET :: after)
    with (([LBRACKET] ++ inner ++ [RBRACKET]) ++ after)
    by (by rewrite <- !app_assoc).
  apply take_app_length'. rewrite !length_app. simpl. lia.
Qed.

Lemma exec_array text :
  exec arrayRegex text =
    (fun '(before, (inner, after)) =>
       Result (length before) ([LBRACKET] ++ inner ++ [RBRACKET]) [])
      <$> findArray text.
Proof.
  unfold exec, findArray.
  rewrite (execFrom_scan _ arrayAt
             (fun i '(inner, after) => Result i ([LBRACKET] ++ inner ++ [RBRACKET]) [])).
  - by destruct (scan arrayAt text) as [[? [? ?]]|].
  - intros i s. rewrite attempt_array. by destruct (arrayAt s) as [[? ?]|].
Qed.

(** The match runs from the first opening bracket to the last closing
    bracket. *)
Lemma findArray_Some text before inner after :
  findArray text = Some (before, (inner, after)) <->
  text = before ++ [LBRACKET] ++ inner ++ [RBRACKET] ++ after /\
  (LBRACKET ∉ before) /\ (RBRACKET ∉ after).
Proof.
  split.
  - intros H. apply scan_Some in H as (s' & -> & Hs & Hmin).
    unfold arrayAt in Hs. destruct s' as [|a t]; [done|].
    destruct (N.eqb_spec a LBRACKET) as [->|]; [|done].
    apply greedyTo_all in Hs as [-> Hc]. split_and!; [done| |done].
    intros Hin. apply list_elem_of_split in Hin as (l1 & l2 & ->).
    specialize (Hmin l1 (LBRACKET :: l2) eq_refl ltac:(done)).
    simpl in Hmin. rewrite ?N.eqb_refl in Hmin.
    replace (l2 ++ LBRACKET :: inner ++ RBRACKET :: after)
      with ((l2 ++ LBRACKET :: inner) ++ RBRACKET :: after) in Hmin
      by (by rewrite <- app_assoc).
    assert (greedyTo (fun _ => true) RBRACKET
              ((l2 ++ LBRACKET :: inner) ++ RBRACKET :: after)
            = Some (l2 ++ LBRACKET :: inner, after)) as Hg
      by (by apply greedyTo_all).
    congruence.
  - intros (-> & Hb & Ha). apply scan_first.
    + simpl. rewrite ?N.eqb_refl. by apply greedyTo_all.
    + intros b1 b2 -> Hne. destruct b2 as [|c b2]; [done|]. simpl.
      destruct (N.eqb_spec c LBRACKET) as [->|]; [|done].
      destruct Hb. apply elem_of_app. right. left.
Qed.

Lemma findArray_None text :
  findArray text = None <->
  forall a b c, text <> a ++ [LBRACKET] ++ b ++ [RBRACKET] ++ c.
Proof.
  split.
  - intros H a b c ->.
    pose proof (scan_None _ _ H a _ eq_refl) as Hn. simpl in Hn.
    rewrite ?N.eqb_refl in Hn.
    destruct (greedyTo (fun _ => true) RBRACKET (b ++ RBRACKET :: c)) eqn:E; [done|].
    by apply (greedyTo_None _ _ _ E b c).
  - intros H. destruct (findArray text) as [[before [inner after]]|] eqn:E; [|done].
    apply findArray_Some in E as [-> _]. by destruct (H before inner after).
Qed.

End ArrayPattern.

(** ** JSON.parse *)

Section JsonFacts.
Import JSON.

Lemma parseElements_array n s acc v r :
  parseElements n s acc = POk v r -> exists l, v = JArray l.
Proof.
  revert s acc. induction n as [|n IH]; intros s acc; [done|].
  cbn [parseElements]. destruct (parseValue n s) as [v0 r0| |]; [|done..].
  destruct (skipWs r0) as [|c t]; [done|].
  destruct (c =? 44)%N; [apply IH|].
  destruct (c =? 93)%N; [|done]. intros [= <- <-]. eauto.
Qed.

(** What begins with a bracket parses to an array, or not at all. *)
Lemma parse_bracket s v :
  parse (LBRACKET :: s) = Some v -> v = JArray (items v).
Proof.
  unfold parse. destruct (2 * length (LBRACKET :: s) + 1) as [|n]; [done|].
  cbn [parseValue]. change (skipWs (LBRACKET :: s)) with (LBRACKET :: s).
  cbn iota. change (LBRACKET =? 91)%N with true. cbn iota.
  destruct (skipWs s) as [|d t']; [done|].
  destruct (d =? 93)%N.
  - destruct (skipWs t'); [|done]. by intros [= <-].
  - destruct (parseElements n (d :: t') []) as [v0 r0| |] eqn:E; [|done..].
    apply parseElements_array in E as [l ->].
    destruct (skipWs r0); [|done]. by intros [= <-].
Qed.

End JsonFacts.

Section JsonFuel.
Import JSON.

Lemma skipWs_length s : length (skipWs s) <= length s.
Proof.
  induction s as [|c s IH]; [done|]. simpl. destruct (isJsonSpace c); simpl; lia.
Qed.

Lemma skipWs_cons s c t : skipWs s = c :: t -> length t < length s.
Proof. intros H. pose proof (skipWs_length s). rewrite H in *. simpl in *. lia. Qed.

Lemma stringBody_length s acc str r :
  stringBody s acc = Some (str, r) -> length r < length s.
Proof.
  remember (length s) as k eqn:Hk. assert (length s <= k) as Hle by lia. clear Hk.
  revert s acc Hle. induction k as [|k IH]; intros s acc Hle;
    (destruct s as [|c t]; [done|]); [simpl in Hle; lia|].
  simpl in Hle. cbn [stringBody].
  destruct (c =? 34)%N; [intros [= <- <-]; simpl; lia|].
  destruct (c =? 92)%N.
  - destruct t as [|e t']; [done|]. destruct (e =? 117)%N.
    + destruct t' as [|h1 [|h2 [|h3 [|h4 t'']]]]; try done.
      destruct (hexVal h1), (hexVal h2), (hexVal h3), (hexVal h4); try done.
      intros H. apply IH in H; simpl in *; lia.
    + destruct (escape e); [|done]. intros H. apply IH in H; simpl in *; lia.
  - destruct (c <? 32)%N; [done|]. intros H. apply IH in H; simpl in *; lia.
Qed.

Lemma spanDigits_length s : length (spanDigits s).2 <= length s.
Proof.
  induction s as [|c t IH]; [done|]. simpl. destruct (isDigit c); [|done].
  destruct (spanDigits t). simpl in *. lia.
Qed.

Lemma number_length s lexeme r : number s = Some (lexeme, r) -> length r < length s.
Proof.
  unfold number.
  set (first := match s with
                | c :: t => if (c =? 45)%N then ([c], t) else ([], s)
                | [] => ([], s)
                end).
  assert (length first.2 <= length s) as Hfirst.
  { subst first. destruct s as [|c t]; [done|]. destruct (c =? 45)%N; simpl; lia. }
  destruct first as [sign s1]. simpl in Hfirst.
  destruct s1 as [|d t]; [done|].
  set (int := if (d =? 48)%N then Some ([d], t)
              else if isDigit d then let '(ds, r) := spanDigits t in Some (d :: ds, r)
              else None).
  assert (forall ip s2, int = Some (ip, s2) -> length s2 <= length t) as Hint.
  { subst int. intros ip s2. destruct (d =? 48)%N; [by intros [= <- <-]|].
    destruct (isDigit d); [|done]. pose proof (spanDigits_length t).
    destruct (spanDigits t). by intros [= <- <-]. }
  destruct int as [[ip s2]|]; [|done]. specialize (Hint _ _ eq_refl).
  set (frac := match s2 with
               | c :: t2 =>
                   if (c =? 46)%N then
                     match spanDigits t2 with
                     | ([], _) => None
                     | (ds, r) => Some (c :: ds, r)
                     end
                   else Some ([], s2)
               | [] => Some ([], s2)
               end).
  assert (forall fp s3, frac = Some (fp, s3) -> length s3 <= length s2) as Hfrac.
  { subst frac. intros fp s3. destruct s2 as [|c t2]; [by intros [= <- <-]|].
    destruct (c =? 46)%N; [|by intros [= <- <-]].
    pose proof (spanDigits_length t2). destruct (spanDigits t2) as [[|? ?] ?]; [done|].
    intros [= <- <-]. simpl in *. lia. }
  destruct frac as [[fp s3]|]; [|done]. specialize (Hfrac _ _ eq_refl).
  set (exp := match s3 with
              | c :: t3 =>
                  if (c =? 101)%N || (c =? 69)%N then
                    let '(sg, t4) :=
                      match t3 with
                      | g :: t5 =>
                          if (g =? 43)%N || (g =? 45)%N then ([g], t5)
                          else ([], t3)
                      | [] => ([], t3)
                      end in
                    match spanDigits t4 with
                    | ([], _) => None
                    | (ds, r) => Some (c :: sg ++ ds, r)
                    end
                  else Some ([], s3)
              | [] => Some ([], s3)
              end).
  assert (forall ep s4, exp = Some (ep, s4) -> length s4 <= length s3) as Hexp.
  { subst exp. intros ep s4. destruct s3 as [|c t3]; [by intros [= <- <-]|].
    destruct ((c =? 101)%N || (c =? 69)%N); [|by intros [= <- <-]].
    set (sg := match t3 with
               | g :: t5 => if (g =? 43)%N || (g =? 45)%N then ([g], t5) else ([], t3)
               | [] => ([], t3)
               end).
    assert (length sg.2 <= length t3) as Hsg.
    { subst sg. destruct t3 as [|g t5]; [done|].
      destruct ((g =? 43)%N || (g =? 45)%N); simpl; lia. }
    destruct sg as [sg t4]. simpl in Hsg.
    pose proof (spanDigits_length t4). destruct (spanDigits t4) as [[|? ?] ?]; [done|].
    intros [= <- <-]. simpl in *. lia. }
  destruct exp as [[ep s4]|]; [|done]. specialize (Hexp _ _ eq_refl).
  intros [= <- <-]. simpl in *. lia.
Qed.

Lemma literal_length word v s v' r :
  word <> [] -> literal word v s = POk v' r -> length r < length s.
Proof.
  unfold literal. intros Hw. destruct (JsString.stripPrefix word s) eqn:E; [|done].
  intros [= <- <-]. apply stripPrefix_Some in E as ->. rewrite length_app.
  destruct word; [done|]. simpl. lia.
Qed.

(** A parsing function that succeeds has consumed something. *)
Lemma parse_consumes n :
  (forall s v r, parseValue n s = POk v r -> length r < length s) /\
  (forall s acc v r, parseElements n s acc = POk v r -> length r < length s) /\
  (forall s acc v r, parseMembers n s acc = POk v r -> length r < length s).
Proof.
  induction n as [|n (IHv & IHe & IHm)]; [done|]. split_and!.
  - intros s v r. cbn [parseValue].
    destruct (skipWs s) as [|c t] eqn:Es; [done|]. apply skipWs_cons in Es.
    destruct (c =? 91)%N.
    { destruct (skipWs t) as [|d t'] eqn:Et; [done|]. apply skipWs_cons in Et.
      destruct (d =? 93)%N; [intros [= <- <-]; lia|].
      intros H%IHe. simpl in H. lia. }
    destruct (c =? 123)%N.
    { destruct (skipWs t) as [|d t'] eqn:Et; [done|]. apply skipWs_cons in Et.
      destruct (d =? 125)%N; [intros [= <- <-]; lia|].
      intros H%IHm. simpl in H. lia. }
    destruct (c =? 34)%N.
    { destruct (stringBody t []) as [[str r0]|] eqn:Eb; [|done].
      apply stringBody_length in Eb. intros [= <- <-]. lia. }
    destruct (c =? 116)%N; [intros H%literal_length; [simpl in H; lia|done]|].
    destruct (c =? 102)%N; [intros H%literal_length; [simpl in H; lia|done]|].
    destruct (c =? 110)%N; [intros H%literal_length; [simpl in H; lia|done]|].
    destruct (number (c :: t)) as [[lexeme r0]|] eqn:En; [|done].
    apply number_length in En. intros [= <- <-]. simpl in En. lia.
  - intros s acc v r. cbn [parseElements].
    destruct (parseValue n s) as [v0 r0| |] eqn:Ev; [|done..]. apply IHv in Ev.
    destruct (skipWs r0) as [|c t] eqn:Es; [done|]. apply skipWs_cons in Es.
    destruct (c =? 44)%N; [intros H%IHe; lia|].
    destruct (c =? 93)%N; [|done]. intros [= <- <-]. lia.
  - intros s acc v r. cbn [parseMembers].
    destruct (skipWs s) as [|q t] eqn:Es; [done|]. apply skipWs_cons in Es.
    destruct (q =? 34)%N; [|done].
    destruct (stringBody t []) as [[key r0]|] eqn:Eb; [|done].
    apply stringBody_length in Eb.
    destruct (skipWs r0) as [|c r'] eqn:Es'; [done|]. apply skipWs_cons in Es'.
    destruct (c =? 58)%N; [|done].
    destruct (parseValue n r') as [v0 r''| |] eqn:Ev; [|done..]. apply IHv in Ev.
    destruct (skipWs r'') as [|e t'] eqn:Es''; [done|]. apply skipWs_cons in Es''.
    destruct (e =? 44)%N; [intros H%IHm; lia|].
    destruct (e =? 125)%N; [|done]. intros [= <- <-]. lia.
Qed.

(** Twice the length of the text, and one more, is allowance enough. *)
Lemma parse_allowance n :
  (forall s, 2 * length s < n -> parseValue n s <> PFuel) /\
  (forall s acc, 2 * length s + 1 < n -> parseElements n s acc <> PFuel) /\
  (forall s acc, 2 * length s + 1 < n -> parseMembers n s acc <> PFuel).
Proof.
  induction n as [|n (IHv & IHe & IHm)]; [split_and!; intros; lia|].
  destruct (parse_consumes n) as (Cv & Ce & Cm). split_and!.
  - intros s Hn. cbn [parseValue].
    destruct (skipWs s) as [|c t] eqn:Es; [done|]. apply skipWs_cons in Es.
    destruct (c =? 91)%N.
    { destruct (skipWs t) as [|d t'] eqn:Et; [done|]. apply skipWs_cons in Et.
      destruct (d =? 93)%N; [done|]. apply IHe. simpl. lia. }
    destruct (c =? 123)%N.
    { destruct (skipWs t) as [|d t'] eqn:Et; [done|]. apply skipWs_cons in Et.
      destruct (d =? 125)%N; [done|]. apply IHm. simpl. lia. }
    destruct (c =? 34)%N; [by destruct (stringBody t []) as [[? ?]|]|].
    unfold literal.
    destruct (c =? 116)%N; [by destruct (JsString.stripPrefix _ _)|].
    destruct (c =? 102)%N; [by destruct (JsString.stripPrefix _ _)|].
    destruct (c =? 110)%N; [by destruct (JsString.stripPrefix _ _)|].
    by destruct (number (c :: t)) as [[? ?]|].
  - intros s acc Hn. cbn [parseElements].
    destruct (parseValue n s) as [v0 r0| |] eqn:Ev; [|done|].
    + apply Cv in Ev.
      destruct (skipWs r0) as [|c t] eqn:Es; [done|]. apply skipWs_cons in Es.
      destruct (c =? 44)%N; [apply IHe; lia|]. by destruct (c =? 93)%N.
    + by apply IHv in Ev; [|lia].
  - intros s acc Hn. cbn [parseMembers].
    destruct (skipWs s) as [|q t] eqn:Es; [done|]. apply skipWs_cons in Es.
    destruct (q =? 34)%N; [|done].
    destruct (stringBody t []) as [[key r0]|] eqn:Eb; [|done].
    apply stringBody_length in Eb.
    destruct (skipWs r0) as [|c r'] eqn:Es'; [done|]. apply skipWs_cons in Es'.
    destruct (c =? 58)%N; [|done].
    destruct (parseValue n r') as [v0 r''| |] eqn:Ev; [|done|].
    + apply Cv in Ev.
      destruct (skipWs r'') as [|e t'] eqn:Es''; [done|]. apply skipWs_cons in Es''.
      destruct (e =? 44)%N; [apply IHm; lia|]. by destruct (e =? 125)%N.
    + by apply IHv in Ev; [|lia].
Qed.

(** [JSON.parse] never stops for want of allowance: [None] is a syntax
    error. *)
Lemma parse_total s : parseValue (2 * length s + 1) s <> PFuel.
Proof. apply parse_allowance. lia. Qed.

End JsonFuel.

(** ** The claims about the suggestion client *)

Section Extraction.

(** C6 as the claim states it fails: when the first block of the reply
    is not of the text kind, the first text block may well hold an
    array that is valid JSON, and [suggestTags] still returns the empty
    sequence. *)
Lemma extractTags_first_block_only :
  firstTextBlock thinkingReply = Some ([LBRACKET] ++ quoted (u "a") ++ [RBRACKET]) /\
  (exists mt,
     exec arrayRegex ([LBRACKET] ++ quoted (u "a") ++ [RBRACKET]) = Some mt /\
     JSON.parse (matched mt) = Some (JSON.JArray [JSON.JString (u "a")])) /\
  forall p, extractTags thinkingReply p = (inr [], p).
Proof.
  split_and!; [done| |done]. eexists. split; [by vm_compute|by vm_compute].
Qed.

(** C6, as amended: the extraction reads the first block of the reply,
    a first block that is not of the text kind counting as the empty
    text (a reply without any block raises a type error).  If that
    text has no opening bracket followed somewhere by a closing one,
    the empty sequence is returned and no error raised; otherwise the
    text from the first opening bracket to the last closing bracket is
    parsed: if it is valid JSON it is an array and its elements are
    returned, and if it is not the syntax error reaches the caller. *)
Theorem extractTags_cases content p :
  match content with
  | [] => extractTags content p = (inl TypeError, p)
  | block :: _ =>
      let text := match block with TextBlock t => t | OtherBlock _ => [] end in
      match exec arrayRegex text with
      | None =>
          (forall a b c, text <> a ++ [LBRACKET] ++ b ++ [RBRACKET] ++ c) /\
          extractTags content p = (inr [], p)
      | Some mt =>
          (exists before inner after,
             text = before ++ [LBRACKET] ++ inner ++ [RBRACKET] ++ after /\
             (LBRACKET ∉ before) /\ (RBRACKET ∉ after) /\
             matched mt = [LBRACKET] ++ inner ++ [RBRACKET]) /\
          match JSON.parse (matched mt) with
          | Some v =>
              v = JSON.JArray (items v) /\ extractTags content p = (inr (items v), p)
          | None => extractTags content p = (inl SyntaxError, p)
          end
      end
  end.
Proof.
  destruct content as [|block more]; [done|]. cbn zeta.
  assert (extractTags (block :: more) p =
          match exec arrayRegex
                  (match block with TextBlock t => t | OtherBlock _ => [] end) with
          | None => (inr [], p)
          | Some mt =>
              match JSON.parse (matched mt) with
              | Some v => (inr (items v), p)
              | None => (inl SyntaxError, p)
              end
          end) as ->.
  { unfold extractTags, bind, ret, throw. destruct block; simpl;
      repeat case_match; done. }
  set (text := match block with TextBlock t => t | OtherBlock _ => [] end).
  rewrite exec_array.
  destruct (findArray text) as [[before [inner after]]|] eqn:E;
    cbn [fmap option_fmap option_map matched].
  - apply findArray_Some in E as (Ht & Hb & Ha). split; [by eauto 10|].
    destruct (JSON.parse _) as [v|] eqn:Ev; [|done].
    split; [|done]. by apply parse_bracket in Ev.
  - split; [|done]. by apply findArray_None.
Qed.

End Extraction.

Section Length.
Import JSON.

Lemma parseElements_tags n f acc more :
  n + 2 <= f ->
  parseElements f
    (JsString.join [COMMA] (replicate (S n) (quoted (u "t"))) ++ RBRACKET :: more) acc
  = POk (JArray (rev acc ++ replicate (S n) (JString (u "t")))) more.
Proof.
  revert f acc. induction n as [|n IH]; intros f acc Hf.
  - destruct f as [|[|f]]; [lia..|]. by vm_compute.
  - destruct f as [|f]; [lia|].
    change (JsString.join [COMMA] (replicate (S (S n)) (quoted (u "t"))))
      with (quoted (u "t") ++ [COMMA]
              ++ JsString.join [COMMA] (replicate (S n) (quoted (u "t")))).
    rewrite <- !app_assoc. cbn [parseElements].
    set (tail := JsString.join [COMMA] (replicate (S n) (quoted (u "t")))
                   ++ RBRACKET :: more).
    assert (parseValue f (quoted (u "t") ++ [COMMA] ++ tail)
            = POk (JString (u "t")) (COMMA :: tail)) as ->
      by (destruct f; [lia|done]).
    cbn [skipWs]. change (isJsonSpace COMMA) with false. cbn iota.
    change (COMMA =? 44)%N with true. cbn iota.
    subst tail. rewrite IH by lia. simpl rev. by rewrite <- app_assoc.
Qed.

Lemma parse_tagArray n :
  parse (tagArray n) = Some (JArray (replicate n (JString (u "t")))).
Proof.
  destruct n as [|n]; [by vm_compute|]. unfold parse, tagArray.
  set (body := JsString.join [COMMA] (replicate (S n) (quoted (u "t")))).
  assert (exists t', body = DQUOTE :: t') as [t' Hbody].
  { subst body. destruct n; simpl; eauto. }
  assert (S n <= length body) as Hlen.
  { subst body. clear. induction n as [|n IH]; [simpl; lia|].
    change (JsString.join [COMMA] (replicate (S (S n)) (quoted (u "t"))))
      with (quoted (u "t") ++ [COMMA]
              ++ JsString.join [COMMA] (replicate (S n) (quoted (u "t")))).
    rewrite !length_app. simpl in *. lia. }
  replace (2 * length ([LBRACKET] ++ body ++ [RBRACKET]) + 1)
    with (S (2 * length ([LBRACKET] ++ body ++ [RBRACKET]))) by lia.
  cbn [parseValue]. change (skipWs ([LBRACKET] ++ body ++ [RBRACKET]))
    with (LBRACKET :: body ++ [RBRACKET]).
  cbn iota. change (LBRACKET =? 91)%N with true. cbn iota.
  assert (skipWs (body ++ [RBRACKET]) = DQUOTE :: t' ++ [RBRACKET]) as ->
    by (by rewrite Hbody).
  change (DQUOTE =? 93)%N with false. cbn iota.
  change (DQUOTE :: t' ++ [RBRACKET]) with ((DQUOTE :: t') ++ [RBRACKET]).
  rewrite <- Hbody. unfold body in *. rewrite parseElements_tags; [done|].
  rewrite !length_app. cbn [length]. lia.
Qed.

Lemma exec_tagArray n :
  exec arrayRegex (tagArray n) = Some (Result 0 (tagArray n) []).
Proof.
  rewrite exec_array.
  assert (findArray (tagArray n)
          = Some ([], (JsString.join [COMMA] (replicate n (quoted (u "t"))), [])))
    as ->; [|done].
  apply findArray_Some. split_and!; [done|apply not_elem_of_nil..].
Qed.

End Length.

(** ** The claims about the plugin *)

Section PluginClaims.
Variable remote : nat -> Anthropic -> MessageRequest -> exn + list ContentBlock.
Variable mergeUntyped : jsstring -> list JSON.value -> exn + jsstring.

Lemma extractTags_state content p : (extractTags content p).2 = p.
Proof.
  unfold extractTags, bind, ret, throw.
  destruct content as [|[t|ty] more]; simpl; repeat case_match; done.
Qed.

(** A suggestion request leaves the notes alone. *)
Lemma suggestTags_vault content p :
  vault (suggestTags remote content p).2 = vault p.
Proof.
  unfold suggestTags, bind, gets, ret, create.
  destruct (client p) as [c|]; [|done]. simpl.
  destruct (remote _ _ _) as [e|blocks]; [done|].
  pose proof (extractTags_state blocks
                (withRequest c (Request (model (settings p)) 200
                   (prompt (settings p) (JsString.slice0 3000 content))) p)) as H.
  destruct (extractTags blocks _) as [r p']. simpl in H. by subst p'.
Qed.

(** C10: without a client handle [suggestTags] returns the empty
    sequence, raises nothing and leaves the whole state, the record of
    the requests sent included, as it was. *)
Theorem suggestTags_no_client content p :
  client p = None ->
  suggestTags remote content p = (inr [], p) /\
  requests (suggestTags remote content p).2 = requests p.
Proof. intros H. unfold suggestTags, bind, gets, ret. by rewrite H. Qed.

Lemma suggestTags_client content p c :
  client p = Some c ->
  let request :=
    Request (model (settings p)) 200
      (prompt (settings p) (JsString.slice0 3000 content)) in
  suggestTags remote content p =
    match remote (length (requests p)) c request with
    | inr blocks => extractTags blocks (withRequest c request p)
    | inl e => (inl e, withRequest c request p)
    end.
Proof.
  intros H. unfold suggestTags, bind, gets, create. rewrite H. simpl.
  by destruct (remote _ _ _).
Qed.

(** C7, as amended: the sequence returned is the array found in the
    reply, whatever its length; the configured maximum is quoted in the
    prompt and bounds nothing: for every number n, the reply that holds
    an array of n tags makes [suggestTags] return n tags. *)
Theorem suggestTags_length content p c :
  client p = Some c ->
  let request :=
    Request (model (settings p)) 200
      (prompt (settings p) (JsString.slice0 3000 content)) in
  (forall text more mt v,
     remote (length (requests p)) c request = inr (TextBlock text :: more) ->
     exec arrayRegex text = Some mt -> JSON.parse (matched mt) = Some v ->
     (suggestTags remote content p).1 = inr (items v)) /\
  (forall n,
     remote (length (requests p)) c request = inr [TextBlock (tagArray n)] ->
     exists tags, (suggestTags remote content p).1 = inr tags /\ length tags = n).
Proof.
  intros Hc request. split.
  - intros text more mt v Hr Hm Hv.
    rewrite (suggestTags_client _ _ _ Hc). fold request. rewrite Hr.
    unfold extractTags, bind, ret. simpl. by rewrite Hm, Hv.
  - intros n Hr. rewrite (suggestTags_client _ _ _ Hc). fold request. rewrite Hr.
    unfold extractTags, bind, ret. simpl.
    rewrite exec_tagArray. cbn [matched]. rewrite parse_tagArray.
    eexists. split; [done|]. simpl. by rewrite length_replicate.
Qed.

(** The guard of the two commands: without a client handle they only
    show the message. *)
Lemma tagAllNotes_no_client p :
  client p = None -> tagAllNotes remote mergeUntyped p = (inr tt, withNotice NoticeSetKey p).
Proof. intros H. unfold tagAllNotes, bind, gets. by rewrite H. Qed.

Lemma tagCurrentNote_no_client p :
  client p = None -> tagCurrentNote remote p = (inr tt, withNotice NoticeSetKey p).
Proof. intros H. unfold tagCurrentNote, bind, gets. by rewrite H. Qed.

(** The client handle follows the key only upwards: [initClient] never
    takes it away. *)
Lemma initClient_keeps p c : client p = Some c -> apiKey (settings p) = [] ->
  client (initClient p).2 = Some c.
Proof.
  intros Hc Hk. unfold initClient, bind, gets, ret. simpl.
  by rewrite bool_decide_eq_true_2.
Qed.

(** One iteration of the loop never throws. *)
Lemma iteration_returns total file processed p :
  exists n p', iteration remote mergeUntyped total file processed p = (inr n, p').
Proof.
  unfold iteration, tryCatch.
  destruct (tagOne remote mergeUntyped total file processed p) as [[e|n] p1]; eauto.
Qed.

Lemma forEach_cons total file files processed p :
  forEach remote mergeUntyped total (file :: files) processed p =
    match tagOne remote mergeUntyped total file processed p with
    | (inr n, p1) => forEach remote mergeUntyped total files n p1
    | (inl e, p1) => forEach remote mergeUntyped total files processed (withError file e p1)
    end.
Proof.
  cbn [forEach]. unfold bind at 1. unfold iteration, tryCatch.
  by destruct (tagOne remote mergeUntyped total file processed p) as [[e|n] p1].
Qed.

Lemma forEach_returns total files processed p :
  exists n p', forEach remote mergeUntyped total files processed p = (inr n, p').
Proof.
  revert processed p. induction files as [|file files IH]; intros processed p.
  - by eexists _, _.
  - rewrite forEach_cons.
    destruct (tagOne remote mergeUntyped total file processed p) as [[e|n] p1]; apply IH.
Qed.

(** What the try block of one note can return. *)
Lemma tagOne_result total file processed p n p1 :
  tagOne remote mergeUntyped total file processed p = (inr n, p1) ->
  exists content,
    vault p !! file = Some content /\
    if length (JsString.trim content) <? 50 then n = processed /\ p1 = p
    else n = S processed.
Proof.
  unfold tagOne, bind at 1, vaultRead.
  destruct (vault p !! file) as [content|]; [|done]. intros H. exists content.
  split; [done|]. destruct (_ <? 50); [by injection H as <- <-|].
  revert H. unfold bind, gets, ret, notice, update.
  destruct (suggestTags remote content p) as [[e|tags] p2]; [done|]. simpl.
  destruct (_ && _).
  - destruct (applyTags mergeUntyped file tags p2) as [[e|[]] p3]; [done|].
    destruct (_ =? 0); by intros [= <- <-].
  - destruct (_ =? 0); by intros [= <- <-].
Qed.

(** A note for which nothing is suggested counts, and nothing is
    written. *)
Lemma tagOne_empty total file processed p content p1 :
  vault p !! file = Some content ->
  (length (JsString.trim content) <? 50) = false ->
  suggestTags remote content p = (inr [], p1) ->
  exists p2,
    tagOne remote mergeUntyped total file processed p = (inr (S processed), p2) /\
    vault p2 = vault p.
Proof.
  intros Hv Hlen Hs. pose proof (suggestTags_vault content p) as Hvault.
  rewrite Hs in Hvault. simpl in Hvault.
  unfold tagOne, bind at 1, vaultRead. rewrite Hv, Hlen.
  unfold bind, gets, ret, notice, update. rewrite Hs. simpl.
  destruct (_ =? 0); eexists; split; done.
Qed.

(** A note whose pipeline throws is logged and leaves the count alone. *)
Lemma iteration_caught total file processed p e p1 :
  tagOne remote mergeUntyped total file processed p = (inl e, p1) ->
  iteration remote mergeUntyped total file processed p
    = (inr processed, withError file e p1).
Proof. intros H. unfold iteration, tryCatch. by rewrite H. Qed.

End PluginClaims.

Section PluginExamples.

Lemma suggestTags_no_client_witness :
  client freshPlugin = None /\
  suggestTags remoteDown longNote freshPlugin = (inr [], freshPlugin).
Proof.
  split; [reflexivity|].
  apply (suggestTags_no_client remoteDown longNote freshPlugin). reflexivity.
Defined.

(** C7 as the claim states it fails: with the default maximum of five,
    a reply that holds six tags makes [suggestTags] return six tags. *)
Lemma suggestTags_exceeds_maxTags :
  maxTags (settings keyedPlugin) = 5 /\
  exists tags,
    (suggestTags (replyText sixTags) longNote keyedPlugin).1 = inr tags /\
    length tags = 6.
Proof. split; [reflexivity|]. eexists. split; [by vm_compute|reflexivity]. Qed.

Lemma suggestTags_length_witness :
  client keyedPlugin = Some (Client (u "k")) /\
  maxTags (settings keyedPlugin) = 5 /\
  exists tags,
    (suggestTags (replyText (tagArray 7)) longNote keyedPlugin).1 = inr tags /\
    length tags = 7.
Proof.
  split; [reflexivity|]. split; [reflexivity|].
  apply (suggestTags_length (replyText (tagArray 7)) longNote keyedPlugin
           (Client (u "k")));
    reflexivity.
Defined.

(** C9, where the code departs from the claim: once a key has been set
    and then cleared, no key is set, yet the client handle made for the
    old key is still there; [tagAllNotes] then shows no message about
    the key and sends a request for the note. *)
Theorem tagAllNotes_after_key_cleared :
  reachable (replyText (u "[]")) untypedThrows clearedPlugin /\
  apiKey (settings clearedPlugin) = [] /\
  client clearedPlugin = Some (Client (u "k")) /\
  notices (tagAllNotes (replyText (u "[]")) untypedThrows clearedPlugin).2
    = [NoticeTagging 1; NoticeDone 1] /\
  (fst <$> requests (tagAllNotes (replyText (u "[]")) untypedThrows clearedPlugin).2)
    = [Client (u "k")].
Proof.
  split; [|by vm_compute].
  apply (reachable_run _ _ _ (SetApiKey [])), (reachable_run _ _ _ (SetApiKey (u "k"))).
  apply reachable_onload.
Qed.

End PluginExamples.

(** ** More about the merger *)

Section MergerExtras.
Import JsString.

Lemma applyTags_union_witness :
  applyTagsText taggedNote [u "b"; u "c"]
    = fence (take (index taggedField) (groupText taggedHeader 1)
               ++ tagField (setOf (currentTags (groupText taggedField 1)
                                     ++ [u "b"; u "c"]))
               ++ drop (index taggedField + length (matched taggedField))
                       (groupText taggedHeader 1))
        ++ drop (length (matched taggedHeader)) taggedNote.
Proof.
  apply (applyTags_union taggedNote taggedHeader taggedField [u "b"; u "c"]);
    reflexivity.
Defined.

Lemma applyTags_append_witness :
  applyTagsText titledNote [u "x"]
    = fence (groupText titledHeader 1 ++ NL ++ tagField [u "x"])
        ++ drop (length (matched titledHeader)) titledNote.
Proof.
  apply (applyTags_append titledNote titledHeader [u "x"]); reflexivity.
Defined.

(** X3: whatever the note and the tags hold, dollar signs included, the
    text written begins with a delimiter line and ends with the text
    that followed the header, the whole note when it had no header. *)
Theorem applyTags_shape content tags :
  exists middle,
    applyTagsText content tags =
      u "---" ++ NL ++ middle
        ++ match exec frontmatterRegex content with
           | Some mt => drop (length (matched mt)) content
           | None => content
           end.
Proof.
  rewrite applyTagsText_eq, exec_frontmatter.
  destruct (frontmatter content) as [[body after]|] eqn:Hf;
    cbn [fmap option_fmap option_map matched].
  - pose proof (frontmatter_Some _ _ _ Hf) as Hc.
    assert (drop (length (fence body)) content = after) as ->
      by (rewrite Hc; apply drop_app_length).
    assert (forall x,
              expandFence content body (fence x)
              = u "---" ++ NL
                  ++ GetSubstitution (fence body) content 0 [] (x ++ NL ++ u "---"))
      as Hx by reflexivity.
    destruct (findTags body) as [[before [[ws inner] post]]|];
      rewrite Hx, <- !app_assoc; eexists; reflexivity.
  - exists (tagField tags ++ NL ++ u "---" ++ NL ++ NL).
    unfold fence. by rewrite <- !app_assoc.
Qed.

(** A tag field stands at the start of a text that begins with its
    name, white space, and a bracketed stretch of one line. *)
Lemma tagsAt_complete ws inner post :
  (forall c, c ∈ ws -> isSpace c = true) ->
  (forall c, c ∈ inner -> isLineTerminator c = false) ->
  is_Some (tagsAt (fieldText ws inner ++ post)).
Proof.
  intros Hws Hin. unfold tagsAt, fieldText. rewrite <- !app_assoc.
  rewrite stripPrefix_app.
  change (ws ++ [LBRACKET] ++ inner ++ [RBRACKET] ++ post)
    with (ws ++ LBRACKET :: (inner ++ RBRACKET :: post)).
  rewrite (greedyTo_app isSpace LBRACKET) by done.
  change (isSpace LBRACKET) with false. cbn iota.
  rewrite (greedyTo_app (fun c => negb (isLineTerminator c)) RBRACKET).
  - by destruct (if negb (isLineTerminator RBRACKET) then _ else None) as [[? ?]|].
  - intros x Hx. by rewrite (Hin x Hx).
Qed.

Lemma tagsAt_spaces s ws inner post :
  tagsAt s = Some (ws, inner, post) -> forall c, c ∈ ws -> isSpace c = true.
Proof.
  unfold tagsAt. destruct (stripPrefix _ s) as [r|]; [|done].
  destruct (greedyTo isSpace _ r) as [[ws0 r1]|] eqn:E; [|done].
  destruct (greedyTo _ RBRACKET r1) as [[inner0 post0]|]; [|done].
  intros [= -> -> ->]. by apply greedyTo_Some in E as [_ Hall].
Qed.

(** X4: the tag field of a header is any occurrence of the name followed
    by white space and a bracketed stretch without line terminator; the
    one taken is the leftmost, and it reaches to the last closing
    bracket of its line. *)
Theorem tagField_recognized body :
  (is_Some (exec tagsGroupRegex body) <->
     exists before ws inner post,
       body = before ++ fieldText ws inner ++ post /\
       (forall c, c ∈ ws -> isSpace c = true) /\
       (forall c, c ∈ inner -> isLineTerminator c = false)) /\
  (forall existing, exec tagsGroupRegex body = Some existing ->
     exists ws post,
       matched existing = fieldText ws (groupText existing 1) /\
       body = take (index existing) body ++ matched existing ++ post /\
       (forall c, c ∈ ws -> isSpace c = true) /\
       (forall c, c ∈ groupText existing 1 -> isLineTerminator c = false) /\
       (forall line r,
          (forall c, c ∈ line -> isLineTerminator c = false) ->
          post <> line ++ RBRACKET :: r) /\
       (forall b1 b2 ws' inner' post',
          take (index existing) body = b1 ++ b2 -> b2 <> [] ->
          (forall c, c ∈ ws' -> isSpace c = true) ->
          (forall c, c ∈ inner' -> isLineTerminator c = false) ->
          b2 ++ matched existing ++ post <> fieldText ws' inner' ++ post')).
Proof.
  rewrite exec_tagsGroup. split.
  - split.
    + destruct (findTags body) as [[before [[ws inner] post]]|] eqn:Ht;
        [|by intros [? ?]].
      intros _. pose proof Ht as (s' & _ & Hat & _)%scan_Some.
      destruct (findTags_inv _ _ _ _ _ Ht) as (Hb & Hline & _).
      exists before, ws, inner, post. split_and!; [done| |done].
      by eapply tagsAt_spaces.
    + intros (before & ws & inner & post & -> & Hws & Hin).
      destruct (findTags _) as [?|] eqn:Ht; [by eexists|].
      pose proof (scan_None _ _ Ht before _ eq_refl) as Hnone.
      destruct (tagsAt_complete ws inner post Hws Hin) as [? Hsome]. congruence.
  - intros existing.
    destruct (findTags body) as [[before [[ws inner] post]]|] eqn:Ht; [|done].
    intros [= <-]. cbn [index matched].
    change (groupText (Result (length before) (fieldText ws inner) [Some inner]) 1)
      with inner.
    pose proof Ht as (s' & _ & Hat & _)%scan_Some.
    destruct (findTags_inv _ _ _ _ _ Ht) as (Hb & Hline & Hpost & Hmin).
    assert (take (length before) body = before) as ->
      by (rewrite Hb; apply take_app_length).
    exists ws, post. split_and!; [done|done|by eapply tagsAt_spaces|done| |].
    + intros line r Hl. apply (greedyTo_None notLT RBRACKET _ Hpost).
      intros x Hx. unfold notLT. by rewrite (Hl x Hx).
    + intros b1 b2 ws' inner' post' Hbb Hne Hws' Hin' Heq.
      pose proof (Hmin b1 b2 Hbb Hne) as Hnone. rewrite Heq in Hnone.
      destruct (tagsAt_complete ws' inner' post' Hws' Hin') as [? Hsome]. congruence.
Qed.

(** A text has no comma, or a first one. *)
Lemma first_comma s :
  (COMMA ∉ s) \/ exists x r, s = x ++ COMMA :: r /\ (COMMA ∉ x).
Proof.
  induction s as [|c s IH]; [left; by intros ?%elem_of_nil|].
  destruct (decide (c = COMMA)) as [->|Hc].
  - right. exists [], s. split; [done|]. by intros ?%elem_of_nil.
  - destruct IH as [Hno|(x & r & -> & Hx)].
    + left. by intros [?|?]%elem_of_cons.
    + right. exists (c :: x), r. split; [done|]. by intros [?|?]%elem_of_cons.
Qed.

Lemma filter_no_comma x :
  COMMA ∉ x -> List.filter (fun c => (c =? COMMA)%N) x = [].
Proof.
  induction x as [|c x IH]; [done|]. intros Hx. simpl.
  destruct (N.eqb_spec c COMMA) as [->|Hc].
  - destruct Hx. by left.
  - apply IH. intros H. apply Hx. by right.
Qed.

(** One piece more than there are commas. *)
Lemma split_length s :
  length (split [COMMA] s)
    = S (length (List.filter (fun c => (c =? COMMA)%N) s)).
Proof.
  remember (length s) as n eqn:Hn. revert s Hn.
  induction n as [n IH] using lt_wf_ind. intros s ->.
  destruct (first_comma s) as [Hno|(x & r & -> & Hx)].
  - rewrite split_last by done. by rewrite filter_no_comma.
  - rewrite split_cons by done. simpl. rewrite List.filter_app. simpl.
    rewrite length_app, filter_no_comma by done. simpl.
    rewrite (IH (length r)) with (s := r); [done| |done].
    rewrite length_app. simpl. lia.
Qed.

(** X5: the existing tags are read by cutting at every comma: there is
    one tag more than there are commas, so at least one, even between
    empty brackets; no tag read holds a comma or a quote character, and
    each is made of code units of the field. *)
Theorem currentTags_read inner :
  length (currentTags inner)
    = S (length (List.filter (fun c => (c =? COMMA)%N) inner)) /\
  currentTags [] = [[]] /\
  forall t, t ∈ currentTags inner ->
    (COMMA ∉ t) /\ (forall c, c ∈ t -> isQuote c = false) /\
    (forall c, c ∈ t -> c ∈ inner).
Proof.
  split_and!.
  - unfold currentTags. by rewrite length_map, split_length.
  - reflexivity.
  - intros t Ht. by apply currentTags_elem.
Qed.

Lemma trimStart_spaces s : (forall c, c ∈ s -> isSpace c = true) -> trimStart s = [].
Proof.
  induction s as [|c s IH]; [done|]. intros H. simpl.
  rewrite (H c) by left. apply IH. intros x Hx. apply H. by right.
Qed.

(** Brackets that hold white space only are read as one empty tag. *)
Lemma currentTags_spaces inner :
  (forall c, c ∈ inner -> isSpace c = true) -> currentTags inner = [[]].
Proof.
  intros H. unfold currentTags. rewrite split_last.
  - simpl. rewrite replaceAll_quote. unfold trim.
    by rewrite trimStart_spaces.
  - intros Hc. by specialize (H _ Hc).
Qed.

(** X6: a tag field with nothing between its brackets is read as
    holding the empty tag, and the merge writes that tag first, before
    the new ones. *)
Theorem applyTags_empty_brackets content mt existing tags :
  exec frontmatterRegex content = Some mt ->
  exec tagsGroupRegex (groupText mt 1) = Some existing ->
  forallb isSpace (groupText existing 1) = true ->
  dollarFree (groupText mt 1) = true ->
  forallb dollarFree tags = true ->
  NoDup ([] :: tags) ->
  let body := groupText mt 1 in
  applyTagsText content tags =
    fence (take (index existing) body
             ++ tagField ([] :: tags)
             ++ drop (index existing + length (matched existing)) body)
      ++ drop (length (matched mt)) content.
Proof.
  rewrite exec_frontmatter.
  destruct (frontmatter content) as [[body after]|] eqn:Hf; [|done].
  intros [= <-]. change (groupText (Result 0 (fence body) [Some body]) 1) with body.
  rewrite exec_tagsGroup.
  destruct (findTags body) as [[before [[ws inner] post]]|] eqn:Ht; [|done].
  intros [= <-]. cbn [index matched].
  change (groupText (Result (length before) (fieldText ws inner) [Some inner]) 1)
    with inner.
  intros Hsp Hd%dollarFree_spec Htags Hnd. cbn zeta.
  rewrite (merge_field _ _ _ _ _ _ _ _ Hf Ht Hd); cycle 1.
  { intros t Ht'%list_elem_of_In. rewrite forallb_forall in Htags.
    by apply dollarFree_spec, Htags. }
  rewrite currentTags_spaces; cycle 1.
  { intros c Hc%list_elem_of_In. rewrite forallb_forall in Hsp. by apply Hsp. }
  rewrite setOf_fixed by done. change ([[]] ++ tags) with ([] :: tags).
  pose proof (findTags_Some _ _ _ _ _ Ht) as Hb.
  pose proof (frontmatter_Some _ _ _ Hf) as Hc.
  assert (take (length before) body = before) as ->
    by (rewrite Hb; apply take_app_length).
  assert (drop (length before + length (fieldText ws inner)) body = post) as ->.
  { rewrite Hb, app_assoc. apply drop_app_length'. by rewrite length_app. }
  assert (drop (length (fence body)) content = after) as ->
    by (rewrite Hc; apply drop_app_length).
  done.
Qed.

Lemma applyTags_empty_brackets_witness :
  applyTagsText emptyFieldNote [u "x"]
    = fence (take (index emptyField) (groupText emptyFieldHeader 1)
               ++ tagField ([] :: [u "x"])
               ++ drop (index emptyField + length (matched emptyField))
                       (groupText emptyFieldHeader 1))
        ++ drop (length (matched emptyFieldHeader)) emptyFieldNote.
Proof.
  apply (applyTags_empty_brackets emptyFieldNote emptyFieldHeader emptyField [u "x"]);
    try reflexivity.
  apply (bool_decide_unpack (NoDup _)). vm_compute. exact I.
Defined.

Lemma readable_spec tags :
  forallb readable tags = true ->
  forall t, t ∈ tags -> forall c, c ∈ t ->
    c <> COMMA /\ isQuote c = false /\ isLineTerminator c = false.
Proof.
  intros H t Ht c Hc. rewrite forallb_forall in H.
  specialize (H t (proj1 (list_elem_of_In _ _) Ht)). unfold readable in H.
  rewrite forallb_forall in H.
  specialize (H c (proj1 (list_elem_of_In _ _) Hc)).
  destruct (N.eqb_spec c COMMA); [done|].
  destruct (isQuote c); [done|]. destruct (isLineTerminator c); done.
Qed.

(** X7: the field written for a note without header is read back, by a
    later application, as the very tags that were written, in their
    order and with their repetitions, as long as the list is not empty
    and no tag holds a comma, a quote character or a line terminator. *)
Theorem applyTags_read_back content tags :
  exec frontmatterRegex content = None ->
  tags <> [] ->
  forallb readable tags = true ->
  tagsOf (applyTagsText content tags) = Some tags.
Proof.
  rewrite exec_frontmatter.
  destruct (frontmatter content) as [[body after]|] eqn:Hf; [done|].
  intros _ Hne Hr. pose proof (readable_spec _ Hr) as Hspec.
  assert (forall t c, t ∈ tags -> c ∈ t -> isLineTerminator c = false) as Hline
    by (intros t c Ht Hc; by destruct (Hspec t Ht c Hc) as (_ & _ & ?)).
  rewrite (merge_fresh _ _ Hf).
  assert (frontmatter (fence (tagField tags) ++ NL ++ NL ++ content)
          = Some (tagField tags, NL ++ NL ++ content)) as Hf'.
  { apply closes_frontmatter, closes_line, line_not_LF. by apply tagField_line. }
  pose proof (findTags_fresh tags Hline) as Ht'.
  rewrite (tagsOf_field _ _ _ _ _ _ _ Hf' Ht'). f_equal.
  apply currentTags_join; [done|]. apply Forall_forall. intros t Ht. split.
  - intros Hc. by destruct (Hspec t Ht _ Hc) as (? & _).
  - intros c Hc. by destruct (Hspec t Ht c Hc) as (_ & ? & _).
Qed.

Lemma applyTags_read_back_witness :
  tagsOf (applyTagsText (u "Body") [u "x"; u "x"; u "$&"])
    = Some [u "x"; u "x"; u "$&"].
Proof.
  apply (applyTags_read_back (u "Body") [u "x"; u "x"; u "$&"]); [reflexivity| |reflexivity].
  discriminate.
Defined.

(** X8: the header must begin at the very first code unit, with three
    dashes and a line feed.  A note that begins otherwise, with a
    delimiter line that ends in carriage return and line feed, with a
    blank line or a byte order mark, has no header for [applyTags],
    which puts a new one in front of the one that is there. *)
Theorem applyTags_needs_first_line content tags :
  take 4 content <> u "---" ++ NL ->
  exec frontmatterRegex content = None /\
  applyTagsText content tags = fence (tagField tags) ++ NL ++ NL ++ content.
Proof.
  intros H.
  assert (frontmatter content = None) as Hf.
  { unfold frontmatter.
    destruct (stripPrefix (u "---" ++ NL) content) as [r|] eqn:E; [|done].
    assert (stripPrefix (u "---" ++ NL) content <> None) as Hs by congruence.
    rewrite stripPrefix_take in Hs. destruct Hs. exact H. }
  split; [by rewrite exec_frontmatter, Hf|]. by apply merge_fresh.
Qed.

Lemma applyTags_needs_first_line_witness :
  exec frontmatterRegex crlfNote = None /\
  applyTagsText crlfNote [u "x"] = fence (tagField [u "x"]) ++ NL ++ NL ++ crlfNote.
Proof.
  apply (applyTags_needs_first_line crlfNote [u "x"]). discriminate.
Defined.

End MergerExtras.

(** ** Replies that hold an array of strings *)

Section ReplyExtras.
Import JsString JSON.

Lemma stringBody_safe t r acc :
  jsonSafe t = true -> stringBody (t ++ DQUOTE :: r) acc = Some (rev acc ++ t, r).
Proof.
  revert acc. induction t as [|c t IH]; intros acc H.
  - simpl. by rewrite app_nil_r.
  - simpl in H. apply andb_prop in H as [Hc Ht].
    apply negb_true_iff in Hc. apply orb_false_elim in Hc as [Hc H3].
    apply orb_false_elim in Hc as [H1 H2].
    cbn [app stringBody]. rewrite H1, H2, H3. rewrite IH by done.
    simpl. by rewrite <- app_assoc.
Qed.

Lemma parseValue_quoted f t r :
  jsonSafe t = true -> parseValue (S f) (quoted t ++ r) = POk (JString t) r.
Proof.
  intros H. unfold quoted. cbn [app parseValue skipWs].
  change (isJsonSpace DQUOTE) with false. cbn iota.
  change (DQUOTE =? 91)%N with false. change (DQUOTE =? 123)%N with false.
  change (DQUOTE =? 34)%N with true. cbn iota.
  rewrite <- app_assoc. cbn [app]. by rewrite stringBody_safe.
Qed.

Lemma parseValue_space f s : parseValue f (32%N :: s) = parseValue f s.
Proof. by destruct f. Qed.

Lemma parseElements_S n s acc :
  parseElements (S n) s acc =
    match parseValue n s with
    | POk v r =>
        match skipWs r with
        | c :: t =>
            if (c =? 44)%N then parseElements n t (v :: acc)
            else if (c =? 93)%N then POk (JArray (rev (v :: acc))) t
            else PErr
        | [] => PErr
        end
    | PErr => PErr
    | PFuel => PFuel
    end.
Proof. done. Qed.

Lemma parseElements_strings ts : forall f lead acc more,
  ts <> [] -> forallb jsonSafe ts = true -> length ts < f ->
  lead = [] \/ lead = [32%N] ->
  parseElements f (lead ++ join (u ", ") (map quoted ts) ++ RBRACKET :: more) acc
  = POk (JArray (rev acc ++ (JString <$> ts))) more.
Proof.
  induction ts as [|t ts IH]; intros f lead acc more Hne Hsafe Hf Hlead; [done|].
  simpl in Hsafe. apply andb_prop in Hsafe as [Ht Hts].
  destruct f as [|[|f]]; [simpl in Hf; lia..|].
  assert (forall r, parseValue (S f) (lead ++ quoted t ++ r) = POk (JString t) r)
    as Hv.
  { intros r. destruct Hlead as [->| ->]; cbn [app].
    - by apply parseValue_quoted.
    - rewrite parseValue_space. by apply parseValue_quoted. }
  destruct ts as [|t2 ts].
  - cbn [map join]. rewrite parseElements_S, Hv. cbn [skipWs].
    change (isJsonSpace RBRACKET) with false. cbn iota.
    change (RBRACKET =? 44)%N with false. change (RBRACKET =? 93)%N with true.
    cbn iota. reflexivity.
  - change (join (u ", ") (map quoted (t :: t2 :: ts)))
      with (quoted t ++ u ", " ++ join (u ", ") (map quoted (t2 :: ts))).
    rewrite <- !app_assoc. rewrite parseElements_S, Hv.
    change (u ", " ++ ?x) with (COMMA :: 32%N :: x).
    cbn [skipWs]. change (isJsonSpace COMMA) with false. cbn iota.
    change (COMMA =? 44)%N with true. cbn iota.
    pose proof (IH (S f) [32%N] (JString t :: acc) more) as H. cbn [app] in H.
    rewrite H; [|done|done|simpl in *; lia|by right].
    do 2 f_equal. simpl. by rewrite <- app_assoc.
Qed.

Lemma parseValue_jsonArray ts f more :
  forallb jsonSafe ts = true -> length ts < f ->
  parseValue (S f) (jsonArray ts ++ more) = POk (JArray (JString <$> ts)) more.
Proof.
  intros Hsafe Hf. unfold jsonArray. rewrite <- !app_assoc.
  cbn [app parseValue skipWs]. change (isJsonSpace LBRACKET) with false. cbn iota.
  change (LBRACKET =? 91)%N with true. cbn iota.
  destruct ts as [|t ts].
  - cbn [map join app skipWs]. change (isJsonSpace RBRACKET) with false. cbn iota.
    change (RBRACKET =? 93)%N with true. done.
  - pose proof (parseElements_strings (t :: ts) f [] [] more) as H.
    cbn [app rev] in H.
    assert (exists y, join (u ", ") (map quoted (t :: ts)) ++ RBRACKET :: more
                      = DQUOTE :: y) as [y Hy].
    { destruct ts; cbn [map join]; unfold quoted; eexists; reflexivity. }
    rewrite Hy. cbn [skipWs]. change (isJsonSpace DQUOTE) with false. cbn iota.
    change (DQUOTE =? 93)%N with false. cbn iota. rewrite <- Hy.
    apply H; [done|done|done|by left].
Qed.

Lemma length_join_quoted ts : length ts <= length (join (u ", ") (map quoted ts)).
Proof.
  induction ts as [|t [|t2 ts] IH]; [done| |].
  - cbn [map join]. unfold quoted. simpl. lia.
  - change (join (u ", ") (map quoted (t :: t2 :: ts)))
      with (quoted t ++ u ", " ++ join (u ", ") (map quoted (t2 :: ts))).
    rewrite !length_app. simpl in *. lia.
Qed.

Lemma skipWs_stops a c b : isJsonSpace c = false -> skipWs (a ++ c :: b) <> [].
Proof.
  intros Hc. induction a as [|x a IH]; simpl.
  - by rewrite Hc.
  - by destruct (isJsonSpace x).
Qed.

(** An array of plain strings parses to these strings. *)
Lemma parse_jsonArray ts :
  forallb jsonSafe ts = true -> parse (jsonArray ts) = Some (JArray (JString <$> ts)).
Proof.
  intros Hsafe. unfold parse.
  pose proof (parseValue_jsonArray ts (2 * length (jsonArray ts)) [] Hsafe) as H.
  rewrite app_nil_r in H. rewrite Nat.add_1_r, H; [done|].
  unfold jsonArray. rewrite !length_app. pose proof (length_join_quoted ts).
  cbn [length]. lia.
Qed.

(** Anything but white space behind the array is a syntax error. *)
Lemma parse_jsonArray_more ts mid c more :
  forallb jsonSafe ts = true -> isJsonSpace c = false ->
  parse (jsonArray ts ++ mid ++ c :: more) = None.
Proof.
  intros Hsafe Hc. unfold parse.
  pose proof (parseValue_jsonArray ts
                (2 * length (jsonArray ts ++ mid ++ c :: more)) (mid ++ c :: more)
                Hsafe) as H.
  rewrite Nat.add_1_r, H.
  - pose proof (skipWs_stops mid c more Hc). by destruct (skipWs _).
  - unfold jsonArray. rewrite !length_app. pose proof (length_join_quoted ts).
    cbn [length]. lia.
Qed.

(** A first block that holds, among text without brackets, one array of
    plain strings gives these strings. *)
Lemma extractTags_jsonArray pre ts post more p :
  LBRACKET ∉ pre -> RBRACKET ∉ post -> forallb jsonSafe ts = true ->
  extractTags (TextBlock (pre ++ jsonArray ts ++ post) :: more) p
    = (inr (JString <$> ts), p).
Proof.
  intros Hpre Hpost Hsafe. unfold extractTags, bind, ret. cbn iota.
  rewrite exec_array.
  assert (findArray (pre ++ jsonArray ts ++ post)
          = Some (pre, (join (u ", ") (map quoted ts), post))) as ->.
  { apply findArray_Some. split_and!; [|done..].
    unfold jsonArray. by rewrite <- !app_assoc. }
  cbn [fmap option_fmap option_map matched].
  change ([LBRACKET] ++ join (u ", ") (map quoted ts) ++ [RBRACKET])
    with (jsonArray ts).
  by rewrite parse_jsonArray.
Qed.

(** A closing bracket behind the array makes the pattern take
    everything up to the last one, and the parse fails. *)
Lemma extractTags_trailing_bracket pre ts mid post more p :
  LBRACKET ∉ pre -> RBRACKET ∉ post -> forallb jsonSafe ts = true ->
  extractTags (TextBlock (pre ++ jsonArray ts ++ mid ++ [RBRACKET] ++ post) :: more) p
    = (inl SyntaxError, p).
Proof.
  intros Hpre Hpost Hsafe. unfold extractTags, bind, ret, throw. cbn iota.
  rewrite exec_array.
  assert (findArray (pre ++ jsonArray ts ++ mid ++ [RBRACKET] ++ post)
          = Some (pre, (join (u ", ") (map quoted ts) ++ [RBRACKET] ++ mid, post)))
    as ->.
  { apply findArray_Some. split_and!; [|done..].
    unfold jsonArray. by rewrite <- !app_assoc. }
  cbn [fmap option_fmap option_map matched].
  replace ([LBRACKET] ++ (join (u ", ") (map quoted ts) ++ [RBRACKET] ++ mid)
             ++ [RBRACKET])
    with (jsonArray ts ++ mid ++ RBRACKET :: [])
    by (unfold jsonArray; by rewrite <- !app_assoc).
  by rewrite parse_jsonArray_more.
Qed.

End ReplyExtras.

(** ** The commands, the requests and the settings *)

Section PluginExtras.
Variable remote : nat -> Anthropic -> MessageRequest -> exn + list ContentBlock.
Variable mergeUntyped : jsstring -> list JSON.value -> exn + jsstring.

(** What a suggestion request leaves behind: the request in the record,
    and nothing else. *)
Lemma suggestTags_sent content p c :
  client p = Some c ->
  exists r,
    suggestTags remote content p
      = (r, withRequest c (requestFor (settings p) content) p) /\
    (forall e,
       remote (length (requests p)) c (requestFor (settings p) content) = inl e ->
       r = inl e).
Proof.
  intros Hc. rewrite (suggestTags_client remote _ _ _ Hc). cbn zeta.
  fold (requestFor (settings p) content).
  destruct (remote _ _ _) as [e|blocks].
  - eexists. split; [done|]. by intros e' [= <-].
  - pose proof (extractTags_state blocks
                  (withRequest c (requestFor (settings p) content) p)) as H.
    destruct (extractTags blocks _) as [r p']. simpl in H. subst p'.
    eexists. split; [done|]. by intros e' ?.
Qed.

(** X10: with a client handle, [suggestTags] records exactly one request,
    made of the model of the settings, 200 tokens and the prompt over
    the first 3000 code units of the note, and changes nothing else,
    whatever the remote answers; an error of the remote is thrown on as
    it is; the note beyond its first 3000 code units plays no part. *)
Theorem suggestTags_request content p c :
  client p = Some c ->
  (suggestTags remote content p).2
    = withRequest c (Request (model (settings p)) 200
                       (prompt (settings p) (take 3000 content))) p /\
  (forall e,
     remote (length (requests p)) c
       (Request (model (settings p)) 200 (prompt (settings p) (take 3000 content)))
       = inl e ->
     (suggestTags remote content p).1 = inl e) /\
  suggestTags remote (take 3000 content) p = suggestTags remote content p.
Proof.
  intros Hc. destruct (suggestTags_sent content p c Hc) as (r & Hs & He).
  rewrite Hs. split_and!; [done|exact He|].
  unfold suggestTags, JsString.slice0. by rewrite take_take, Nat.min_id.
Qed.

(** X11: a reply whose first block holds, among text without brackets,
    one array of plain strings makes [suggestTags] return these strings,
    in their order and with their repetitions. *)
Theorem suggestTags_array content p c pre ts post more :
  client p = Some c ->
  remote (length (requests p)) c
    (Request (model (settings p)) 200 (prompt (settings p) (take 3000 content)))
    = inr (TextBlock (pre ++ jsonArray ts ++ post) :: more) ->
  LBRACKET ∉ pre -> RBRACKET ∉ post -> forallb jsonSafe ts = true ->
  (suggestTags remote content p).1 = inr (JSON.JString <$> ts).
Proof.
  intros Hc Hr Hpre Hpost Hsafe. rewrite (suggestTags_client remote _ _ _ Hc).
  cbn zeta. unfold JsString.slice0. rewrite Hr.
  by rewrite extractTags_jsonArray.
Qed.

(** X12: when a closing bracket follows the array anywhere in the first
    block, a second array or a bracketed remark, the pattern reaches to
    the last one and [suggestTags] throws a syntax error. *)
Theorem suggestTags_second_bracket content p c pre ts mid post more :
  client p = Some c ->
  remote (length (requests p)) c
    (Request (model (settings p)) 200 (prompt (settings p) (take 3000 content)))
    = inr (TextBlock (pre ++ jsonArray ts ++ mid ++ [RBRACKET] ++ post) :: more) ->
  LBRACKET ∉ pre -> RBRACKET ∉ post -> forallb jsonSafe ts = true ->
  (suggestTags remote content p).1 = inl SyntaxError.
Proof.
  intros Hc Hr Hpre Hpost Hsafe. rewrite (suggestTags_client remote _ _ _ Hc).
  cbn zeta. unfold JsString.slice0. rewrite Hr.
  by rewrite extractTags_trailing_bracket.
Qed.

(** What [applyTags] leaves behind: at most the text of the one note. *)
Lemma applyTags_effect file tags p :
  exists r V,
    applyTags mergeUntyped file tags p = (r, withVault V p) /\
    (V = vault p \/ exists old text, vault p !! file = Some old /\ V = <[file := text]> (vault p)).
Proof.
  unfold applyTags, bind, vaultRead, vaultModify, throw.
  assert (withVault (vault p) p = p) as Hp by (by destruct p).
  destruct (vault p !! file) as [content|] eqn:Hv.
  - destruct (strings tags) as [ts|].
    + rewrite Hv. eexists _, _. split; [done|]. right. eauto.
    + destruct (mergeUntyped content tags) as [e|text].
      * eexists _, (vault p). rewrite Hp. split; [done|]. by left.
      * rewrite Hv. eexists _, _. split; [done|]. right. eauto.
  - eexists _, (vault p). rewrite Hp. split; [done|]. by left.
Qed.

Lemma strings_fmap ts : strings (JSON.JString <$> ts) = Some ts.
Proof. induction ts as [|t ts IH]; [done|]. cbn. by rewrite IH. Qed.

(** [applyTags] for tags that are strings and a note of the vault. *)
Lemma applyTags_typed file ts p content :
  vault p !! file = Some content ->
  applyTags mergeUntyped file (JSON.JString <$> ts) p
    = (inr tt, withVault (<[file := applyTagsText content ts]> (vault p)) p).
Proof.
  intros Hv. unfold applyTags, bind, vaultRead, vaultModify.
  by rewrite Hv, strings_fmap, Hv.
Qed.

(** X9: [applyTags] changes the text of the one note and nothing else:
    no other note, no note created or deleted, no request, no notice,
    no setting. *)
Theorem applyTags_frame file tags p :
  let p' := (applyTags mergeUntyped file tags p).2 in
  (forall g, g <> file -> vault p' !! g = vault p !! g) /\
  dom (vault p') = dom (vault p) /\
  settings p' = settings p /\ saved p' = saved p /\ client p' = client p /\
  requests p' = requests p /\ notices p' = notices p /\ console p' = console p /\
  activeView p' = activeView p /\ modal p' = modal p.
Proof.
  intros p'. unfold p'.
  destruct (applyTags_effect file tags p) as (r & V & -> & HV). cbn.
  split_and!; try done.
  - intros g Hg. destruct HV as [->|(old & text & _ & ->)]; [done|].
    by rewrite lookup_insert_ne.
  - destruct HV as [->|(old & text & Hold & ->)]; [done|].
    apply dom_insert_lookup_L. by eexists.
Qed.

(** The whole of [tagCurrentNote]. *)
Lemma tagCurrentNote_effect p :
  exists N R M,
    tagCurrentNote remote p
      = (inr tt, MkPlugin (settings p) (client p) (saved p) (vault p) (activeView p)
                   (notices p ++ N) (console p) (requests p ++ R) M) /\
    (R = [] \/
     exists c file content,
       client p = Some c /\ activeView p = Some (Some file) /\
       vault p !! file = Some content /\
       R = [(c, requestFor (settings p) content)]) /\
    (M = modal p \/
     exists file tags,
       activeView p = Some (Some file) /\ tags <> [] /\ R <> [] /\
       M = Some (file, tags)).
Proof.
  assert (forall N, withNotice N p
            = MkPlugin (settings p) (client p) (saved p) (vault p) (activeView p)
                (notices p ++ [N]) (console p) (requests p ++ []) (modal p)) as Hn.
  { intros N. unfold withNotice. by rewrite app_nil_r. }
  unfold tagCurrentNote, bind at 1, gets at 1.
  destruct (client p) as [c|] eqn:Hc.
  2:{ exists [NoticeSetKey], [], (modal p). unfold notice, update.
      rewrite Hn, ?Hc. split_and!; [done|by left..]. }
  unfold bind at 1, gets at 1.
  destruct (activeView p) as [[file|]|] eqn:Hview.
  3:{ exists [NoticeNoActiveNote], [], (modal p). unfold notice, update.
      rewrite Hn, ?Hc, ?Hview. split_and!; [done|by left..]. }
  2:{ exists [], [], (modal p). unfold ret. rewrite !app_nil_r.
      split_and!; [|by left..]. destruct p; simpl in *; by subst. }
  unfold bind at 1, notice at 1, update at 1.
  set (p0 := withNotice NoticeAnalyzing p).
  unfold tryCatch, bind at 1, vaultRead.
  change (vault p0) with (vault p).
  destruct (vault p !! file) as [content|] eqn:Hv.
  2:{ exists [NoticeAnalyzing; NoticeError HostError], [], (modal p).
      unfold notice, update, p0, withNotice. cbn. rewrite app_nil_r, <- app_assoc.
      rewrite ?Hc, ?Hview. split_and!; [done|by left..]. }
  destruct (suggestTags_sent content p0 c) as (r & Hs & _); [done|].
  unfold bind at 1. rewrite Hs. change (settings p0) with (settings p).
  assert (exists c0 file0 content0,
            Some c = Some c0 /\ Some (Some file) = Some (Some file0) /\
            vault p !! file0 = Some content0 /\
            [(c, requestFor (settings p) content)]
              = [(c0, requestFor (settings p) content0)]) as HR
    by (by exists c, file, content).
  destruct r as [e|tags].
  - exists [NoticeAnalyzing; NoticeError e], [(c, requestFor (settings p) content)],
      (modal p).
    unfold notice, update, p0, withNotice, withRequest. cbn.
    rewrite <- app_assoc, ?Hc, ?Hview. split_and!; [done|by right|by left].
  - destruct tags as [|t tags]; cbn [length Nat.eqb].
    + exists [NoticeAnalyzing; NoticeNoTags], [(c, requestFor (settings p) content)],
        (modal p).
      unfold notice, update, p0, withNotice, withRequest. cbn.
      rewrite <- app_assoc, ?Hc, ?Hview. split_and!; [done|by right|by left].
    + exists [NoticeAnalyzing], [(c, requestFor (settings p) content)],
        (Some (file, t :: tags)).
      unfold update, p0, withModal, withNotice, withRequest. cbn.
      rewrite ?Hc, ?Hview. split_and!; [done|by right|].
      right. by exists file, (t :: tags).
Qed.


(** The try block of one note, for a note that is sent. *)
Lemma tagOne_long total file processed p c content :
  client p = Some c ->
  vault p !! file = Some content ->
  longEnough content = true ->
  exists r V N,
    tagOne remote mergeUntyped total file processed p
      = (r, MkPlugin (settings p) (Some c) (saved p) V (activeView p) N (console p)
              (requests p ++ [(c, requestFor (settings p) content)]) (modal p)) /\
    (V = vault p \/
     autoApply (settings p) = true /\ exists text, V = <[file := text]> (vault p)) /\
    (r = inr (S processed) /\
       N = notices p ++ (if S processed mod 10 =? 0
                         then [NoticeProgress (S processed) total] else [])
     \/ (exists e, r = inl e) /\ N = notices p).
Proof.
  intros Hc Hv Hlen. unfold longEnough in Hlen. apply negb_true_iff in Hlen.
  unfold tagOne, bind at 1, vaultRead. rewrite Hv, Hlen.
  destruct (suggestTags_sent content p c Hc) as (r1 & Hs & _).
  unfold bind at 1. rewrite Hs.
  set (p1 := withRequest c (requestFor (settings p) content) p).
  assert (p1 = MkPlugin (settings p) (Some c) (saved p) (vault p) (activeView p)
                 (notices p) (console p)
                 (requests p ++ [(c, requestFor (settings p) content)]) (modal p))
    as Hp1 by (unfold p1, withRequest; by rewrite Hc).
  destruct r1 as [e|tags].
  - eexists _, _, _. rewrite Hp1. split; [done|]. split; [by left|]. right. eauto.
  - unfold bind at 1, gets at 1. unfold bind at 1.
    destruct ((0 <? length tags) && autoApply (settings p1)) eqn:Hauto.
    + destruct (applyTags_effect file tags p1) as (r2 & V & Ha & HV).
      rewrite Ha. apply andb_prop in Hauto as [_ Hauto].
      assert (V = vault p \/
              autoApply (settings p) = true /\ exists text, V = <[file := text]> (vault p))
        as HV'.
      { destruct HV as [->|(old & text & _ & ->)]; [by left|]. right. eauto. }
      destruct r2 as [e|[]].
      * eexists _, V, _. rewrite Hp1. split; [done|]. split; [done|]. right. eauto.
      * unfold bind, notice, update, ret.
        destruct (S processed mod 10 =? 0); eexists _, V, _; rewrite Hp1;
          (split; [done|]); (split; [done|]); left; split; try done.
        by rewrite app_nil_r.
    + unfold bind, notice, update, ret.
      destruct (S processed mod 10 =? 0); eexists _, _, _; rewrite Hp1;
        (split; [done|]); (split; [by left|]); left; split; try done.
      by rewrite app_nil_r.
Qed.

Lemma tagOne_short total file processed p content :
  vault p !! file = Some content ->
  longEnough content = false ->
  tagOne remote mergeUntyped total file processed p = (inr processed, p).
Proof.
  intros Hv Hlen. unfold longEnough in Hlen. apply negb_false_iff in Hlen.
  unfold tagOne, bind at 1, vaultRead. by rewrite Hv, Hlen.
Qed.

Lemma progressNotices_none total a : progressNotices total a a = [].
Proof. unfold progressNotices. by rewrite Nat.sub_diag. Qed.

Lemma progressNotices_one total a :
  progressNotices total a (S a)
    = if S a mod 10 =? 0 then [NoticeProgress (S a) total] else [].
Proof.
  unfold progressNotices.
  pose proof (Nat.div_mod_eq (S a) 10). pose proof (Nat.div_mod_eq a 10).
  pose proof (Nat.mod_upper_bound a 10). pose proof (Nat.mod_upper_bound (S a) 10).
  destruct (Nat.eqb_spec (S a mod 10) 0) as [Hz|Hz].
  - assert (S a / 10 - a / 10 = 1) as -> by lia. cbn [seq map]. do 2 f_equal. lia.
  - by assert (S a / 10 - a / 10 = 0) as -> by lia.
Qed.

Lemma progressNotices_app total a b c :
  a <= b -> b <= c ->
  progressNotices total a b ++ progressNotices total b c = progressNotices total a c.
Proof.
  intros Hab Hbc. unfold progressNotices. rewrite <- map_app. f_equal.
  pose proof (Nat.div_mod_eq a 10). pose proof (Nat.div_mod_eq b 10).
  pose proof (Nat.div_mod_eq c 10).
  pose proof (Nat.mod_upper_bound a 10). pose proof (Nat.mod_upper_bound b 10).
  pose proof (Nat.mod_upper_bound c 10).
  replace (c / 10 - a / 10) with ((b / 10 - a / 10) + (c / 10 - b / 10)) by lia.
  rewrite seq_app. do 2 f_equal. lia.
Qed.

Lemma sent_cons v file files :
  sent v (file :: files)
    = (if from_option longEnough false (v !! file) then 1 else 0) + sent v files.
Proof. unfold sent. simpl. by destruct (from_option _ _ _). Qed.

Lemma sent_agree v v' files :
  (forall f, f ∈ files -> v' !! f = v !! f) -> sent v' files = sent v files.
Proof.
  intros H. unfold sent. f_equal. apply List.filter_ext_in.
  intros f Hf%list_elem_of_In. by rewrite H.
Qed.

(** The loop of [tagAllNotes] over notes of the vault, each listed once. *)
Lemma forEach_effect total files : forall processed p c,
  client p = Some c -> NoDup files ->
  (forall f, f ∈ files -> is_Some (vault p !! f)) ->
  exists n V R C,
    forEach remote mergeUntyped total files processed p
      = (inr n, MkPlugin (settings p) (Some c) (saved p) V (activeView p)
                  (notices p ++ progressNotices total processed n)
                  (console p ++ C) (requests p ++ R) (modal p)) /\
    processed <= n /\
    dom V = dom (vault p) /\
    (forall g, g ∉ files -> V !! g = vault p !! g) /\
    (autoApply (settings p) = false -> V = vault p) /\
    length R = sent (vault p) files /\
    Forall (fun cr => cr.1 = c /\ reqModel cr.2 = model (settings p)
                      /\ reqMaxTokens cr.2 = 200) R /\
    n + length C = processed + sent (vault p) files /\
    Forall (fun fe => fe.1 ∈ files) C.
Proof.
  induction files as [|file files IH]; intros processed p c Hc Hnd Hdom.
  - exists processed, (vault p), [], []. split_and!; try done.
    cbn [forEach]. unfold ret. rewrite progressNotices_none, !app_nil_r.
    destruct p; simpl in *; by subst.
  - apply NoDup_cons in Hnd as [Hnotin Hnd].
    destruct (Hdom file) as [content Hv]; [by left|].
    rewrite forEach_cons, sent_cons, Hv. cbn [from_option].
    (* what every continuation needs *)
    assert (forall p1 V1 N1 C1 R1 k,
      p1 = MkPlugin (settings p) (Some c) (saved p) V1 (activeView p)
             (notices p ++ N1) (console p ++ C1) (requests p ++ R1) (modal p) ->
      (V1 = vault p \/
       autoApply (settings p) = true /\ exists text, V1 = <[file := text]> (vault p)) ->
      processed <= k ->
      N1 = progressNotices total processed k ->
      Forall (fun cr => cr.1 = c /\ reqModel cr.2 = model (settings p)
                        /\ reqMaxTokens cr.2 = 200) R1 ->
      Forall (fun fe => fe.1 ∈ file :: files) C1 ->
      length R1 = (if longEnough content then 1 else 0) ->
      k + length C1 = processed + (if longEnough content then 1 else 0) ->
      exists n V R C,
        forEach remote mergeUntyped total files k p1
          = (inr n, MkPlugin (settings p) (Some c) (saved p) V (activeView p)
                      (notices p ++ progressNotices total processed n)
                      (console p ++ C) (requests p ++ R) (modal p)) /\
        processed <= n /\
        dom V = dom (vault p) /\
        (forall g, g ∉ file :: files -> V !! g = vault p !! g) /\
        (autoApply (settings p) = false -> V = vault p) /\
        length R = (if longEnough content then 1 else 0) + sent (vault p) files /\
        Forall (fun cr => cr.1 = c /\ reqModel cr.2 = model (settings p)
                          /\ reqMaxTokens cr.2 = 200) R /\
        n + length C
          = processed + ((if longEnough content then 1 else 0) + sent (vault p) files) /\
        Forall (fun fe => fe.1 ∈ file :: files) C) as Hcont.
    { intros p1 V1 N1 C1 R1 k -> HV1 Hk -> HR1 HC1 HlenR HlenC.
      assert (forall g, g <> file -> V1 !! g = vault p !! g) as Hframe.
      { intros g Hg. destruct HV1 as [->|(_ & text & ->)]; [done|].
        by rewrite lookup_insert_ne. }
      assert (dom V1 = dom (vault p)) as Hdom1.
      { destruct HV1 as [->|(_ & text & ->)]; [done|].
        apply dom_insert_lookup_L. by eexists. }
      destruct (IH k (MkPlugin (settings p) (Some c) (saved p) V1 (activeView p)
                        (notices p ++ progressNotices total processed k)
                        (console p ++ C1) (requests p ++ R1) (modal p))
                  c eq_refl Hnd)
        as (n & V & R & C & Hrun & Hn & HdomV & HfrV & Hdry & HR & HallR & HC & HallC).
      { intros f Hf. cbn [vault]. rewrite Hframe; [apply Hdom; by right|].
        by intros ->. }
      cbn [settings client saved vault activeView notices console requests modal]
        in *.
      assert (sent V1 files = sent (vault p) files) as Hsent.
      { apply sent_agree. intros f Hf. apply Hframe. by intros ->. }
      rewrite Hsent in *.
      exists n, V, (R1 ++ R), (C1 ++ C). split_and!.
      - rewrite Hrun. rewrite <- !app_assoc.
        by rewrite (progressNotices_app total processed k n) by done.
      - lia.
      - by rewrite HdomV.
      - intros g Hg. rewrite HfrV, Hframe; [done| |].
        + intros ->. apply Hg. by left.
        + intros Hin. apply Hg. by right.
      - intros Hoff. rewrite (Hdry Hoff).
        destruct HV1 as [->|(Hon & _)]; [done|congruence].
      - rewrite length_app. lia.
      - apply Forall_app. split; [done|]. done.
      - rewrite length_app. lia.
      - apply Forall_app. split; [done|].
        eapply Forall_impl; [exact HallC|]. intros fe Hfe. by right. }
    destruct (longEnough content) eqn:Hlong.
    + destruct (tagOne_long total file processed p c content Hc Hv Hlong)
        as (r & V1 & N1 & Hone & HV1 & Hr).
      rewrite Hone.
      destruct Hr as [[-> ->]|[[e ->] ->]].
      * eapply (Hcont _ V1 _ [] [_] (S processed)).
        -- by rewrite (app_nil_r (console p)).
        -- done.
        -- lia.
        -- by rewrite progressNotices_one.
        -- by repeat constructor.
        -- constructor.
        -- done.
        -- simpl. lia.
      * eapply (Hcont _ V1 [] [(file, e)] [_] processed).
        -- unfold withError. cbn. by rewrite (app_nil_r (notices p)).
        -- done.
        -- lia.
        -- by rewrite progressNotices_none.
        -- by repeat constructor.
        -- repeat constructor.
        -- done.
        -- simpl. lia.
    + rewrite (tagOne_short total file processed p content Hv Hlong).
      eapply (Hcont p (vault p) [] [] [] processed).
      * rewrite !app_nil_r. destruct p; simpl in *; by subst.
      * by left.
      * lia.
      * by rewrite progressNotices_none.
      * constructor.
      * constructor.
      * done.
      * simpl. lia.
Qed.

Lemma getMarkdownFiles_NoDup p : NoDup (getMarkdownFiles p).
Proof. apply NoDup_fst_map_to_list. Qed.

Lemma getMarkdownFiles_elem p f : f ∈ getMarkdownFiles p -> is_Some (vault p !! f).
Proof.
  unfold getMarkdownFiles. intros ([g content] & -> & Hin)%list_elem_of_fmap.
  apply elem_of_map_to_list in Hin. by eexists.
Qed.

Lemma sent_le v files : sent v files <= length files.
Proof. unfold sent. apply List.filter_length_le. Qed.

(** The whole of [tagAllNotes] when there is a client handle. *)
Lemma tagAllNotes_effect p c :
  client p = Some c ->
  let files := getMarkdownFiles p in
  exists n V R C,
    tagAllNotes remote mergeUntyped p
      = (inr tt,
         MkPlugin (settings p) (Some c) (saved p) V (activeView p)
           (notices p ++ [NoticeTagging (length files)]
              ++ progressNotices (length files) 0 n ++ [NoticeDone n])
           (console p ++ C) (requests p ++ R) (modal p)) /\
    dom V = dom (vault p) /\
    (autoApply (settings p) = false -> V = vault p) /\
    length R = sent (vault p) files /\
    Forall (fun cr => cr.1 = c /\ reqModel cr.2 = model (settings p)
                      /\ reqMaxTokens cr.2 = 200) R /\
    n + length C = sent (vault p) files /\
    Forall (fun fe => fe.1 ∈ files) C.
Proof.
  intros Hc files. unfold tagAllNotes, bind at 1, gets at 1. rewrite Hc.
  unfold bind at 1, gets at 1. fold files.
  unfold bind at 1, notice at 1, update at 1.
  destruct (forEach_effect (length files) files 0
              (withNotice (NoticeTagging (length files)) p) c)
    as (n & V & R & C & Hrun & _ & HdomV & _ & Hdry & HR & HallR & HC & HallC).
  { done. }
  { apply getMarkdownFiles_NoDup. }
  { intros f Hf. by apply getMarkdownFiles_elem. }
  cbn [withNotice settings client saved vault activeView notices console requests
       modal] in *.
  unfold bind. rewrite Hrun. unfold notice, update.
  exists n, V, R, C. split_and!; try done.
  unfold withNotice. cbn. by rewrite <- !app_assoc.
Qed.

(** X14: with the automatic application switched off, [tagAllNotes]
    writes no note, whatever the remote model answers. *)
Theorem tagAllNotes_dry_run p :
  autoApply (settings p) = false ->
  vault (tagAllNotes remote mergeUntyped p).2 = vault p.
Proof.
  intros Hoff. destruct (client p) as [c|] eqn:Hc.
  - destruct (tagAllNotes_effect p c Hc) as (n & V & R & C & -> & _ & Hdry & _).
    cbn. by apply Hdry.
  - by rewrite (tagAllNotes_no_client remote mergeUntyped p Hc).
Qed.

(** X16: the notices of [tagAllNotes]: the number of notes, one
    progress notice for each multiple of ten the count reaches, and the
    count at the end, which is at most the number of notes. *)
Theorem tagAllNotes_notices p c :
  client p = Some c ->
  let total := length (getMarkdownFiles p) in
  exists n,
    n <= total /\
    notices (tagAllNotes remote mergeUntyped p).2
      = notices p ++ [NoticeTagging total]
          ++ map (fun k => NoticeProgress (10 * k) total) (seq 1 (n / 10))
          ++ [NoticeDone n].
Proof.
  intros Hc total.
  destruct (tagAllNotes_effect p c Hc)
    as (n & V & R & C & -> & _ & _ & _ & _ & HC & _).
  exists n. split.
  - pose proof (sent_le (vault p) (getMarkdownFiles p)). unfold total. lia.
  - cbn. unfold progressNotices. by rewrite Nat.sub_0_r.
Qed.

(** X17: [tagAllNotes] never throws, creates or deletes no note, and
    leaves the settings, the saved data, the client handle, the active
    view and the modal as they are. *)
Theorem tagAllNotes_frame p :
  let p' := (tagAllNotes remote mergeUntyped p).2 in
  (tagAllNotes remote mergeUntyped p).1 = inr tt /\
  dom (vault p') = dom (vault p) /\
  settings p' = settings p /\ saved p' = saved p /\ client p' = client p /\
  activeView p' = activeView p /\ modal p' = modal p.
Proof.
  intros p'. unfold p'. destruct (client p) as [c|] eqn:Hc.
  - destruct (tagAllNotes_effect p c Hc) as (n & V & R & C & -> & HdomV & _).
    by cbn.
  - by rewrite (tagAllNotes_no_client remote mergeUntyped p Hc).
Qed.

(** X18: with the automatic application on, the tags of the reply are
    merged into the note as they come, a tag that the reply holds twice
    being handed on twice; the note counts. *)
Theorem tagOne_auto_apply total file processed p c content pre ts post more :
  client p = Some c ->
  vault p !! file = Some content ->
  longEnough content = true ->
  autoApply (settings p) = true ->
  remote (length (requests p)) c
    (Request (model (settings p)) 200 (prompt (settings p) (take 3000 content)))
    = inr (TextBlock (pre ++ jsonArray ts ++ post) :: more) ->
  LBRACKET ∉ pre -> RBRACKET ∉ post -> forallb jsonSafe ts = true -> ts <> [] ->
  (tagOne remote mergeUntyped total file processed p).1 = inr (S processed) /\
  vault (tagOne remote mergeUntyped total file processed p).2
    = <[file := applyTagsText content ts]> (vault p).
Proof.
  intros Hc Hv Hlong Hauto Hr Hpre Hpost Hsafe Hne.
  unfold longEnough in Hlong. apply negb_true_iff in Hlong.
  enough (exists p',
            tagOne remote mergeUntyped total file processed p = (inr (S processed), p')
            /\ vault p' = <[file := applyTagsText content ts]> (vault p))
    as (p' & -> & Hp') by done.
  unfold tagOne, bind at 1, vaultRead. rewrite Hv, Hlong.
  unfold bind at 1. rewrite (suggestTags_client remote _ _ _ Hc). cbn zeta.
  unfold JsString.slice0. rewrite Hr, extractTags_jsonArray by done.
  set (p1 := withRequest c _ p).
  unfold bind at 1, gets at 1. change (settings p1) with (settings p).
  assert ((0 <? length (JSON.JString <$> ts)) = true) as -> by (by destruct ts).
  rewrite Hauto. cbn [andb].
  unfold bind at 1. rewrite (applyTags_typed file ts p1 content Hv).
  unfold bind, notice, update, ret. subst p1.
  destruct (S processed mod 10 =? 0); by eexists.
Qed.

(** The handlers of the settings tab: the new settings are saved, and a
    client handle is made when the key is not empty. *)
Lemma saveSettings_effect p :
  saveSettings p
    = (inr tt,
       MkPlugin (settings p)
         (if bool_decide (apiKey (settings p) = []) then client p
          else Some (Client (apiKey (settings p))))
         (store (settings p)) (vault p) (activeView p) (notices p) (console p)
         (requests p) (modal p)).
Proof.
  unfold saveSettings, initClient, bind, gets, update, ret, withSaved, withClient. cbn.
  by destruct (bool_decide _).
Qed.

Lemma initClient_effect p :
  initClient p
    = (inr tt,
       MkPlugin (settings p)
         (if bool_decide (apiKey (settings p) = []) then client p
          else Some (Client (apiKey (settings p))))
         (saved p) (vault p) (activeView p) (notices p) (console p)
         (requests p) (modal p)).
Proof.
  unfold initClient, bind, gets, update, ret, withClient. cbn.
  destruct (bool_decide _); [|done]. by destruct p.
Qed.

Lemma onload_effect p :
  onload p = initClient (withSettings (assign DEFAULT_SETTINGS (saved p)) p).
Proof. done. Qed.

Lemma store_assign s : assign DEFAULT_SETTINGS (store s) = s.
Proof. by destruct s. Qed.

(** What holds in every state the plugin can reach. *)
Lemma reachable_invariant p :
  reachable remote mergeUntyped p ->
  assign DEFAULT_SETTINGS (saved p) = settings p /\
  (apiKey (settings p) <> [] -> client p = Some (Client (apiKey (settings p)))) /\
  (forall c, client p = Some c -> clientKey c <> []) /\
  Forall (fun cr => clientKey cr.1 <> [] /\ reqMaxTokens cr.2 = 200) (requests p).
Proof.
  induction 1 as [data notes view|p cmd Hreach (Hsaved & Hkey & Hclient & Hreq)].
  - rewrite onload_effect, initClient_effect.
    cbn [snd withSettings created settings client saved requests].
    destruct (bool_decide_reflect
                (apiKey (assign DEFAULT_SETTINGS data) = [])) as [He|Hne].
    + split_and!; [done|done|done|constructor].
    + split_and!; [done|done| |constructor]. by intros c [= <-].
  - assert (forall s',
      let p' := (saveSettings (withSettings s' p)).2 in
      assign DEFAULT_SETTINGS (saved p') = settings p' /\
      (apiKey (settings p') <> [] ->
       client p' = Some (Client (apiKey (settings p')))) /\
      (forall c, client p' = Some c -> clientKey c <> []) /\
      Forall (fun cr => clientKey cr.1 <> [] /\ reqMaxTokens cr.2 = 200)
             (requests p')) as Hset.
    { intros s' p'. unfold p'. rewrite saveSettings_effect. cbn.
      split_and!; [apply store_assign| | |done].
      - intros Hne. by rewrite bool_decide_eq_false_2.
      - intros c. destruct (bool_decide_reflect (apiKey s' = [])) as [He|Hne].
        + apply Hclient.
        + by intros [= <-]. }
    destruct cmd as [v|v|v|v|v| |]; cbn [run].
    + apply (Hset (Settings v (model (settings p)) (maxTags (settings p))
                     (autoApply (settings p)) (language (settings p)))).
    + apply (Hset (Settings (apiKey (settings p)) v (maxTags (settings p))
                     (autoApply (settings p)) (language (settings p)))).
    + apply (Hset (Settings (apiKey (settings p)) (model (settings p)) v
                     (autoApply (settings p)) (language (settings p)))).
    + apply (Hset (Settings (apiKey (settings p)) (model (settings p))
                     (maxTags (settings p)) (autoApply (settings p)) v)).
    + apply (Hset (Settings (apiKey (settings p)) (model (settings p))
                     (maxTags (settings p)) v (language (settings p)))).
    + destruct (tagCurrentNote_effect p) as (N & R & M & -> & HR & _). cbn.
      split_and!; [done..|]. apply Forall_app. split; [done|].
      destruct HR as [->|(c & file & content & Hc & _ & _ & ->)]; [constructor|].
      repeat constructor. by apply Hclient.
    + destruct (client p) as [c|] eqn:Hc.
      * destruct (tagAllNotes_effect p c Hc)
          as (n & V & R & C & -> & _ & _ & _ & HallR & _). cbn.
        split_and!; [done|done| |].
        -- intros c' [= <-]. by apply Hclient.
        -- apply Forall_app. split; [done|].
           eapply Forall_impl; [exact HallR|]. intros [c' r] (Hc' & _ & Hr).
           simpl in *. subst c'. split; [by apply Hclient|done].
      * rewrite (tagAllNotes_no_client remote mergeUntyped p Hc). cbn. by rewrite Hc.
Qed.

(** X19: in every state the plugin can reach, the saved data give back
    the settings in use: loading them again changes nothing. *)
Theorem settings_persisted p :
  reachable remote mergeUntyped p ->
  assign DEFAULT_SETTINGS (saved p) = settings p /\
  settings (loadSettings p).2 = settings p.
Proof.
  intros (Hsaved & _)%reachable_invariant. split; [done|].
  unfold loadSettings, bind, gets, update, withSettings. by cbn.
Qed.

(** X20: in every state the plugin can reach, a key that is set has its
    client handle, made with that very key; no client handle was made
    with the empty key; and every request recorded was sent with a key
    that is not empty, for 200 tokens. *)
Theorem client_follows_key p :
  reachable remote mergeUntyped p ->
  (apiKey (settings p) <> [] -> client p = Some (Client (apiKey (settings p)))) /\
  (forall c, client p = Some c -> clientKey c <> []) /\
  Forall (fun cr => clientKey cr.1 <> [] /\ reqMaxTokens cr.2 = 200) (requests p).
Proof. by intros (_ & ?)%reachable_invariant. Qed.

End PluginExtras.

(** ** The suggestion modal *)

Section ModalExtras.
Import TagSuggestionModal.

Lemma remove_elem tag sel x : x ∈ remove tag sel <-> x ∈ sel /\ x <> tag.
Proof.
  unfold remove. rewrite !list_elem_of_In, filter_In, <- list_elem_of_In.
  unfold eqs. by rewrite negb_true_iff, bool_decide_eq_false.
Qed.

Lemma remove_NoDup tag sel : NoDup sel -> NoDup (remove tag sel).
Proof.
  intros H. apply NoDup_ListNoDup. apply List.NoDup_filter. by apply NoDup_ListNoDup.
Qed.

Lemma addTag_elem sel tag x : x ∈ addTag sel tag <-> x ∈ sel \/ x = tag.
Proof.
  unfold addTag. destruct (bool_decide_reflect (tag ∈ sel)) as [Hin|Hout].
  - split; [by left|]. by intros [?| ->].
  - rewrite elem_of_app, list_elem_of_singleton. done.
Qed.

Lemma addTag_NoDup sel tag : NoDup sel -> NoDup (addTag sel tag).
Proof.
  intros H. unfold addTag. destruct (bool_decide_reflect (tag ∈ sel)) as [Hin|Hout];
    [done|].
  apply NoDup_app. split_and!; [done| |apply NoDup_singleton].
  by intros x Hx ->%list_elem_of_singleton.
Qed.

(** What a click keeps. *)
Lemma onclick_keeps i m :
  let m' := onclick i m in
  tags m' = tags m /\ file m' = file m /\
  length (buttons m') = length (buttons m) /\
  (NoDup (selected m) -> NoDup (selected m')) /\
  (forall x, x ∈ selected m' -> x ∈ selected m \/ x ∈ tags m).
Proof.
  unfold onclick.
  destruct (tags m !! i) as [tag|] eqn:Ht; [|by auto 10].
  destruct (buttons m !! i) as [b|]; [|by auto 10].
  destruct (bool_decide (tag ∈ selected m)); cbn.
  - rewrite length_insert. split_and!; [done..|apply remove_NoDup|].
    intros x [? _]%remove_elem. by left.
  - rewrite length_insert. split_and!; [done..|apply addTag_NoDup|].
    intros x [?| ->]%addTag_elem; [by left|]. right. by eapply list_elem_of_lookup_2.
Qed.

Lemma clicked_snoc tgs f clicks i :
  clicked tgs f (clicks ++ [i]) = onclick i (clicked tgs f clicks).
Proof. unfold clicked. by rewrite foldl_app. Qed.

(** The clicks change neither the tags nor the note nor the number of
    buttons. *)
Lemma clicked_keeps tgs f clicks :
  tags (clicked tgs f clicks) = tgs /\ file (clicked tgs f clicks) = f /\
  length (buttons (clicked tgs f clicks)) = length tgs.
Proof.
  induction clicks as [|i clicks IH] using rev_ind.
  - cbn. by rewrite length_map.
  - rewrite clicked_snoc. destruct IH as (Ht & Hf & Hb).
    destruct (onclick_keeps i (clicked tgs f clicks)) as (Ht' & Hf' & Hb' & _).
    by rewrite Ht', Hf', Hb'.
Qed.

(** X21: whatever buttons are clicked, in whatever order, the selection
    holds no tag twice and only tags of the suggestion, so this is what
    the apply button hands to [applyTags]; the modal stays with its
    note. *)
Theorem selection_invariant tgs f clicks :
  NoDup (selected (clicked tgs f clicks)) /\
  (forall x, x ∈ selected (clicked tgs f clicks) -> x ∈ tgs) /\
  file (clicked tgs f clicks) = f.
Proof.
  split_and!; [| |apply clicked_keeps].
  - induction clicks as [|i clicks IH] using rev_ind; [apply setOf_NoDup|].
    rewrite clicked_snoc. by apply onclick_keeps.
  - induction clicks as [|i clicks IH] using rev_ind.
    + intros x. cbn. by rewrite setOf_elem.
    + rewrite clicked_snoc. intros x [?|Hx]%onclick_keeps; [by apply IH|].
      destruct (clicked_keeps tgs f clicks) as (<- & _). done.
Qed.

(** X22: when the suggestion holds no tag twice, each button carries
    the class selected exactly when its tag is in the selection,
    whatever was clicked. *)
Theorem buttons_show_selection tgs f clicks i tag :
  NoDup tgs ->
  tgs !! i = Some tag ->
  buttons (clicked tgs f clicks) !! i
    = Some (bool_decide (tag ∈ selected (clicked tgs f clicks))).
Proof.
  intros Hnd. revert i tag. induction clicks as [|j clicks IH] using rev_ind;
    intros i tag Hi.
  - cbn. rewrite list_lookup_fmap, Hi. cbn. f_equal. symmetry.
    apply bool_decide_eq_true_2, setOf_elem. by eapply list_elem_of_lookup_2.
  - rewrite clicked_snoc.
    destruct (clicked_keeps tgs f clicks) as (Ht & _ & Hb).
    unfold onclick. rewrite Ht.
    destruct (tgs !! j) as [tagj|] eqn:Hj; [|by apply IH].
    destruct (buttons (clicked tgs f clicks) !! j) as [b|] eqn:Hbj; [|by apply IH].
    apply lookup_lt_Some in Hbj.
    destruct (decide (j = i)) as [->|Hne].
    + assert (tagj = tag) as -> by congruence.
      destruct (bool_decide_reflect (tag ∈ selected (clicked tgs f clicks)))
        as [Hin|Hout]; cbn [buttons selected].
      * rewrite list_lookup_insert_eq by done. f_equal. symmetry.
        apply bool_decide_eq_false_2. by intros [_ ?]%remove_elem.
      * rewrite list_lookup_insert_eq by done. f_equal. symmetry.
        apply bool_decide_eq_true_2, addTag_elem. by right.
    + assert (tag <> tagj) as Hdiff.
      { intros ->. apply Hne. by apply (NoDup_lookup tgs j i tagj). }
      destruct (bool_decide_reflect (tagj ∈ selected (clicked tgs f clicks)))
        as [Hin|Hout]; cbn [buttons selected];
        rewrite list_lookup_insert_ne by done; rewrite (IH i tag Hi); f_equal;
        apply bool_decide_ext.
      * rewrite remove_elem. naive_solver.
      * rewrite addTag_elem. naive_solver.
Qed.

Lemma remove_notin tag sel : tag ∉ sel -> remove tag sel = sel.
Proof.
  intros H. unfold remove. induction sel as [|x sel IH]; [done|]. simpl.
  apply not_elem_of_cons in H as [Hx Hsel]. unfold eqs at 1.
  rewrite bool_decide_eq_false_2 by done. simpl. by rewrite IH.
Qed.

Lemma remove_last tag sel : tag ∉ sel -> remove tag (sel ++ [tag]) = sel.
Proof.
  intros H. unfold remove. rewrite List.filter_app. fold (remove tag sel).
  rewrite remove_notin by done. simpl. unfold eqs.
  rewrite bool_decide_eq_true_2 by done. simpl. by rewrite app_nil_r.
Qed.

(** X23: a second click on a button brings its tag back into the
    selection, but at the end: the order in which the tags are applied
    follows the clicks, not the suggestion.  A tag that was not selected
    is, after two clicks, not selected again, and the selection is as
    it was. *)
Theorem click_twice i m tag :
  tags m !! i = Some tag ->
  is_Some (buttons m !! i) ->
  selected (onclick i (onclick i m))
    = (if bool_decide (tag ∈ selected m) then remove tag (selected m) ++ [tag]
       else selected m) /\
  buttons (onclick i (onclick i m))
    = <[i := bool_decide (tag ∈ selected m)]> (buttons m).
Proof.
  intros Ht [b Hb].
  assert (i < length (buttons m)) as Hlt by (by eapply lookup_lt_Some).
  assert (onclick i m
          = if bool_decide (tag ∈ selected m)
            then Make (tags m) (file m) (remove tag (selected m))
                      (<[i := false]> (buttons m))
            else Make (tags m) (file m) (addTag (selected m) tag)
                      (<[i := true]> (buttons m))) as ->
    by (unfold onclick; by rewrite Ht, Hb).
  destruct (bool_decide_reflect (tag ∈ selected m)) as [Hin|Hout].
  - unfold onclick. cbn [tags buttons selected file].
    rewrite Ht, list_lookup_insert_eq by done.
    rewrite bool_decide_eq_false_2 by (by intros [_ ?]%remove_elem).
    cbn [selected buttons]. rewrite list_insert_insert_eq. split; [|done].
    unfold addTag. rewrite bool_decide_eq_false_2; [done|].
    by intros [_ ?]%remove_elem.
  - unfold onclick. cbn [tags buttons selected file].
    rewrite Ht, list_lookup_insert_eq by done.
    rewrite bool_decide_eq_true_2 by (apply addTag_elem; by right).
    cbn [selected buttons]. rewrite list_insert_insert_eq. split; [|done].
    unfold addTag. rewrite (bool_decide_eq_false_2 _ Hout). by apply remove_last.
Qed.

End ModalExtras.

Section ApplyButton.
Import TagSuggestionModal.
Variable mergeUntyped : jsstring -> list JSON.value -> exn + jsstring.

(** The click on the apply button, for a note that is in the vault. *)
Lemma applyClick_effect m p content :
  vault p !! file m = Some content ->
  applyClick mergeUntyped m p
    = (inr (NoticeApplied (length (selected m)), onClose m),
       withVault (<[file m := applyTagsText content (selected m)]> (vault p)) p).
Proof.
  intros Hv. unfold applyClick, bind, ret. by rewrite (applyTags_typed mergeUntyped _ _ _ content).
Qed.

(** X24: when the modal opened by [tagCurrentNote] is applied at once,
    the note is merged with the suggestion taken as a set: a tag that
    the reply holds twice is applied once, and the notice counts it
    once. *)
Theorem applyClick_at_once p f ts content :
  modal p = Some (f, JSON.JString <$> ts) ->
  vault p !! f = Some content ->
  openedModal p = Some (clicked ts f []) /\
  applyClick mergeUntyped (clicked ts f []) p
    = (inr (NoticeApplied (length (setOf ts)), onClose (clicked ts f [])),
       withVault (<[f := applyTagsText content (setOf ts)]> (vault p)) p).
Proof.
  intros Hm Hv. split.
  - unfold openedModal. by rewrite Hm, strings_fmap.
  - by rewrite (applyClick_effect _ _ content).
Qed.

(** X25: the apply button does not look at the selection: with every
    tag deselected it still writes, and a note without header gets a
    header with an empty tag field, under the notice of 0 tags. *)
Theorem applyClick_nothing_selected tgs f clicks p content :
  selected (clicked tgs f clicks) = [] ->
  vault p !! f = Some content ->
  exec frontmatterRegex content = None ->
  applyClick mergeUntyped (clicked tgs f clicks) p
    = (inr (NoticeApplied 0, onClose (clicked tgs f clicks)),
       withVault (<[f := fence (u "tags: []") ++ NL ++ NL ++ content]> (vault p)) p).
Proof.
  intros Hsel Hv Hnone.
  destruct (clicked_keeps tgs f clicks) as (_ & Hf & _).
  rewrite (applyClick_effect _ _ content) by (by rewrite Hf).
  rewrite Hsel, Hf. unfold applyTagsText. by rewrite Hnone.
Qed.

End ApplyButton.

(** ** Instances *)

Section Instances.
Import TagSuggestionModal.

Lemma suggestTags_request_witness :
  (suggestTags remoteDown longNote keyedPlugin).2
    = withRequest (Client (u "k"))
        (Request (model (settings keyedPlugin)) 200
           (prompt (settings keyedPlugin) (take 3000 longNote)))
        keyedPlugin /\
  (suggestTags remoteDown longNote keyedPlugin).1
    = inl (ApiError (u "Connection error.")).
Proof.
  destruct (suggestTags_request remoteDown longNote keyedPlugin (Client (u "k")))
    as (Hstate & Herror & _); [reflexivity|].
  split; [exact Hstate|]. apply Herror. reflexivity.
Defined.

Lemma suggestTags_array_witness :
  (suggestTags (replyText sentenceReply) longNote keyedPlugin).1
    = inr (JSON.JString <$> [u "a"; u "a"; u "b"]).
Proof.
  apply (suggestTags_array (replyText sentenceReply) longNote keyedPlugin
           (Client (u "k")) (u "Here are the tags: ") [u "a"; u "a"; u "b"]
           (u " (three)") []);
    try reflexivity; apply (bool_decide_unpack (_ ∉ _)); vm_compute; exact I.
Defined.

Lemma suggestTags_second_bracket_witness :
  (suggestTags (replyText twoArraysReply) longNote keyedPlugin).1 = inl SyntaxError.
Proof.
  apply (suggestTags_second_bracket (replyText twoArraysReply) longNote keyedPlugin
           (Client (u "k")) (u "Either ") [u "a"] (u " or [" ++ quoted (u "b"))
           (u ", as you like") []);
    try reflexivity; apply (bool_decide_unpack (_ ∉ _)); vm_compute; exact I.
Defined.

Lemma tagAllNotes_dry_run_witness :
  vault (tagAllNotes (replyText sentenceReply) untypedThrows dryPlugin).2
    = vault dryPlugin.
Proof.
  apply (tagAllNotes_dry_run (replyText sentenceReply) untypedThrows dryPlugin).
  reflexivity.
Defined.

Lemma tagAllNotes_notices_witness :
  exists n,
    n <= 1 /\
    notices (tagAllNotes (replyText sentenceReply) untypedThrows keyedPlugin).2
      = notices keyedPlugin ++ [NoticeTagging 1]
          ++ map (fun k => NoticeProgress (10 * k) 1) (seq 1 (n / 10))
          ++ [NoticeDone n].
Proof.
  apply (tagAllNotes_notices (replyText sentenceReply) untypedThrows keyedPlugin
           (Client (u "k"))).
  reflexivity.
Defined.

Lemma settings_persisted_witness :
  assign DEFAULT_SETTINGS (saved clearedPlugin) = settings clearedPlugin /\
  settings (loadSettings clearedPlugin).2 = settings clearedPlugin.
Proof.
  apply (settings_persisted (replyText (u "[]")) untypedThrows clearedPlugin).
  apply (reachable_run _ _ _ (SetApiKey [])), (reachable_run _ _ _ (SetApiKey (u "k"))).
  apply reachable_onload.
Defined.

Lemma client_follows_key_witness :
  (apiKey (settings keyedPlugin) <> [] ->
   client keyedPlugin = Some (Client (apiKey (settings keyedPlugin)))) /\
  (forall c, client keyedPlugin = Some c -> clientKey c <> []) /\
  Forall (fun cr => clientKey cr.1 <> [] /\ reqMaxTokens cr.2 = 200)
         (requests keyedPlugin).
Proof.
  apply (client_follows_key (replyText (u "[]")) untypedThrows keyedPlugin).
  apply reachable_onload.
Defined.

Lemma tagOne_auto_apply_witness :
  (tagOne (replyText sentenceReply) untypedThrows 1 (u "a.md") 0 keyedPlugin).1
    = inr 1 /\
  vault (tagOne (replyText sentenceReply) untypedThrows 1 (u "a.md") 0 keyedPlugin).2
    = <[u "a.md" := applyTagsText longNote [u "a"; u "a"; u "b"]]> (vault keyedPlugin).
Proof.
  apply (tagOne_auto_apply (replyText sentenceReply) untypedThrows 1 (u "a.md") 0
           keyedPlugin (Client (u "k")) longNote (u "Here are the tags: ")
           [u "a"; u "a"; u "b"] (u " (three)") []);
    try reflexivity; try discriminate;
    apply (bool_decide_unpack (_ ∉ _)); vm_compute; exact I.
Defined.

Lemma buttons_show_selection_witness :
  buttons (clicked [u "a"; u "b"] (u "a.md") [0; 1; 0]) !! 1
    = Some (bool_decide (u "b" ∈ selected (clicked [u "a"; u "b"] (u "a.md") [0; 1; 0]))).
Proof.
  apply (buttons_show_selection [u "a"; u "b"] (u "a.md") [0; 1; 0] 1 (u "b"));
    [|reflexivity].
  apply (bool_decide_unpack (NoDup _)). vm_compute. exact I.
Defined.

(** With a tag that the suggestion holds twice, the second button
    still shows as selected after the first one deselected the tag. *)
Example buttons_of_a_repeated_tag :
  selected (clicked [u "a"; u "a"] (u "a.md") [0]) = [] /\
  buttons (clicked [u "a"; u "a"] (u "a.md") [0]) = [false; true].
Proof. by vm_compute. Qed.

Lemma click_twice_witness :
  selected (onclick 0 (onclick 0 (clicked [u "a"; u "b"] (u "a.md") [])))
    = [u "b"; u "a"].
Proof.
  destruct (click_twice 0 (clicked [u "a"; u "b"] (u "a.md") []) (u "a"))
    as (Hsel & _); [reflexivity|by eexists|].
  rewrite Hsel. reflexivity.
Defined.

Lemma applyClick_at_once_witness :
  openedModal reviewingPlugin = Some (clicked [u "a"; u "a"; u "b"] (u "a.md") []) /\
  applyClick untypedThrows (clicked [u "a"; u "a"; u "b"] (u "a.md") []) reviewingPlugin
    = (inr (NoticeApplied (length (setOf [u "a"; u "a"; u "b"])),
            onClose (clicked [u "a"; u "a"; u "b"] (u "a.md") [])),
       withVault (<[u "a.md" := applyTagsText longNote (setOf [u "a"; u "a"; u "b"])]>
                    (vault reviewingPlugin)) reviewingPlugin).
Proof.
  apply (applyClick_at_once untypedThrows reviewingPlugin (u "a.md")
           [u "a"; u "a"; u "b"] longNote); reflexivity.
Defined.

Lemma applyClick_nothing_selected_witness :
  applyClick untypedThrows (clicked [u "a"; u "b"] (u "a.md") [0; 1]) keyedPlugin
    = (inr (NoticeApplied 0, onClose (clicked [u "a"; u "b"] (u "a.md") [0; 1])),
       withVault (<[u "a.md" := fence (u "tags: []") ++ NL ++ NL ++ longNote]>
                    (vault keyedPlugin)) keyedPlugin).
Proof.
  apply (applyClick_nothing_selected untypedThrows [u "a"; u "b"] (u "a.md") [0; 1]
           keyedPlugin longNote); reflexivity.
Defined.

End Instances.

(** ** The batch, note by note *)

Section BatchFacts.
Variable remote : nat -> Anthropic -> MessageRequest -> exn + list ContentBlock.
Variable mergeUntyped : jsstring -> list JSON.value -> exn + jsstring.

Lemma relog_same p : relog (notices p) (console p) p = p.
Proof. by destruct p. Qed.

Lemma relog_relog N C N' C' p : relog N C (relog N' C' p) = relog N C p.
Proof. done. Qed.

(** The extraction does not look at the state. *)
Lemma extractTags_relog blocks N C p :
  extractTags blocks (relog N C p)
    = ((extractTags blocks p).1, relog N C (extractTags blocks p).2).
Proof.
  unfold extractTags, bind, ret, throw.
  destruct blocks as [|[t|ty] more]; simpl; repeat case_match; done.
Qed.

(** Neither the suggestion client nor the merger looks at the notices
    or at the console, and neither writes there. *)
Lemma suggestTags_relog content N C p :
  suggestTags remote content (relog N C p)
    = ((suggestTags remote content p).1,
       relog N C (suggestTags remote content p).2).
Proof.
  unfold suggestTags, bind, gets, ret, create. cbn [relog client settings requests].
  destruct (client p) as [c|]; [|done].
  destruct (remote _ _ _) as [e|blocks]; [done|].
  change (withRequest c ?r (relog N C p)) with (relog N C (withRequest c r p)).
  rewrite extractTags_relog. by destruct (extractTags blocks _).
Qed.

Lemma applyTags_relog file tags N C p :
  applyTags mergeUntyped file tags (relog N C p)
    = ((applyTags mergeUntyped file tags p).1,
       relog N C (applyTags mergeUntyped file tags p).2).
Proof.
  unfold applyTags, bind, vaultRead, vaultModify, throw. cbn [relog vault].
  destruct (vault p !! file) as [content|] eqn:Hv; [|done].
  destruct (strings tags) as [ts|].
  - cbn beta. change (vault (relog N C p)) with (vault p). by rewrite Hv.
  - destruct (mergeUntyped content tags) as [e|text]; [done|].
    cbn beta. change (vault (relog N C p)) with (vault p). by rewrite Hv.
Qed.

(** So the pipeline of a note does neither. *)
Lemma pipeline_relog file N C p :
  pipeline remote mergeUntyped file (relog N C p)
    = ((pipeline remote mergeUntyped file p).1,
       relog N C (pipeline remote mergeUntyped file p).2).
Proof.
  unfold pipeline, vaultRead. cbn [relog vault].
  destruct (vault p !! file) as [content|]; [|done].
  destruct (_ <? 50); [done|].
  rewrite suggestTags_relog.
  destruct (suggestTags remote content p) as [[e|tags] p1]; [done|].
  cbn [fst snd relog settings].
  destruct (_ && _); [|done].
  rewrite applyTags_relog.
  by destruct (applyTags mergeUntyped file tags p1) as [[e|[]] p2].
Qed.

(** The try block of one note, read through the pipeline. *)
Lemma tagOne_pipeline total file processed p :
  tagOne remote mergeUntyped total file processed p =
    match pipeline remote mergeUntyped file p with
    | (Skipped, p1) => (inr processed, p1)
    | (Completed, p1) =>
        (inr (S processed),
         if S processed mod 10 =? 0
         then withNotice (NoticeProgress (S processed) total) p1 else p1)
    | (Failed e, p1) => (inl e, p1)
    end.
Proof.
  unfold tagOne, pipeline, bind at 1, vaultRead.
  destruct (vault p !! file) as [content|]; [|done].
  destruct (_ <? 50); [done|].
  unfold bind at 1.
  destruct (suggestTags remote content p) as [[e|tags] p1]; [done|].
  unfold bind at 1, gets at 1. unfold bind at 1.
  destruct (_ && _).
  - destruct (applyTags mergeUntyped file tags p1) as [[e|[]] p2]; [done|].
    unfold bind, notice, update, ret. by destruct (_ =? 0).
  - unfold bind, notice, update, ret. by destruct (_ =? 0).
Qed.

Lemma completed_cons file o os :
  completed ((file, o) :: os)
    = (match o with Completed => 1 | _ => 0 end) + completed os.
Proof. unfold completed. destruct o; reflexivity. Qed.

Lemma failures_cons file o os :
  failures ((file, o) :: os)
    = (match o with Failed e => [(file, e)] | _ => [] end) ++ failures os.
Proof. unfold failures. destruct o; reflexivity. Qed.

Lemma outcomes_cons file files p :
  outcomes remote mergeUntyped (file :: files) p =
    ((file, (pipeline remote mergeUntyped file p).1)
       :: (outcomes remote mergeUntyped files
             (pipeline remote mergeUntyped file p).2).1,
     (outcomes remote mergeUntyped files (pipeline remote mergeUntyped file p).2).2).
Proof.
  destruct (pipeline remote mergeUntyped file p) as [o p1] eqn:E1. cbn [fst snd].
  destruct (outcomes remote mergeUntyped files p1) as [os p2] eqn:E2.
  simpl. by rewrite E1, E2.
Qed.

(** The loop of [tagAllNotes]: the count is the count of the pipelines
    that completed, the console gets the failures, the notices the
    progress, and the rest is what the pipelines left. *)
Lemma forEach_outcomes total files : forall processed N C p,
  let os := (outcomes remote mergeUntyped files p).1 in
  let q := (outcomes remote mergeUntyped files p).2 in
  forEach remote mergeUntyped total files processed (relog N C p)
    = (inr (processed + completed os),
       relog (N ++ progressNotices total processed (processed + completed os))
             (C ++ failures os) q).
Proof.
  induction files as [|file files IH]; intros processed N C p os q.
  - cbn [forEach]. unfold ret, os, q. cbn [outcomes fst snd].
    change (completed []) with 0. change (failures []) with (@nil (TFile * exn)).
    by rewrite Nat.add_0_r, progressNotices_none, !app_nil_r.
  - unfold os, q. rewrite outcomes_cons. cbn [fst snd].
    rewrite completed_cons, failures_cons.
    rewrite forEach_cons, tagOne_pipeline, pipeline_relog.
    destruct (pipeline remote mergeUntyped file p) as [o p1]. cbn [fst snd].
    destruct o as [| |e].
    + rewrite IH. by rewrite app_nil_l.
    + assert ((if S processed mod 10 =? 0
               then withNotice (NoticeProgress (S processed) total) (relog N C p1)
               else relog N C p1)
              = relog (N ++ progressNotices total processed (S processed)) C p1) as ->.
      { rewrite progressNotices_one. destruct (_ =? 0); [done|].
        by rewrite app_nil_r. }
      rewrite IH. rewrite app_nil_l, <- app_assoc.
      replace (S processed + completed (outcomes remote mergeUntyped files p1).1)
        with (processed + (1 + completed (outcomes remote mergeUntyped files p1).1))
        by lia.
      rewrite (progressNotices_app total processed (S processed)) by lia. done.
    + change (withError file e (relog N C p1))
        with (relog N (C ++ [(file, e)]) p1).
      rewrite IH. by rewrite <- app_assoc.
Qed.

(** What the pipeline of a note can change: the text of the note, and
    the record of the requests. *)
Lemma suggestTags_frame content p :
  let p1 := (suggestTags remote content p).2 in
  settings p1 = settings p /\ client p1 = client p /\ saved p1 = saved p /\
  activeView p1 = activeView p /\ modal p1 = modal p /\ vault p1 = vault p.
Proof.
  cbn zeta. destruct (client p) as [c|] eqn:Hc.
  - destruct (suggestTags_sent remote content p c Hc) as (r & -> & _). cbn.
    by rewrite Hc.
  - unfold suggestTags, bind, gets, ret. by rewrite Hc.
Qed.

Lemma pipeline_frame file p :
  let p1 := (pipeline remote mergeUntyped file p).2 in
  settings p1 = settings p /\ client p1 = client p /\ saved p1 = saved p /\
  activeView p1 = activeView p /\ modal p1 = modal p.
Proof.
  cbn zeta. unfold pipeline, vaultRead.
  destruct (vault p !! file) as [content|]; [|done].
  destruct (_ <? 50); [done|].
  pose proof (suggestTags_frame content p) as Hs. cbn zeta in Hs.
  destruct (suggestTags remote content p) as [[e|tags] p1]; cbn [snd] in *;
    [naive_solver|].
  destruct (_ && _); [|naive_solver].
  destruct (applyTags_effect mergeUntyped file tags p1) as (r & V & Ha & _).
  rewrite Ha. destruct r as [e|[]]; cbn; naive_solver.
Qed.

Lemma outcomes_frame files : forall p,
  let q := (outcomes remote mergeUntyped files p).2 in
  settings q = settings p /\ client q = client p /\ saved q = saved p /\
  activeView q = activeView p /\ modal q = modal p.
Proof.
  induction files as [|file files IH]; intros p; [done|].
  cbn zeta. rewrite outcomes_cons. cbn [snd].
  destruct (IH (pipeline remote mergeUntyped file p).2) as (H1 & H2 & H3 & H4 & H5).
  destruct (pipeline_frame file p) as (G1 & G2 & G3 & G4 & G5).
  cbn zeta in *. by rewrite H1, H2, H3, H4, H5.
Qed.

Lemma outcomes_files files : forall p,
  (outcomes remote mergeUntyped files p).1.*1 = files.
Proof.
  induction files as [|file files IH]; intros p; [done|].
  rewrite outcomes_cons. cbn. by rewrite IH.
Qed.

(** The whole of [tagAllNotes], read through the outcomes. *)
Lemma tagAllNotes_outcomes p c :
  client p = Some c ->
  let files := getMarkdownFiles p in
  let os := (outcomes remote mergeUntyped files p).1 in
  let q := (outcomes remote mergeUntyped files p).2 in
  tagAllNotes remote mergeUntyped p
    = (inr tt,
       MkPlugin (settings p) (client p) (saved p) (vault q) (activeView p)
         (notices p ++ [NoticeTagging (length files)]
            ++ progressNotices (length files) 0 (completed os)
            ++ [NoticeDone (completed os)])
         (console p ++ failures os) (requests q) (modal p)).
Proof.
  intros Hc files os q.
  destruct (outcomes_frame files p) as (H1 & H2 & H3 & H4 & H5). fold q in H1, H2, H3, H4, H5.
  unfold tagAllNotes, bind at 1, gets at 1. rewrite Hc.
  unfold bind at 1, gets at 1. fold files.
  unfold bind at 1, notice at 1, update at 1.
  change (withNotice (NoticeTagging (length files)) p)
    with (relog (notices p ++ [NoticeTagging (length files)]) (console p) p).
  unfold bind. rewrite forEach_outcomes. fold os q. unfold notice, update.
  cbn [Nat.add]. unfold withNotice, relog. cbn.
  rewrite H1, H2, H3, H4, H5, Hc, <- !app_assoc. done.
Qed.

(** C8: with a client handle, [tagAllNotes] goes through every note that
    the host lists, in that order, and never throws.  What it leaves is
    told by the outcomes of the pipelines of the notes, each started
    from what the notes before it left, whether they failed or not: the
    console gets, in order, each note that failed with the error that
    was thrown; the count is the number of notes whose pipeline
    completed, and it is the count of the closing notice; the notes and
    the requests are as the pipelines left them.  The pipeline of a note
    that is long enough fails with the error that [suggestTags] throws
    (a network error, a parse error) or that [applyTags] throws, and it
    completes, without any write, when the suggestion is empty. *)
Theorem tagAllNotes_batch p c :
  client p = Some c ->
  let files := getMarkdownFiles p in
  let os := (outcomes remote mergeUntyped files p).1 in
  let q := (outcomes remote mergeUntyped files p).2 in
  tagAllNotes remote mergeUntyped p
    = (inr tt,
       MkPlugin (settings p) (client p) (saved p) (vault q) (activeView p)
         (notices p ++ [NoticeTagging (length files)]
            ++ progressNotices (length files) 0 (completed os)
            ++ [NoticeDone (completed os)])
         (console p ++ failures os) (requests q) (modal p)) /\
  os.*1 = files /\
  (forall file s content,
     vault s !! file = Some content ->
     (length (JsString.trim content) <? 50) = false ->
     (forall e s1,
        suggestTags remote content s = (inl e, s1) ->
        pipeline remote mergeUntyped file s = (Failed e, s1)) /\
     (forall tags s1 e s2,
        suggestTags remote content s = (inr tags, s1) ->
        tags <> [] -> autoApply (settings s1) = true ->
        applyTags mergeUntyped file tags s1 = (inl e, s2) ->
        pipeline remote mergeUntyped file s = (Failed e, s2)) /\
     (forall s1,
        suggestTags remote content s = (inr [], s1) ->
        pipeline remote mergeUntyped file s = (Completed, s1) /\
        vault s1 = vault s)).
Proof.
  intros Hc files os q. split_and!.
  - by apply (tagAllNotes_outcomes p c).
  - apply outcomes_files.
  - intros file s content Hv Hlen. unfold pipeline, vaultRead. rewrite Hv, Hlen.
    split_and!.
    + intros e s1 ->. done.
    + intros tags s1 e s2 -> Hne Hauto ->. rewrite Hauto.
      by destruct tags.
    + intros s1 Hs. rewrite Hs. split; [done|].
      pose proof (suggestTags_frame content s) as Hf. cbn zeta in Hf.
      rewrite Hs in Hf. cbn [snd] in Hf. naive_solver.
Qed.

Lemma omap_agree {A B} (g h : A -> option B) (l : list A) :
  (forall x, x ∈ l -> g x = h x) -> omap g l = omap h l.
Proof.
  induction l as [|x l IH]; intros H; [done|]. cbn.
  rewrite (H x) by left. rewrite IH; [done|]. intros y Hy. apply H. by right.
Qed.

(** The pipeline of a note of the vault: a short note is skipped and
    nothing changes; for a long one exactly one request is recorded, and
    at most the text of the note changes. *)
Lemma pipeline_effect file p c content :
  client p = Some c ->
  vault p !! file = Some content ->
  let o := (pipeline remote mergeUntyped file p).1 in
  let p1 := (pipeline remote mergeUntyped file p).2 in
  (longEnough content = false -> o = Skipped /\ p1 = p) /\
  (longEnough content = true ->
   o <> Skipped /\
   requests p1 = requests p ++ [(c, requestFor (settings p) content)] /\
   (vault p1 = vault p \/ exists text, vault p1 = <[file := text]> (vault p))).
Proof.
  intros Hc Hv. cbn zeta. unfold pipeline, vaultRead, longEnough. rewrite Hv.
  destruct (_ <? 50); (split; [intros [=]|intros [=]]); [done|].
  destruct (suggestTags_sent remote content p c Hc) as (r & -> & _).
  destruct r as [e|tags]; [by split_and!; [|done|left]|].
  destruct (_ && _); [|by split_and!; [|done|left]].
  destruct (applyTags_effect mergeUntyped file tags
              (withRequest c (requestFor (settings p) content) p))
    as (r2 & V & -> & HV).
  assert (V = vault p \/ exists text, V = <[file := text]> (vault p)) as HV'.
  { destruct HV as [->|(old & text & _ & ->)]; [by left|]. right. by exists text. }
  by destruct r2 as [e|[]]; split_and!.
Qed.

(** The requests of the batch, and which notes are skipped. *)
Lemma outcomes_requests files : forall p c,
  client p = Some c -> NoDup files ->
  (forall f, f ∈ files -> is_Some (vault p !! f)) ->
  let os := (outcomes remote mergeUntyped files p).1 in
  let q := (outcomes remote mergeUntyped files p).2 in
  requests q = requests p ++ omap (requestOf c p) files /\
  (forall f o, (f, o) ∈ os ->
     (o = Skipped <-> from_option longEnough false (vault p !! f) = false)) /\
  (forall g, g ∉ files -> vault q !! g = vault p !! g).
Proof.
  induction files as [|file files IH]; intros p c Hc Hnd Hdom os q.
  - unfold os, q. cbn. rewrite app_nil_r. split_and!; [done| |done].
    by intros f o ?%elem_of_nil.
  - apply NoDup_cons in Hnd as [Hnotin Hnd].
    destruct (Hdom file) as [content Hv]; [by left|].
    unfold os, q. rewrite outcomes_cons. cbn [fst snd].
    destruct (pipeline_effect file p c content Hc Hv) as [Hshort Hlong].
    destruct (pipeline_frame file p) as (Hset & Hcl & _). cbn zeta in *.
    set (o := (pipeline remote mergeUntyped file p).1) in *.
    set (p1 := (pipeline remote mergeUntyped file p).2) in *.
    assert (requests p1 = requests p ++ from_option (fun x => [x]) [] (requestOf c p file)
            /\ (forall g, g <> file -> vault p1 !! g = vault p !! g)
            /\ (o = Skipped <-> longEnough content = false)) as (Hreq & Hframe & Hskip).
    { unfold requestOf. rewrite Hv. destruct (longEnough content) eqn:Hl.
      - destruct (Hlong eq_refl) as (Ho & Hr & HV). split_and!; [done| |done].
        intros g Hg. destruct HV as [->|[text ->]]; [done|].
        by rewrite lookup_insert_ne.
      - destruct (Hshort eq_refl) as [Ho ->]. cbn. by rewrite app_nil_r. }
    destruct (IH p1 c) as (IHreq & IHskip & IHframe).
    { by rewrite Hcl. }
    { done. }
    { intros f Hf. rewrite Hframe; [apply Hdom; by right|]. by intros ->. }
    assert (forall f, f ∈ files -> requestOf c p1 f = requestOf c p f) as Hsame.
    { intros f Hf. unfold requestOf. rewrite Hframe, Hset; [done|]. by intros ->. }
    split_and!.
    + rewrite IHreq, Hreq, (omap_agree _ _ _ Hsame), <- app_assoc. cbn [omap list_omap].
      by destruct (requestOf c p file).
    + intros f o' [[= -> ->]|Hin]%elem_of_cons.
      * rewrite Hv. cbn. done.
      * rewrite (IHskip f o' Hin), Hframe; [done|].
        intros ->. apply Hnotin.
        apply (list_elem_of_fmap_2 fst) in Hin. by rewrite outcomes_files in Hin.
    + intros g Hg. apply not_elem_of_cons in Hg as [Hg1 Hg2].
      by rewrite IHframe, Hframe.
Qed.

(** X15: with a client handle, the requests that [tagAllNotes] sends
    are, in the order of the notes, one for each note whose trimmed text
    has at least 50 code units, built from the text that the note had
    before the batch, and none for the other notes.  Every note has one
    outcome; it is skipped exactly when it is short; the console gets
    exactly the notes whose pipeline failed, each once and with the
    error of that failure; and the closing notice shows how many
    pipelines completed. *)
Theorem tagAllNotes_accounting p c :
  client p = Some c ->
  let files := getMarkdownFiles p in
  let os := (outcomes remote mergeUntyped files p).1 in
  let p' := (tagAllNotes remote mergeUntyped p).2 in
  requests p' = requests p ++ omap (requestOf c p) files /\
  NoDup files /\ os.*1 = files /\
  (forall f o, (f, o) ∈ os ->
     (o = Skipped <-> from_option longEnough false (vault p !! f) = false)) /\
  console p' = console p ++ failures os /\
  last (notices p') = Some (NoticeDone (completed os)).
Proof.
  intros Hc files os p'. unfold p'.
  rewrite (tagAllNotes_outcomes p c Hc). cbn [snd requests console notices].
  destruct (outcomes_requests files p c Hc (getMarkdownFiles_NoDup p))
    as (Hreq & Hskip & _).
  { intros f Hf. by apply getMarkdownFiles_elem. }
  split_and!; [done|apply getMarkdownFiles_NoDup|apply outcomes_files|done|done|].
  by rewrite !app_assoc, last_snoc.
Qed.

End BatchFacts.

Section BatchInstances.

Lemma tagAllNotes_batch_witness :
  getMarkdownFiles batchPlugin = [u "b.md"; u "a.md"] /\
  console (tagAllNotes failsFirst untypedThrows batchPlugin).2
    = [(u "b.md", ApiError (u "Connection error."))] /\
  last (notices (tagAllNotes failsFirst untypedThrows batchPlugin).2)
    = Some (NoticeDone 1) /\
  vault (tagAllNotes failsFirst untypedThrows batchPlugin).2 !! u "b.md"
    = Some otherNote /\
  vault (tagAllNotes failsFirst untypedThrows batchPlugin).2 !! u "a.md"
    = Some (applyTagsText longNote [u "t"]).
Proof.
  destruct (tagAllNotes_batch failsFirst untypedThrows batchPlugin (Client (u "k")))
    as (Hrun & _); [reflexivity|].
  rewrite Hrun. vm_compute. repeat split.
Defined.

Lemma tagAllNotes_accounting_witness :
  requests (tagAllNotes failsFirst untypedThrows batchPlugin).2
    = [(Client (u "k"), requestFor (settings batchPlugin) otherNote);
       (Client (u "k"), requestFor (settings batchPlugin) longNote)] /\
  console (tagAllNotes failsFirst untypedThrows batchPlugin).2
    = [(u "b.md", ApiError (u "Connection error."))].
Proof.
  destruct (tagAllNotes_accounting failsFirst untypedThrows batchPlugin
              (Client (u "k")))
    as (Hreq & _ & _ & _ & Hcon & _); [reflexivity|].
  rewrite Hreq, Hcon. vm_compute. repeat split.
Defined.

End BatchInstances.
